(** * Decision tree induction (decisiontree.ipynb): entropy, split search,
      recursive tree builder and predictor.

    The notebook's [Node] and [DecisionTreeClassifier] classes are embedded
    as Rocq functions.  Conventions of the embedding:

    - feature values (NumPy floats, assumed finite) are rationals [Q], whose
      order is the order of the floats; class labels (NumPy integers) are [Z];
    - entropies and gains are computed in an [Arithmetic]:
      [binary64 log2_impl] is the arithmetic of the code, IEEE 754 binary64
      with [np.log2] as a parameter, and [exact] computes on real numbers
      with [np.log2 x = ln x / ln 2]; a theorem with a parameter
      [A : Arithmetic] holds in both;
    - a Python exception is a value [Raise e] of the [result] type;
    - [build_tree] recurses on row subsets, not on a subterm: it is written
      with a fuel argument, [None] meaning that the fuel ran out, and
      [build_tree] starts it with one more unit than there are rows;
    - depths and sample counts are natural numbers. *)

From Stdlib Require Import List ZArith QArith Reals Lra Lia Permutation Bool
  Sorted.
From Stdlib Require Import Floats.
From Stdlib Require String Ascii DecimalString.
Import String.StringSyntax Ascii.AsciiSyntax.
Import ListNotations.

Delimit Scope string_scope with string.
Delimit Scope char_scope with char.

Close Scope R_scope.
Close Scope Q_scope.
Close Scope float_scope.
Open Scope nat_scope.

(** ** Exceptions and results *)

Inductive exception : Type :=
| ValueError
| IndexError
| ZeroDivisionError
| AttributeError.

Inductive result (A : Type) : Type :=
| Ok (a : A)
| Raise (e : exception).
Arguments Ok {A} a.
Arguments Raise {A} e.

Definition bind {A B : Type} (r : result A) (k : A -> result B) : result B :=
  match r with
  | Ok a => k a
  | Raise e => Raise e
  end.

Notation "x <- r ;; k" := (bind r (fun x => k))
  (at level 61, r at next level, right associativity).

(** A loop [for b in l: a = step(a, b)] whose body may raise. *)
Fixpoint foldM {A B : Type} (step : A -> B -> result A) (l : list B) (a : A)
  : result A :=
  match l with
  | [] => Ok a
  | b :: l' => a' <- step a b ;; foldM step l' a'
  end.

(** A list comprehension [[f(b) for b in l]] whose body may raise. *)
Fixpoint mapM {A B : Type} (f : A -> result B) (l : list A) : result (list B) :=
  match l with
  | [] => Ok []
  | a :: l' => b <- f a ;; bs <- mapM f l' ;; Ok (b :: bs)
  end.

(** ** NumPy arrays *)

(** A two-dimensional float array: [X.shape = (length rows, ncols)].  A
    NumPy array is rectangular; [rectangular] states it. *)
Record ndarray : Type := {
  ncols : nat;
  rows : list (list Q)
}.

Definition shape (X : ndarray) : nat * nat := (length (rows X), ncols X).

Definition rectangular (X : ndarray) : Prop :=
  Forall (fun r => length r = ncols X) (rows X).

(** [X[:, j]] *)
Definition column (X : ndarray) (j : nat) : list Q :=
  map (fun r => nth j r 0%Q) (rows X).

(** The elements of [a] at the positions where [mask] is true. *)
Fixpoint select {A : Type} (mask : list bool) (a : list A) : list A :=
  match mask, a with
  | m :: mask', v :: a' => if m then v :: select mask' a' else select mask' a'
  | _, _ => []
  end.

(** [a[mask]] for a boolean mask: NumPy raises IndexError when the mask and
    the array differ in length. *)
Definition bool_index {A : Type} (a : list A) (mask : list bool)
  : result (list A) :=
  if length mask =? length a then Ok (select mask a) else Raise IndexError.

(** [X[mask]] on the rows of a two-dimensional array. *)
Definition take_rows (X : ndarray) (mask : list bool) : result ndarray :=
  rs <- bool_index (rows X) mask ;;
  Ok {| ncols := ncols X; rows := rs |}.

(** [np.unique]: the sorted distinct values. *)
Section Unique.
Context {A : Type} (cmp : A -> A -> comparison).

Fixpoint insert_unique (x : A) (l : list A) : list A :=
  match l with
  | [] => [x]
  | h :: t =>
      match cmp x h with
      | Lt => x :: l
      | Eq => l
      | Gt => h :: insert_unique x t
      end
  end.

Definition unique (l : list A) : list A := fold_right insert_unique [] l.
End Unique.

Definition np_unique (y : list Z) : list Z := unique Z.compare y.
Definition np_uniqueQ (v : list Q) : list Q := unique Qcompare v.

(** [np.bincount(y)]: ValueError on a negative entry, else the number of
    occurrences of each of [0 .. max(y)] (no bin at all for an empty [y]). *)
Definition count (c : Z) (y : list Z) : nat :=
  length (filter (fun v => (v =? c)%Z) y).

Definition amax (y : list Z) : Z := fold_right Z.max 0%Z y.

Definition bincount (y : list Z) : result (list nat) :=
  if existsb (fun v => (v <? 0)%Z) y then Raise ValueError
  else
    match y with
    | [] => Ok []
    | _ :: _ =>
        Ok (map (fun c => count (Z.of_nat c) y) (seq 0 (S (Z.to_nat (amax y)))))
    end.

(** [np.argmax(a)]: the first index of the maximum; ValueError on an empty
    array. *)
Fixpoint argmax_from (a : list nat) (i best_i best_v : nat) : nat :=
  match a with
  | [] => best_i
  | v :: a' =>
      if best_v <? v then argmax_from a' (S i) i v
      else argmax_from a' (S i) best_i best_v
  end.

Definition argmax (a : list nat) : result nat :=
  match a with
  | [] => Raise ValueError
  | v :: a' => Ok (argmax_from a' 1 0 v)
  end.

(** ** Floating-point arithmetic

    The notebook computes entropies and gains in binary64: [/] on two Python
    integers, [np.log2], [*], [+], [-] and the comparison [>], with the
    integer literals [0] and [-1] converted on their first use.  The classes
    below take these operations from an [Arithmetic], so that each function
    is written once, as the source has it. *)
Class Arithmetic : Type := {
  num : Type;
  of_int : Z -> num;
  truediv : nat -> nat -> num;
  np_log2 : num -> num;
  fmul : num -> num -> num;
  fadd : num -> num -> num;
  fsub : num -> num -> num;
  fgt : num -> num -> bool
}.

(** The arithmetic of the code: binary64 floats, rounding to nearest, ties
    to even.  [np.log2] belongs to NumPy, whose rounding the notebook does
    not fix: it is the parameter [log2_impl].  [float_of_nat] converts a
    length through a 63-bit integer; below [2^53] it is exact, and [/] on
    two such floats is the correctly rounded quotient that Python returns
    for [/] on the two integers. *)
Definition float_of_nat (n : nat) : PrimFloat.float :=
  PrimFloat.of_uint63 (Uint63.of_Z (Z.of_nat n)).

Definition float_of_int (z : Z) : PrimFloat.float :=
  match z with
  | Zneg p => PrimFloat.opp (PrimFloat.of_uint63 (Uint63.of_Z (Zpos p)))
  | _ => PrimFloat.of_uint63 (Uint63.of_Z z)
  end.

Definition binary64 (log2_impl : PrimFloat.float -> PrimFloat.float)
  : Arithmetic :=
  {| num := PrimFloat.float;
     of_int := float_of_int;
     truediv := fun a b => PrimFloat.div (float_of_nat a) (float_of_nat b);
     np_log2 := log2_impl;
     fmul := PrimFloat.mul;
     fadd := PrimFloat.add;
     fsub := PrimFloat.sub;
     fgt := fun a b => PrimFloat.ltb b a |}.

(** The same operations without rounding, on real numbers, with
    [np.log2 x = ln x / ln 2].  A statement that takes no arithmetic as a
    parameter and names none is about this one. *)
Definition log2 (x : R) : R := (ln x / ln 2)%R.

#[export] Instance exact : Arithmetic :=
  {| num := R;
     of_int := IZR;
     truediv := fun a b => (INR a / INR b)%R;
     np_log2 := log2;
     fmul := Rmult;
     fadd := Rplus;
     fsub := Rminus;
     fgt := fun a b => if Rgt_dec a b then true else false |}.

#[warnings="-projection-no-head-constant"] Canonical Structure exact.

(** ** class Node

    The Python object has the fields [feature_index], [threshold], [left],
    [right], [value], [info_gain], all [None] at creation.  [build_tree] only
    ever returns the two fillings below, and [predict_single] tells them
    apart by [value is not None]. *)
Inductive Node {A : Arithmetic} : Type :=
| Leaf (value : Z)
| Decision (feature_index : nat) (threshold : Q) (info_gain : num)
    (left_child right_child : Node).

(** ** class DecisionTreeClassifier *)

Record DecisionTreeClassifier {A : Arithmetic} : Type := {
  max_depth : option nat;
  min_samples_split : nat;
  root : option Node;
  n_classes : option nat;
  n_features : option nat
}.

(** [DecisionTreeClassifier(max_depth, min_samples_split)] *)
Definition init {A : Arithmetic} (max_depth : option nat)
    (min_samples_split : nat) : DecisionTreeClassifier :=
  {| max_depth := max_depth; min_samples_split := min_samples_split;
     root := None; n_classes := None; n_features := None |}.

(** [entropy]: [p = len(y[y == cls]) / len(y)] for each class of
    [np.unique(y)], and [entropy -= p * np.log2(p)], from [entropy = 0]. *)
Definition proportion {A : Arithmetic} (y : list Z) (cls : Z) : num :=
  truediv (length (select (map (fun v => (v =? cls)%Z) y) y)) (length y).

Definition entropy {A : Arithmetic} (y : list Z) : num :=
  let classes := np_unique y in
  fold_left
    (fun entropy cls =>
       let p := proportion y cls in
       fsub entropy (fmul p (np_log2 p)))
    classes (of_int 0).

(** [information_gain]: [len(.) / len(parent)] divides two Python integers,
    so an empty parent raises ZeroDivisionError. *)
Definition information_gain {A : Arithmetic}
    (parent left_child right_child : list Z) : result num :=
  if length parent =? 0 then Raise ZeroDivisionError
  else
    let weight_left := truediv (length left_child) (length parent) in
    let weight_right := truediv (length right_child) (length parent) in
    Ok (fsub (entropy parent)
          (fadd (fmul weight_left (entropy left_child))
             (fmul weight_right (entropy right_child)))).

(** The dictionary [{'feature_index', 'threshold', 'info_gain'}]. *)
Record split {A : Arithmetic} : Type := {
  feature_index : nat;
  threshold : Q;
  info_gain : num
}.

(** [feature_values <= threshold] and its negation. *)
Definition le_mask (feature_values : list Q) (threshold : Q) : list bool :=
  map (fun v => Qle_bool v threshold) feature_values.

Definition invert (mask : list bool) : list bool := map negb mask.

(** The body of the inner loop of [best_split], on the loop state
    [(best_gain, best_split)]. *)
Definition try_threshold {A : Arithmetic} (y : list Z)
    (feature_values : list Q) (feature_index : nat) (st : num * option split)
    (threshold : Q) : result (num * option split) :=
  let left_mask := le_mask feature_values threshold in
  let right_mask := invert left_mask in
  y_left <- bool_index y left_mask ;;
  if length y_left =? 0 then Ok st
  else
    y_right <- bool_index y right_mask ;;
    if length y_right =? 0 then Ok st
    else
      gain <- information_gain y y_left y_right ;;
      if fgt gain (fst st) then
        Ok (gain,
            Some {| feature_index := feature_index;
                    threshold := threshold;
                    info_gain := gain |})
      else Ok st.

(** The body of the outer loop of [best_split]. *)
Definition try_feature {A : Arithmetic} (X : ndarray) (y : list Z)
    (st : num * option split) (feature_index : nat)
  : result (num * option split) :=
  let feature_values := column X feature_index in
  let thresholds := np_uniqueQ feature_values in
  foldM (try_threshold y feature_values feature_index) thresholds st.

Definition best_split {A : Arithmetic} (X : ndarray) (y : list Z)
  : result (option split) :=
  let best_gain := of_int (-1) in
  let best_split : option split := None in
  let '(n_samples, n_features) := shape X in
  st <- foldM (try_feature X y) (seq 0 n_features) (best_gain, best_split) ;;
  Ok (snd st).

(** [leaf_value = np.argmax(np.bincount(y))] and the leaf holding it. *)
Definition make_leaf {A : Arithmetic} (y : list Z) : result Node :=
  counts <- bincount y ;;
  leaf_value <- argmax counts ;;
  Ok (Leaf (Z.of_nat leaf_value)).

(** The stopping criteria of [build_tree]. *)
Definition stopping {A : Arithmetic} (self : DecisionTreeClassifier)
    (X : ndarray) (y : list Z) (depth : nat) : bool :=
  let '(n_samples, n_features) := shape X in
  let n_classes := length (np_unique y) in
  match max_depth self with
  | Some md => md <=? depth
  | None => false
  end
  || (n_samples <? min_samples_split self)
  || (n_classes =? 1).

(** [X[mask], y[mask]], the arguments of a recursive call. *)
Definition subset (X : ndarray) (y : list Z) (mask : list bool)
  : result (ndarray * list Z) :=
  X' <- take_rows X mask ;;
  y' <- bool_index y mask ;;
  Ok (X', y').

Fixpoint build_tree_fuel {A : Arithmetic} (fuel : nat)
    (self : DecisionTreeClassifier) (X : ndarray) (y : list Z) (depth : nat)
  : option (result Node) :=
  match fuel with
  | O => None
  | S fuel' =>
      if stopping self X y depth then Some (make_leaf y)
      else
        match best_split X y with
        | Raise e => Some (Raise e)
        | Ok None => Some (make_leaf y)
        | Ok (Some best) =>
            let left_mask :=
              le_mask (column X (feature_index best)) (threshold best) in
            let right_mask := invert left_mask in
            match subset X y left_mask with
            | Raise e => Some (Raise e)
            | Ok (X_left, y_left) =>
                match build_tree_fuel fuel' self X_left y_left (depth + 1) with
                | None => None
                | Some (Raise e) => Some (Raise e)
                | Some (Ok left_node) =>
                    match subset X y right_mask with
                    | Raise e => Some (Raise e)
                    | Ok (X_right, y_right) =>
                        match build_tree_fuel fuel' self X_right y_right
                                (depth + 1) with
                        | None => None
                        | Some (Raise e) => Some (Raise e)
                        | Some (Ok right_node) =>
                            Some (Ok (Decision (feature_index best)
                                        (threshold best) (info_gain best)
                                        left_node right_node))
                        end
                    end
                end
            end
        end
  end.

Definition build_tree {A : Arithmetic} (self : DecisionTreeClassifier)
    (X : ndarray) (y : list Z) (depth : nat) : option (result Node) :=
  build_tree_fuel (S (length (rows X))) self X y depth.

(** [self.n_classes = len(np.unique(y))] and [self.n_features = X.shape[1]]:
    the object after the first two assignments of [fit]. *)
Definition assign_sizes {A : Arithmetic} (self : DecisionTreeClassifier)
    (X : ndarray) (y : list Z) : DecisionTreeClassifier :=
  {| max_depth := max_depth self;
     min_samples_split := min_samples_split self;
     root := root self;
     n_classes := Some (length (np_unique y));
     n_features := Some (snd (shape X)) |}.

(** [self.root = node] *)
Definition assign_root {A : Arithmetic} (self : DecisionTreeClassifier)
    (node : Node) : DecisionTreeClassifier :=
  {| max_depth := max_depth self;
     min_samples_split := min_samples_split self;
     root := Some node;
     n_classes := n_classes self;
     n_features := n_features self |}.

(** The object after a [fit] that returned: [n_classes], [n_features] and
    [root] are assigned. *)
Definition fitted {A : Arithmetic} (self : DecisionTreeClassifier)
    (X : ndarray) (y : list Z) (node : Node) : DecisionTreeClassifier :=
  {| max_depth := max_depth self;
     min_samples_split := min_samples_split self;
     root := Some node;
     n_classes := Some (length (np_unique y));
     n_features := Some (snd (shape X)) |}.

(** [fit] returns nothing and updates [self] in place: the embedding
    returns the outcome together with the object as [fit] leaves it.  An
    exception of [build_tree] leaves [fit] after [n_classes] and
    [n_features] were assigned and before [root] is, so that the object
    keeps the root it had. *)
Definition fit {A : Arithmetic} (self : DecisionTreeClassifier)
    (X : ndarray) (y : list Z)
  : option (result unit * DecisionTreeClassifier) :=
  let self := assign_sizes self X y in
  match build_tree self X y 0 with
  | None => None
  | Some (Raise e) => Some (Raise e, self)
  | Some (Ok node) => Some (Ok tt, assign_root self node)
  end.

Fixpoint predict_single {A : Arithmetic} (x : list Q) (node : Node)
  : result Z :=
  match node with
  | Leaf value => Ok value
  | Decision feature_index threshold _ left_child right_child =>
      match nth_error x feature_index with
      | None => Raise IndexError
      | Some v =>
          if Qle_bool v threshold then predict_single x left_child
          else predict_single x right_child
      end
  end.

(** [predict]: [self.root] is [None] before [fit], and reading [None.value]
    raises AttributeError. *)
Definition predict {A : Arithmetic} (self : DecisionTreeClassifier)
    (X : ndarray) : result (list Z) :=
  mapM (fun x =>
          match root self with
          | None => Raise AttributeError
          | Some node => predict_single x node
          end) (rows X).

(** ** Vocabulary of the specification and of the proofs *)

Definition Rsum (l : list R) : R := fold_right Rplus 0%R l.




(** The value that [information_gain] computes for a non-empty parent. *)
Definition gain {A : Arithmetic} (parent left_child right_child : list Z)
  : num :=
  fsub (entropy parent)
    (fadd (fmul (truediv (length left_child) (length parent))
             (entropy left_child))
       (fmul (truediv (length right_child) (length parent))
          (entropy right_child))).

(** The candidates of a split search in the order of the two loops of
    [best_split]: feature by feature, and for each feature the distinct
    values of its column in increasing order. *)
Definition candidates (X : ndarray) : list (nat * Q) :=
  flat_map (fun j => map (pair j) (np_uniqueQ (column X j))) (seq 0 (ncols X)).

(** The order in which the two loops reach the candidates: by feature
    index, then by threshold. *)
Definition enumerated_before (c c' : nat * Q) : Prop :=
  fst c < fst c' \/ (fst c = fst c' /\ (snd c < snd c')%Q).

(** The labels on each side of the candidate [(feature, threshold)]. *)
Definition left_labels (X : ndarray) (y : list Z) (c : nat * Q) : list Z :=
  select (le_mask (column X (fst c)) (snd c)) y.

Definition right_labels (X : ndarray) (y : list Z) (c : nat * Q) : list Z :=
  select (invert (le_mask (column X (fst c)) (snd c))) y.

(** A candidate is evaluated when neither side is empty. *)
Definition viable (X : ndarray) (y : list Z) (c : nat * Q) : Prop :=
  left_labels X y c <> [] /\ right_labels X y c <> [].

Definition candidate_gain {A : Arithmetic} (X : ndarray) (y : list Z)
    (c : nat * Q) : num :=
  gain y (left_labels X y c) (right_labels X y c).

(** The body of the inner loop of [best_split] at one candidate. *)
Definition try_candidate {A : Arithmetic} (X : ndarray) (y : list Z)
    (st : num * option split) (c : nat * Q) : result (num * option split) :=
  try_threshold y (column X (fst c)) (fst c) st (snd c).

(** The same iteration as a function of the loop state, for data with as
    many labels as rows, where nothing raises. *)
Definition step_candidate {A : Arithmetic} (X : ndarray) (y : list Z)
    (st : num * option split) (c : nat * Q) : num * option split :=
  match left_labels X y c, right_labels X y c with
  | _ :: _, _ :: _ =>
      if fgt (candidate_gain X y c) (fst st) then
        (candidate_gain X y c,
         Some {| feature_index := fst c; threshold := snd c;
                 info_gain := candidate_gain X y c |})
      else st
  | _, _ => st
  end.

(** The loop invariant of the search in exact arithmetic after the
    candidates [seen]: either no candidate was evaluated, or the state holds
    the first candidate of maximal gain among those evaluated. *)
Definition search_inv (X : ndarray) (y : list Z) (seen : list (nat * Q))
    (st : R * option split) : Prop :=
  match snd st with
  | None => fst st = (-1)%R /\ forall c, In c seen -> ~ viable X y c
  | Some s =>
      let c := (feature_index s, threshold s) in
      fst st = info_gain s /\
      info_gain s = candidate_gain X y c /\
      viable X y c /\
      exists before after,
        seen = before ++ c :: after /\
        (forall c', In c' before -> viable X y c' ->
                    (candidate_gain X y c' < info_gain s)%R) /\
        (forall c', In c' after -> viable X y c' ->
                    (candidate_gain X y c' <= info_gain s)%R)
  end.

(** The loop invariant of the search in binary64, where the gains are
    compared as floats: the state holds a candidate whose gain exceeds -1,
    no candidate seen has a greater gain, and none of those seen before it
    has a gain that reaches it.  A gain that is NaN compares false either
    way. *)
Definition search_inv_binary64 (log2_impl : PrimFloat.float -> PrimFloat.float)
    (X : ndarray) (y : list Z) (seen : list (nat * Q))
    (st : PrimFloat.float * option (split (A := binary64 log2_impl))) : Prop :=
  match snd st with
  | None =>
      fst st = (-1)%float /\
      forall c, In c seen -> viable X y c ->
                (-1 <? candidate_gain (A := binary64 log2_impl) X y c)%float
                = false
  | Some s =>
      let c := (feature_index s, threshold s) in
      fst st = info_gain s /\
      info_gain s = candidate_gain (A := binary64 log2_impl) X y c /\
      viable X y c /\
      (-1 <? info_gain s)%float = true /\
      exists before after,
        seen = before ++ c :: after /\
        (forall c', In c' before -> viable X y c' ->
                    (info_gain s
                     <=? candidate_gain (A := binary64 log2_impl) X y c')%float
                    = false) /\
        (forall c', In c' after -> viable X y c' ->
                    (info_gain s
                     <? candidate_gain (A := binary64 log2_impl) X y c')%float
                    = false)
  end.

(** [v] is the majority label of [y], ties going to the smallest label. *)
Definition majority_label (y : list Z) (v : Z) : Prop :=
  In v y /\
  (forall c, count c y <= count v y) /\
  (forall c, count c y = count v y -> (v <= c)%Z).

Definition nonnegative (y : list Z) : Prop := Forall (fun v => (0 <= v)%Z) y.

(** The mask [X[:, feature_index] <= threshold] of a chosen split. *)
Definition split_mask {A : Arithmetic} (X : ndarray) (best : split)
  : list bool :=
  le_mask (column X (feature_index best)) (threshold best).

(** The graph of [build_tree] on data where [X[mask]] and [y[mask]] are
    defined: one rule for each way through the body, the premises being the
    recursive calls in the order in which they are made. *)
Inductive Builds {A : Arithmetic} (self : DecisionTreeClassifier)
  : ndarray -> list Z -> nat -> result Node -> Prop :=
| Builds_stop X y depth :
    stopping self X y depth = true ->
    Builds self X y depth (make_leaf y)
| Builds_no_split X y depth :
    stopping self X y depth = false ->
    best_split X y = Ok None ->
    Builds self X y depth (make_leaf y)
| Builds_left_raise X y depth best X_left y_left e :
    stopping self X y depth = false ->
    best_split X y = Ok (Some best) ->
    subset X y (split_mask X best) = Ok (X_left, y_left) ->
    Builds self X_left y_left (depth + 1) (Raise e) ->
    Builds self X y depth (Raise e)
| Builds_right_raise X y depth best X_left y_left X_right y_right left_node e :
    stopping self X y depth = false ->
    best_split X y = Ok (Some best) ->
    subset X y (split_mask X best) = Ok (X_left, y_left) ->
    Builds self X_left y_left (depth + 1) (Ok left_node) ->
    subset X y (invert (split_mask X best)) = Ok (X_right, y_right) ->
    Builds self X_right y_right (depth + 1) (Raise e) ->
    Builds self X y depth (Raise e)
| Builds_node X y depth best X_left y_left X_right y_right left_node right_node :
    stopping self X y depth = false ->
    best_split X y = Ok (Some best) ->
    subset X y (split_mask X best) = Ok (X_left, y_left) ->
    Builds self X_left y_left (depth + 1) (Ok left_node) ->
    subset X y (invert (split_mask X best)) = Ok (X_right, y_right) ->
    Builds self X_right y_right (depth + 1) (Ok right_node) ->
    Builds self X y depth
      (Ok (Decision (feature_index best) (threshold best) (info_gain best)
             left_node right_node)).

(** The greatest depth of a leaf below a node. *)
Fixpoint height {A : Arithmetic} (node : Node) : nat :=
  match node with
  | Leaf _ => 0
  | Decision _ _ _ left_child right_child =>
      S (Nat.max (height left_child) (height right_child))
  end.

(** Well-formed input of the builder: a non-empty rectangular [X] and as
    many labels as rows. *)
Definition well_formed (X : ndarray) (y : list Z) : Prop :=
  rows X <> [] /\ rectangular X /\ length y = length (rows X).

(** [y] contains exactly one distinct class. *)
Definition single_class (y : list Z) : Prop :=
  exists c, y <> [] /\ Forall (eq c) y.

(** A call [build_tree(X, y, depth)]. *)
Definition call : Type := ndarray * list Z * nat.

(** The recursive calls made by a call of [build_tree]: [side] is [false]
    for the left child and [true] for the right child, which is only built
    once the left subtree has been returned. *)
Inductive child_call {A : Arithmetic} (self : DecisionTreeClassifier)
  : bool -> call -> call -> Prop :=
| child_left X y depth best X_left y_left :
    stopping self X y depth = false ->
    best_split X y = Ok (Some best) ->
    subset X y (split_mask X best) = Ok (X_left, y_left) ->
    child_call self false (X, y, depth) (X_left, y_left, depth + 1)
| child_right X y depth best X_left y_left left_node X_right y_right :
    stopping self X y depth = false ->
    best_split X y = Ok (Some best) ->
    subset X y (split_mask X best) = Ok (X_left, y_left) ->
    Builds self X_left y_left (depth + 1) (Ok left_node) ->
    subset X y (invert (split_mask X best)) = Ok (X_right, y_right) ->
    child_call self true (X, y, depth) (X_right, y_right, depth + 1).

(** The call reached from a call by a path of sides. *)
Inductive call_at {A : Arithmetic} (self : DecisionTreeClassifier)
  : list bool -> call -> call -> Prop :=
| call_here c : call_at self [] c c
| call_below side path c c' c'' :
    child_call self side c c' ->
    call_at self path c' c'' ->
    call_at self (side :: path) c c''.

(** The node reached from a node by a path of sides. *)
Fixpoint node_at {A : Arithmetic} (node : Node) (path : list bool)
    {struct path} : option Node :=
  match path, node with
  | [], _ => Some node
  | side :: path', Decision _ _ _ left_child right_child =>
      node_at (if side then right_child else left_child) path'
  | _ :: _, Leaf _ => None
  end.

(** Every decision node of the tree tests a feature below [d]. *)
Fixpoint features_below {A : Arithmetic} (d : nat) (node : Node) : Prop :=
  match node with
  | Leaf _ => True
  | Decision feature_index _ _ left_child right_child =>
      feature_index < d /\ features_below d left_child
      /\ features_below d right_child
  end.

(** ** Example inputs *)

(** The scenario of the specification: four samples on one feature. *)
Definition X_scenario : ndarray :=
  {| ncols := 1; rows := [[0%Q]; [1%Q]; [2%Q]; [3%Q]] |}.

Definition y_scenario : list Z := [0; 0; 1; 1]%Z.

(** Four samples on one feature whose only two-sided split leaves the
    class proportions unchanged. *)
Definition X_mixed : ndarray :=
  {| ncols := 1; rows := [[0%Q]; [0%Q]; [1%Q]; [1%Q]] |}.

Definition y_mixed : list Z := [0; 1; 0; 1]%Z.

(** Two samples with the same feature value and different labels. *)
Definition X_tied : ndarray := {| ncols := 1; rows := [[0%Q]; [0%Q]] |}.

Definition y_tied : list Z := [0; 1]%Z.

(** Two samples of the single class [-1]. *)
Definition y_negative : list Z := [-1; -1]%Z.

(** Twenty samples of three classes on one feature, in the proportions
    1/2, 1/4, 1/4 on each side of the only split with two non-empty sides:
    four samples with feature value 0 and sixteen with feature value 1. *)
Definition X_rounding : ndarray :=
  {| ncols := 1; rows := repeat [0%Q] 4 ++ repeat [1%Q] 16 |}.

Definition y_rounding : list Z :=
  ([0; 0; 1; 2] ++ repeat 0 8 ++ repeat 1 4 ++ repeat 2 4)%Z.

(** [np.log2] on the arguments that the examples above pass to it: the
    powers of two 1, 1/2 and 1/4, where its value is exact.  Any other
    argument would show as NaN. *)
Definition log2_dyadic (x : PrimFloat.float) : PrimFloat.float :=
  if (x =? 1)%float then 0%float
  else if (x =? 0.5)%float then (-1)%float
  else if (x =? 0.25)%float then (-2)%float
  else PrimFloat.nan.

(** ** def generate_data, and the cells that split the data and train

    [np.random.randn(n_samples, 2)] is the argument [sample]: the labelling
    is a function of the array that was drawn.  The sign of a floating-point
    sum is the sign of the exact sum, so [Q] decides [> 0] as the floats
    do. *)

(** [a + b] on two one-dimensional arrays of the same length. *)
Definition add_arrays (a b : list Q) : list Q :=
  map (fun p => (fst p + snd p)%Q) (combine a b).

(** [(X[:, 0] + X[:, 1] > 0).astype(int)] *)
Definition generate_labels (X : ndarray) : list Z :=
  map (fun s => if Qle_bool s 0 then 0%Z else 1%Z)
    (add_arrays (column X 0) (column X 1)).

Definition generate_data (sample : ndarray) : ndarray * list Z :=
  let X := sample in
  let y := generate_labels X in
  (X, y).

(** [X[:k]] and [X[k:]] on the rows of a two-dimensional array. *)
Definition rows_before (X : ndarray) (k : nat) : ndarray :=
  {| ncols := ncols X; rows := firstn k (rows X) |}.

Definition rows_from (X : ndarray) (k : nat) : ndarray :=
  {| ncols := ncols X; rows := skipn k (rows X) |}.

(** [split_idx = len(X) // 2] and the four slices. *)
Definition train_test_split (X : ndarray) (y : list Z)
  : (ndarray * ndarray) * (list Z * list Z) :=
  let split_idx := length (rows X) / 2 in
  ((rows_before X split_idx, rows_from X split_idx),
   (firstn split_idx y, skipn split_idx y)).

(** The training cell: [dt = DecisionTreeClassifier(max_depth=3)],
    [dt.fit(X_train, y_train)], then the predictions on both parts. *)
Definition train_and_predict {A : Arithmetic} (X_train X_test : ndarray)
    (y_train : list Z)
  : option (result (DecisionTreeClassifier * list Z * list Z)) :=
  let dt := init (Some 3) 2 in
  match fit dt X_train y_train with
  | None => None
  | Some (Raise e, _) => Some (Raise e)
  | Some (Ok _, dt) =>
      Some (y_pred_train <- predict dt X_train ;;
            y_pred_test <- predict dt X_test ;;
            Ok (dt, y_pred_train, y_pred_test))
  end.

(** ** def visualize_tree

    The [Digraph] object is the list of the calls [dot.node(name, label)]
    and [dot.edge(tail, head, label)] made on it, in order; rendering it to
    a file is left out.  Python formats the two floats of a label with
    [:.2f] and [:.4f]: these are the parameters [format_2f] and
    [format_4f]. *)

Inductive statement : Type :=
| node_stmt (name label : String.string)
| edge_stmt (tail_name head_name label : String.string).

(** [str] of a NumPy integer and of a Python integer. *)
Definition str_int (v : Z) : String.string :=
  DecimalString.NilZero.string_of_int (Z.to_int v).

Definition str_nat (n : nat) : String.string :=
  DecimalString.NilZero.string_of_uint (Nat.to_uint n).

Definition newline : String.string :=
  String.String (Ascii.ascii_of_nat 10) String.EmptyString.

Section VisualizeTree.
Context {A : Arithmetic}.
Variable format_2f : Q -> String.string.
Variable format_4f : num -> String.string.

(** The label that [add_nodes] gives to a node. *)
Definition node_label (node : Node) : String.string :=
  match node with
  | Leaf value => String.append "Class: "%string (str_int value)
  | Decision feature_index threshold info_gain _ _ =>
      String.append "X["%string
        (String.append (str_nat feature_index)
           (String.append "] <= "%string
              (String.append (format_2f threshold)
                 (String.append newline
                    (String.append "Gain: "%string (format_4f info_gain))))))
  end.

Fixpoint add_nodes (node : Node) (node_id : String.string)
    (dot : list statement) : list statement :=
  match node with
  | Leaf value => dot ++ [node_stmt node_id (node_label node)]
  | Decision _ _ _ left_child right_child =>
      let dot := dot ++ [node_stmt node_id (node_label node)] in
      let left_id := String.append node_id "0"%string in
      let dot := add_nodes left_child left_id dot in
      let dot := dot ++ [edge_stmt node_id left_id "True"%string] in
      let right_id := String.append node_id "1"%string in
      let dot := add_nodes right_child right_id dot in
      dot ++ [edge_stmt node_id right_id "False"%string]
  end.

(** [add_nodes(tree.root)]: [None.value] raises AttributeError when the
    tree was never fitted. *)
Definition visualize_tree (tree : DecisionTreeClassifier)
  : result (list statement) :=
  match root tree with
  | None => Raise AttributeError
  | Some node => Ok (add_nodes node "0"%string [])
  end.
End VisualizeTree.

(** The characters that [add_nodes] appends to a node id along a path. *)
Fixpoint path_id (path : list bool) : String.string :=
  match path with
  | [] => String.EmptyString
  | side :: path' =>
      String.String (if side then "1"%char else "0"%char) (path_id path')
  end.

(** The names declared and the edges drawn by a list of statements. *)
Fixpoint node_names (dot : list statement) : list String.string :=
  match dot with
  | [] => []
  | node_stmt name _ :: dot' => name :: node_names dot'
  | edge_stmt _ _ _ :: dot' => node_names dot'
  end.

Fixpoint edges (dot : list statement)
  : list (String.string * String.string * String.string) :=
  match dot with
  | [] => []
  | node_stmt _ _ :: dot' => edges dot'
  | edge_stmt tail_name head_name label :: dot' =>
      (tail_name, head_name, label) :: edges dot'
  end.

(** ** Vocabulary of the further properties *)

(** The numbers of leaves and of decision nodes below a node. *)
Fixpoint n_leaves {A : Arithmetic} (node : Node) : nat :=
  match node with
  | Leaf _ => 1
  | Decision _ _ _ left_child right_child =>
      n_leaves left_child + n_leaves right_child
  end.

Fixpoint n_decisions {A : Arithmetic} (node : Node) : nat :=
  match node with
  | Leaf _ => 0
  | Decision _ _ _ left_child right_child =>
      S (n_decisions left_child + n_decisions right_child)
  end.

(** The classes held by the leaves of a tree, from left to right. *)
Fixpoint leaf_values {A : Arithmetic} (node : Node) : list Z :=
  match node with
  | Leaf value => [value]
  | Decision _ _ _ left_child right_child =>
      leaf_values left_child ++ leaf_values right_child
  end.

(** Two rows agree on the [d] features of the training data. *)
Definition same_features (d : nat) (x x' : list Q) : Prop :=
  forall j, j < d -> (nth j x 0 == nth j x' 0)%Q.

(** No two samples have the same features and different labels. *)
Definition consistent (X : ndarray) (y : list Z) : Prop :=
  forall x l x' l',
    In (x, l) (combine (rows X) y) -> In (x', l') (combine (rows X) y) ->
    same_features (ncols X) x x' -> l = l'.

(** The sides that [predict_single] takes from a node, down to the leaf (or
    to the node where indexing the query fails). *)
Fixpoint predict_path {A : Arithmetic} (x : list Q) (node : Node)
  : list bool :=
  match node with
  | Leaf _ => []
  | Decision feature_index threshold _ left_child right_child =>
      match nth_error x feature_index with
      | None => []
      | Some v =>
          if Qle_bool v threshold then false :: predict_path x left_child
          else true :: predict_path x right_child
      end
  end.

(** A drawn sample of two rows, and a tree with one decision node. *)
Definition sample_two : ndarray :=
  {| ncols := 2; rows := [[1%Q; 1%Q]; [(-3)%Q; 1%Q]] |}.

Definition stump : Node := Decision 0 1%Q 1%R (Leaf 0) (Leaf 1).

(** * Properties *)

(** In the exact arithmetic the operations are those of the reals. *)
Ltac exact_arithmetic :=
  cbn [num of_int truediv np_log2 fmul fadd fsub fgt exact] in *.

Arguments proportion {A} y cls : simpl never.
Arguments entropy {A} y : simpl never.
Arguments gain {A} parent left_child right_child : simpl never.
Arguments candidate_gain {A} X y c : simpl never.

(** ** Boolean masks *)

Lemma select_map_filter {A : Type} (f : A -> bool) (a : list A) :
  select (map f a) a = filter f a.
Proof.
  induction a as [|v a IH]; simpl; [reflexivity|].
  now rewrite IH.
Qed.

Lemma select_invert_length {A : Type} (mask : list bool) (a : list A) :
  length mask = length a ->
  length (select mask a) + length (select (invert mask) a) = length a.
Proof.
  revert a; induction mask as [|m mask IH]; intros [|v a] H; simpl in *;
    try discriminate; [reflexivity|].
  injection H as H. specialize (IH a H).
  destruct m; simpl; lia.
Qed.

Lemma select_In {A : Type} (mask : list bool) (a : list A) (x : A) :
  In x (select mask a) -> In x a.
Proof.
  revert a; induction mask as [|m mask IH]; intros [|v a]; simpl; try tauto.
  destruct m; simpl; intros H; [destruct H as [H|H]|]; auto.
Qed.

Lemma select_length_same {A B : Type} (mask : list bool) (a : list A) (b : list B) :
  length a = length b -> length (select mask a) = length (select mask b).
Proof.
  revert a b; induction mask as [|m mask IH]; intros [|x a] [|z b] H;
    simpl in *; try discriminate; try reflexivity.
  injection H as H. specialize (IH a b H). destruct m; simpl; lia.
Qed.

Lemma count_select_invert (c : Z) (mask : list bool) (y : list Z) :
  length mask = length y ->
  count c (select mask y) + count c (select (invert mask) y) = count c y.
Proof.
  unfold count.
  revert y; induction mask as [|m mask IH]; intros [|v y] H; simpl in *;
    try discriminate; [reflexivity|].
  injection H as H. specialize (IH y H).
  destruct m; simpl; destruct (Z.eqb v c); simpl; lia.
Qed.

Lemma invert_length (mask : list bool) : length (invert mask) = length mask.
Proof. apply length_map. Qed.

Lemma le_mask_length (vs : list Q) (t : Q) : length (le_mask vs t) = length vs.
Proof. apply length_map. Qed.

Lemma column_length (X : ndarray) (j : nat) :
  length (column X j) = length (rows X).
Proof. apply length_map. Qed.

Lemma split_mask_length {A : Arithmetic} (X : ndarray) (best : split) :
  length (split_mask X best) = length (rows X).
Proof. unfold split_mask. now rewrite le_mask_length, column_length. Qed.

Lemma bool_index_ok {A : Type} (a : list A) (mask : list bool) :
  length mask = length a -> bool_index a mask = Ok (select mask a).
Proof. unfold bool_index. intros ->. now rewrite Nat.eqb_refl. Qed.

Lemma bool_index_inv {A : Type} (a : list A) (mask : list bool) (r : list A) :
  bool_index a mask = Ok r -> length mask = length a /\ r = select mask a.
Proof.
  unfold bool_index. destruct (Nat.eqb_spec (length mask) (length a));
    [|discriminate].
  intros [= <-]. auto.
Qed.

Lemma subset_ok (X : ndarray) (y : list Z) (mask : list bool) :
  length y = length (rows X) -> length mask = length (rows X) ->
  subset X y mask
  = Ok ({| ncols := ncols X; rows := select mask (rows X) |}, select mask y).
Proof.
  intros Hy Hm. unfold subset, take_rows.
  rewrite !bool_index_ok by congruence. reflexivity.
Qed.

Lemma subset_inv (X : ndarray) (y : list Z) (mask : list bool) X' y' :
  subset X y mask = Ok (X', y') ->
  X' = {| ncols := ncols X; rows := select mask (rows X) |} /\
  y' = select mask y /\
  length mask = length (rows X) /\ length mask = length y.
Proof.
  unfold subset, take_rows. intros H.
  destruct (bool_index (rows X) mask) as [rs|] eqn:E1; simpl in H; [|discriminate].
  destruct (bool_index y mask) as [ys|] eqn:E2; simpl in H; [|discriminate].
  apply bool_index_inv in E1, E2. destruct E1 as [L1 ->], E2 as [L2 ->].
  injection H as <- <-. auto.
Qed.

Lemma subset_sizes (X : ndarray) (y : list Z) (mask : list bool) X' y' :
  length y = length (rows X) ->
  subset X y mask = Ok (X', y') ->
  length y' = length (rows X') /\ ncols X' = ncols X /\ y' = select mask y.
Proof.
  intros Hlen E. apply subset_inv in E. destruct E as (-> & -> & Hm & _).
  simpl. repeat split. now apply select_length_same.
Qed.

Lemma select_nonnegative (mask : list bool) (y : list Z) :
  nonnegative y -> nonnegative (select mask y).
Proof.
  unfold nonnegative. rewrite !Forall_forall. intros H v Hv.
  apply H. now apply select_In in Hv.
Qed.

Lemma select_negative (mask : list bool) (y : list Z) :
  length mask = length y -> ~ nonnegative y ->
  ~ nonnegative (select mask y) \/ ~ nonnegative (select (invert mask) y).
Proof.
  unfold nonnegative.
  revert y; induction mask as [|m mask IH]; intros [|v y] Hlen Hneg;
    simpl in *; try discriminate.
  - exfalso. apply Hneg. constructor.
  - injection Hlen as Hlen.
    destruct (Z_lt_le_dec v 0) as [Hv|Hv].
    + destruct m; simpl; [left|right]; intros H; inversion H; lia.
    + assert (~ Forall (fun v => (0 <= v)%Z) y) as Hy
        by (intros H; apply Hneg; constructor; assumption).
      destruct (IH y Hlen Hy) as [H|H]; [left|right]; intros H';
        apply H; destruct m; simpl in *; auto; inversion H'; auto.
Qed.

(** ** np.unique *)

Section UniqueFacts.
Context {A : Type} (cmp : A -> A -> comparison).
Context (eqv ltr : A -> A -> Prop).
Hypothesis cmp_Eq : forall x y, cmp x y = Eq -> eqv x y.
Hypothesis cmp_Lt : forall x y, cmp x y = Lt -> ltr x y.
Hypothesis cmp_Gt : forall x y, cmp x y = Gt -> ltr y x.
Hypothesis eqv_refl : forall x, eqv x x.

Lemma insert_unique_In (x z : A) (l : list A) :
  In z (insert_unique cmp x l) -> z = x \/ In z l.
Proof.
  induction l as [|h t IH]; simpl.
  - intros [H|[]]; auto.
  - destruct (cmp x h); simpl; intros H; auto.
    + destruct H as [H|H]; auto.
    + destruct H as [H|H]; auto. destruct (IH H); auto.
Qed.

Lemma insert_unique_keeps (x z : A) (l : list A) :
  In z l -> In z (insert_unique cmp x l).
Proof.
  induction l as [|h t IH]; simpl; [tauto|].
  destruct (cmp x h); simpl; intros [H|H]; auto.
Qed.

Lemma insert_unique_covers (x : A) (l : list A) :
  exists z, In z (insert_unique cmp x l) /\ eqv x z.
Proof.
  induction l as [|h t IH]; simpl.
  - exists x; auto.
  - destruct (cmp x h) eqn:E.
    + exists h; simpl; auto.
    + exists x; simpl; auto.
    + destruct IH as (z & Hz & Ez). exists z; simpl; auto.
Qed.

Lemma unique_In (z : A) (l : list A) : In z (unique cmp l) -> In z l.
Proof.
  induction l as [|x l IH]; simpl; [tauto|].
  intros H. apply insert_unique_In in H. destruct H; auto.
Qed.

Lemma unique_covers (x : A) (l : list A) :
  In x l -> exists z, In z (unique cmp l) /\ eqv x z.
Proof.
  induction l as [|h l IH]; simpl; [tauto|].
  intros [->|H].
  - apply insert_unique_covers.
  - destruct (IH H) as (z & Hz & Ez). exists z; split; auto.
    now apply insert_unique_keeps.
Qed.

Lemma insert_unique_sorted (x : A) (l : list A) :
  Sorted ltr l -> Sorted ltr (insert_unique cmp x l).
Proof.
  induction l as [|h t IH]; simpl; intros Hs.
  - repeat constructor.
  - destruct (cmp x h) eqn:E.
    + exact Hs.
    + constructor; [exact Hs|]. constructor. now apply cmp_Lt.
    + inversion Hs as [|? ? Ht Hh]; subst.
      constructor; [now apply IH|].
      destruct t as [|h' t']; simpl.
      * constructor. now apply cmp_Gt.
      * inversion Hh; subst.
        destruct (cmp x h'); constructor; auto.
Qed.

Lemma unique_sorted (l : list A) : Sorted ltr (unique cmp l).
Proof.
  induction l; simpl; [constructor|]. now apply insert_unique_sorted.
Qed.
End UniqueFacts.

Lemma np_unique_In (c : Z) (y : list Z) : In c (np_unique y) <-> In c y.
Proof.
  split.
  - apply unique_In.
  - intros H.
    destruct (unique_covers Z.compare eq) with (x := c) (l := y)
      as (z & Hz & ->); auto.
    intros a b. apply Z.compare_eq.
Qed.

Lemma np_unique_sorted (y : list Z) : Sorted Z.lt (np_unique y).
Proof.
  apply unique_sorted.
  - intros a b. apply Z.compare_lt_iff.
  - intros a b H. now apply Z.compare_gt_iff.
Qed.

Lemma np_unique_NoDup (y : list Z) : NoDup (np_unique y).
Proof.
  pose proof (np_unique_sorted y) as Hs.
  apply Sorted_StronglySorted in Hs; [|exact Z.lt_strorder.(StrictOrder_Transitive)].
  induction Hs as [|a l Hl IH Ha]; constructor; auto.
  intros Hin. rewrite Forall_forall in Ha. specialize (Ha a Hin). lia.
Qed.

Lemma np_unique_single (c : Z) (y : list Z) :
  y <> [] -> Forall (eq c) y -> np_unique y = [c].
Proof.
  intros Hne Hall. induction Hall as [|v y <- Hall IH]; [contradiction|].
  destruct y as [|v' y'].
  - reflexivity.
  - unfold np_unique in *. simpl in *. rewrite IH by discriminate.
    simpl. now rewrite Z.compare_refl.
Qed.

Lemma np_unique_single_class (y : list Z) :
  length (np_unique y) = 1 <-> single_class y.
Proof.
  split.
  - intros H. destruct (np_unique y) as [|c [|]] eqn:E; try discriminate.
    exists c. split.
    + intros ->. discriminate.
    + apply Forall_forall. intros v Hv. apply np_unique_In in Hv.
      rewrite E in Hv. destruct Hv as [|[]]; auto.
  - intros (c & Hne & Hall). now rewrite (np_unique_single c y Hne Hall).
Qed.

Lemma np_uniqueQ_In (t : Q) (vs : list Q) : In t (np_uniqueQ vs) -> In t vs.
Proof. apply unique_In. Qed.

Lemma np_uniqueQ_covers (v : Q) (vs : list Q) :
  In v vs -> exists t, In t (np_uniqueQ vs) /\ (v == t)%Q.
Proof.
  apply unique_covers.
  - intros a b. apply Qeq_alt.
  - intros a. apply Qeq_refl.
Qed.

Lemma np_uniqueQ_sorted (vs : list Q) : Sorted Qlt (np_uniqueQ vs).
Proof.
  apply unique_sorted.
  - intros a b. apply Qlt_alt.
  - intros a b. apply Qgt_alt.
Qed.

(** ** Sums of reals over lists *)

Lemma Rsum_app (l1 l2 : list R) : Rsum (l1 ++ l2) = (Rsum l1 + Rsum l2)%R.
Proof. induction l1; simpl; [|rewrite IHl1]; lra. Qed.


Lemma Rsum_nonneg (l : list R) : Forall (fun x => 0 <= x)%R l -> (0 <= Rsum l)%R.
Proof. induction 1; simpl; lra. Qed.

Lemma Rsum_pos (l : list R) (x : R) :
  Forall (fun z => 0 <= z)%R l -> In x l -> (0 < x)%R -> (0 < Rsum l)%R.
Proof.
  induction 1 as [|z l Hz Hl IH]; simpl; [tauto|].
  intros [->|Hx] Hpos.
  - pose proof (Rsum_nonneg l Hl). lra.
  - specialize (IH Hx Hpos). lra.
Qed.


Lemma Rsum_map_lin {A : Type} (k1 k2 : R) (f g h : A -> R) (l : list A) :
  Rsum (map (fun a => k1 * f a + k2 * g a - h a)%R l)
  = (k1 * Rsum (map f l) + k2 * Rsum (map g l) - Rsum (map h l))%R.
Proof. induction l; simpl; [|rewrite IHl]; lra. Qed.

Lemma Rsum_map_opp {A : Type} (f : A -> R) (l : list A) :
  Rsum (map (fun a => - f a)%R l) = (- Rsum (map f l))%R.
Proof. induction l; simpl; [|rewrite IHl]; lra. Qed.

(** A sum over a duplicate-free list only depends on the entries where the
    summand is not zero. *)
Lemma Rsum_support {A : Type} (g : A -> R) (l1 l2 : list A) :
  NoDup l1 -> NoDup l2 -> incl l1 l2 ->
  (forall a, In a l2 -> ~ In a l1 -> g a = 0%R) ->
  Rsum (map g l1) = Rsum (map g l2).
Proof.
  intros H1 H2; revert l1 H1.
  induction H2 as [|a l2 Ha H2 IH]; intros l1 H1 Hincl Hz.
  - destruct l1 as [|b l1]; [reflexivity|].
    destruct (Hincl b (or_introl eq_refl)).
  - destruct (Classical_Prop.classic (In a l1)) as [Hin|Hnin].
    + destruct (in_split _ _ Hin) as (p & q & ->).
      rewrite map_app, Rsum_app; simpl.
      pose proof (NoDup_remove_1 _ _ _ H1) as Hpq.
      pose proof (NoDup_remove_2 _ _ _ H1) as Hapq.
      rewrite <- (IH (p ++ q) Hpq).
      * rewrite map_app, Rsum_app. lra.
      * intros b Hb.
        assert (In b (p ++ a :: q)) as Hb'
          by (apply in_app_iff in Hb; apply in_app_iff; simpl; tauto).
        destruct (Hincl b Hb') as [<-|]; [contradiction|assumption].
      * intros b Hb Hnb. apply Hz; [now right|].
        intros Hb'. apply Hnb.
        apply in_app_iff in Hb'; apply in_app_iff.
        destruct Hb' as [|[<-|]]; auto. contradiction.
    + simpl. rewrite (Hz a (or_introl eq_refl) Hnin).
      rewrite <- (IH l1 H1).
      * lra.
      * intros b Hb. destruct (Hincl b Hb) as [<-|]; [contradiction|assumption].
      * intros b Hb Hnb. apply Hz; [now right|assumption].
Qed.

(** ** The function [p * log2 p] *)

Lemma ln2_pos : (0 < ln 2)%R.
Proof. pose proof ln_lt_2. lra. Qed.

Lemma ln_le_sub1 (x : R) : (0 < x)%R -> (ln x <= x - 1)%R.
Proof.
  intros Hx. pose proof (exp_ineq1_le (ln x)) as H.
  rewrite exp_ln in H by assumption. lra.
Qed.

(** The graph of [x * ln x] lies above its tangent at [m]. *)
Lemma xlnx_tangent (x m : R) :
  (0 <= x)%R -> (0 < m)%R -> (x * ln m + x - m <= x * ln x)%R.
Proof.
  intros Hx Hm. destruct Hx as [Hx|<-]; [|lra].
  assert (0 < m / x)%R as Hmx by (apply Rdiv_lt_0_compat; assumption).
  pose proof (ln_le_sub1 (m / x) Hmx) as H.
  unfold Rdiv in H. rewrite ln_mult in H; [|assumption|now apply Rinv_0_lt_compat].
  rewrite ln_Rinv in H by assumption.
  apply (Rmult_le_compat_l x) in H; [|lra].
  replace (x * (m * / x - 1))%R with (m - x)%R in H by (field; lra).
  lra.
Qed.

(** Convexity of [x * ln x] on the non-negative reals. *)
Lemma xlnx_convex (w a b : R) :
  (0 <= w <= 1)%R -> (0 <= a)%R -> (0 <= b)%R ->
  ((w * a + (1 - w) * b) * ln (w * a + (1 - w) * b)
   <= w * (a * ln a) + (1 - w) * (b * ln b))%R.
Proof.
  intros Hw Ha Hb.
  set (m := (w * a + (1 - w) * b)%R).
  assert (0 <= w * a)%R as Hwa by (apply Rmult_le_pos; lra).
  assert (0 <= (1 - w) * b)%R as Hwb by (apply Rmult_le_pos; lra).
  assert (0 <= m)%R as [Hm|Hm] by (unfold m; lra).
  - pose proof (xlnx_tangent a m Ha Hm) as Ta.
    pose proof (xlnx_tangent b m Hb Hm) as Tb.
    apply (Rmult_le_compat_l w) in Ta; [|lra].
    apply (Rmult_le_compat_l (1 - w)) in Tb; [|lra].
    replace (m * ln m)%R
      with (w * (a * ln m + a - m) + (1 - w) * (b * ln m + b - m))%R
      by (unfold m; ring).
    lra.
  - rewrite <- Hm.
    assert (w * a = 0)%R as E1 by (unfold m in Hm; lra).
    assert ((1 - w) * b = 0)%R as E2 by (unfold m in Hm; lra).
    rewrite <- !Rmult_assoc, E1, E2. lra.
Qed.

Lemma plog2p_nonpos (p : R) : (0 <= p <= 1)%R -> (p * log2 p <= 0)%R.
Proof.
  intros [[Hp|<-] Hp1]; [|lra].
  pose proof (ln_le_sub1 p Hp). pose proof ln2_pos as H2.
  unfold log2, Rdiv.
  assert (0 < / ln 2)%R as Hk by now apply Rinv_0_lt_compat.
  assert (ln p * / ln 2 <= 0)%R by nra.
  nra.
Qed.

Lemma log2_1 : log2 1 = 0%R.
Proof. unfold log2. rewrite ln_1. unfold Rdiv. ring. Qed.

(** ** Class proportions and entropy in exact arithmetic *)

Lemma proportion_count (y : list Z) (c : Z) :
  proportion y c = (INR (count c y) / INR (length y))%R.
Proof.
  unfold proportion, count. now rewrite select_map_filter.
Qed.

Lemma count_count_occ (c : Z) (y : list Z) : count c y = count_occ Z.eq_dec y c.
Proof.
  unfold count. induction y as [|v y IH]; simpl; [reflexivity|].
  destruct (Z.eqb_spec v c), (Z.eq_dec v c); simpl; try congruence; lia.
Qed.

Lemma count_le_length (c : Z) (y : list Z) : count c y <= length y.
Proof. unfold count. apply filter_length_le. Qed.

Lemma count_pos_iff (c : Z) (y : list Z) : 0 < count c y <-> In c y.
Proof.
  rewrite count_count_occ. symmetry. apply count_occ_In.
Qed.

Lemma count_absent (c : Z) (y : list Z) : ~ In c y -> count c y = 0.
Proof.
  intros H. destruct (count c y) eqn:E; [reflexivity|].
  exfalso. apply H, count_pos_iff. lia.
Qed.


(** Every class that [entropy] visits has a positive proportion, so that
    [np.log2] is never applied to zero. *)
Lemma proportion_pos (y : list Z) (c : Z) :
  In c (np_unique y) -> (0 < proportion y c <= 1)%R.
Proof.
  intros Hc. apply (proj1 (np_unique_In c y)) in Hc.
  pose proof (proj2 (count_pos_iff c y) Hc) as Hpos.
  pose proof (count_le_length c y) as Hle.
  rewrite proportion_count.
  assert (0 < INR (count c y))%R by (apply lt_0_INR; lia).
  assert (INR (count c y) <= INR (length y))%R by (apply le_INR; lia).
  assert (0 < INR (length y))%R by lra.
  split.
  - now apply Rdiv_lt_0_compat.
  - apply Rmult_le_reg_r with (INR (length y)); [assumption|].
    unfold Rdiv. rewrite Rmult_assoc, Rinv_l; lra.
Qed.

Lemma fold_left_minus {A : Type} (f : A -> R) (l : list A) (e : R) :
  fold_left (fun acc a => acc - f a)%R l e = (e - Rsum (map f l))%R.
Proof.
  revert e; induction l as [|a l IH]; intros e; simpl; [lra|].
  rewrite IH. lra.
Qed.

Lemma entropy_sum (y : list Z) :
  entropy y
  = (- Rsum (map (fun c => proportion y c * log2 (proportion y c))
               (np_unique y)))%R.
Proof.
  unfold entropy. exact_arithmetic.
  rewrite (fold_left_minus (fun c => proportion y c * log2 (proportion y c))%R).
  lra.
Qed.



Lemma entropy_nonneg (y : list Z) : (0 <= entropy y)%R.
Proof.
  rewrite entropy_sum, <- Rsum_map_opp.
  apply Rsum_nonneg, Forall_forall. intros x Hx.
  apply in_map_iff in Hx. destruct Hx as (c & <- & Hc).
  pose proof (proportion_pos y c Hc).
  pose proof (plog2p_nonpos (proportion y c)). lra.
Qed.

Lemma entropy_single_class (c : Z) (y : list Z) :
  Forall (eq c) y -> entropy y = 0%R.
Proof.
  intros Hall. destruct y as [|v y'] eqn:Ey; [reflexivity|].
  rewrite <- Ey in *.
  assert (y <> []) as Hne by (rewrite Ey; discriminate).
  rewrite entropy_sum, (np_unique_single c y Hne Hall). simpl.
  assert (count c y = length y) as Hc.
  { unfold count. clear Ey Hne. induction Hall as [|v0 y0 <- _ IH]; simpl; [reflexivity|].
    rewrite Z.eqb_refl. simpl. now rewrite IH. }
  rewrite proportion_count, Hc.
  assert (0 < INR (length y))%R by (apply lt_0_INR; rewrite Ey; simpl; lia).
  unfold Rdiv. rewrite Rinv_r by lra. rewrite log2_1. lra.
Qed.

(** A subset with two distinct classes has positive entropy. *)
Lemma entropy_pos (y : list Z) (a b : Z) :
  In a y -> In b y -> a <> b -> (0 < entropy y)%R.
Proof.
  intros Ha Hb Hab.
  rewrite entropy_sum, <- Rsum_map_opp.
  apply Rsum_pos with (x := (- (proportion y a * log2 (proportion y a)))%R).
  - apply Forall_forall. intros x Hx.
    apply in_map_iff in Hx. destruct Hx as (c & <- & Hc).
    pose proof (proportion_pos y c Hc).
    pose proof (plog2p_nonpos (proportion y c)). lra.
  - apply in_map_iff. exists a. split; [reflexivity|now apply np_unique_In].
  - assert (count a y + count b y <= length y) as Hsum.
    { unfold count. clear Ha Hb.
      induction y as [|v y IH]; simpl; [lia|].
      destruct (Z.eqb_spec v a), (Z.eqb_spec v b); simpl; try lia. }
    apply count_pos_iff in Ha, Hb.
    assert (0 < proportion y a < 1)%R as [Hp0 Hp1].
    { rewrite proportion_count.
      assert (0 < INR (count a y))%R by (apply lt_0_INR; lia).
      assert (INR (count a y) < INR (length y))%R by (apply lt_INR; lia).
      assert (0 < INR (length y))%R by lra.
      split; [now apply Rdiv_lt_0_compat|].
      apply Rmult_lt_reg_r with (INR (length y)); [assumption|].
      unfold Rdiv. rewrite Rmult_assoc, Rinv_l; lra. }
    pose proof (ln_increasing _ _ Hp0 Hp1) as Hln. rewrite ln_1 in Hln.
    pose proof ln2_pos as H2.
    assert (0 < / ln 2)%R as Hk by now apply Rinv_0_lt_compat.
    unfold log2, Rdiv.
    assert (ln (proportion y a) * / ln 2 < 0)%R by nra.
    nra.
Qed.

(** ** Information gain is never negative in exact arithmetic *)

Lemma information_gain_ok {A : Arithmetic}
    (parent left_child right_child : list Z) :
  parent <> [] ->
  information_gain parent left_child right_child
  = Ok (gain parent left_child right_child).
Proof.
  intros Hne. unfold information_gain.
  destruct parent; [contradiction|reflexivity].
Qed.

(** One class's share of the gain, by convexity of [p * log2 p]: the class
    proportion in the parent is the weighted mean of its proportions in the
    two children. *)
Lemma class_gain_nonneg (nl nr cl cr : nat) :
  0 < nl -> 0 < nr ->
  let n := INR (nl + nr) in
  let a := (INR cl / INR nl)%R in
  let b := (INR cr / INR nr)%R in
  let m := (INR (cl + cr) / n)%R in
  (0 <= INR nl / n * (a * log2 a) + INR nr / n * (b * log2 b) - m * log2 m)%R.
Proof.
  intros Hl Hr n a b m.
  assert (0 < INR nl)%R as Hnl by (apply lt_0_INR; lia).
  assert (0 < INR nr)%R as Hnr by (apply lt_0_INR; lia).
  assert (n = INR nl + INR nr)%R as En by (unfold n; apply plus_INR).
  assert (0 < n)%R as Hn by lra.
  assert (0 <= INR cl)%R as Hcl by apply pos_INR.
  assert (0 <= INR cr)%R as Hcr by apply pos_INR.
  set (w := (INR nl / n)%R).
  assert (INR nr / n = 1 - w)%R as Ew by (unfold w; rewrite En; field; lra).
  assert (0 <= w <= 1)%R as Hw.
  { assert (0 < w)%R by (unfold w; apply Rdiv_lt_0_compat; lra).
    assert (0 < INR nr / n)%R by (apply Rdiv_lt_0_compat; lra). lra. }
  assert (0 <= a)%R as Ha.
  { unfold a. apply Rmult_le_pos; [assumption|]. left. now apply Rinv_0_lt_compat. }
  assert (0 <= b)%R as Hb.
  { unfold b. apply Rmult_le_pos; [assumption|]. left. now apply Rinv_0_lt_compat. }
  assert (m = w * a + (1 - w) * b)%R as Em.
  { unfold m, w, a, b. rewrite plus_INR, En. field. lra. }
  rewrite Ew, Em. unfold log2.
  pose proof (xlnx_convex w a b Hw Ha Hb) as Hc.
  pose proof ln2_pos as H2.
  assert (0 < / ln 2)%R as Hk by now apply Rinv_0_lt_compat.
  set (m' := (w * a + (1 - w) * b)%R) in *.
  replace (w * (a * (ln a / ln 2)) + (1 - w) * (b * (ln b / ln 2))
           - m' * (ln m' / ln 2))%R
    with ((w * (a * ln a) + (1 - w) * (b * ln b) - m' * ln m') * / ln 2)%R
    by (field; lra).
  apply Rmult_le_pos; lra.
Qed.

(** The entropy of a part of [y], summed over the classes of [y]: the
    classes absent from the part contribute [0 * log2 0 = 0]. *)
Lemma entropy_select_sum (mask : list bool) (y : list Z) :
  let part := select mask y in
  entropy part
  = (- Rsum (map (fun c => proportion part c * log2 (proportion part c))
               (np_unique y)))%R.
Proof.
  intros part. rewrite entropy_sum. f_equal.
  apply Rsum_support.
  - apply np_unique_NoDup.
  - apply np_unique_NoDup.
  - intros c Hc. apply np_unique_In.
    apply (proj1 (np_unique_In c part)) in Hc.
    now apply select_In in Hc.
  - intros c _ Hc. rewrite np_unique_In in Hc.
    assert (count c part = 0) as E.
    { destruct (count c part) eqn:E; [reflexivity|].
      exfalso. apply Hc, count_pos_iff. lia. }
    rewrite proportion_count, E. simpl. unfold Rdiv. ring.
Qed.

Lemma gain_nonneg (mask : list bool) (y : list Z) :
  length mask = length y ->
  select mask y <> [] -> select (invert mask) y <> [] ->
  (0 <= gain y (select mask y) (select (invert mask) y))%R.
Proof.
  intros Hlen Hl Hr.
  set (yl := select mask y) in *. set (yr := select (invert mask) y) in *.
  assert (length yl + length yr = length y) as Hn
    by (apply select_invert_length; assumption).
  assert (0 < length yl) as Hnl by (destruct yl; [contradiction|simpl; lia]).
  assert (0 < length yr) as Hnr by (destruct yr; [contradiction|simpl; lia]).
  unfold gain. exact_arithmetic.
  rewrite (entropy_sum y).
  unfold yl at 2. rewrite (entropy_select_sum mask y). fold yl.
  unfold yr at 2. rewrite (entropy_select_sum (invert mask) y). fold yr.
  set (wl := (INR (length yl) / INR (length y))%R).
  set (wr := (INR (length yr) / INR (length y))%R).
  set (U := np_unique y).
  replace (- Rsum (map (fun c => proportion y c * log2 (proportion y c)) U)
           - (wl * - Rsum (map (fun c => proportion yl c * log2 (proportion yl c)) U)
              + wr * - Rsum (map (fun c => proportion yr c * log2 (proportion yr c)) U)))%R
    with (Rsum (map (fun c =>
                       wl * (proportion yl c * log2 (proportion yl c))
                       + wr * (proportion yr c * log2 (proportion yr c))
                       - proportion y c * log2 (proportion y c)) U))%R.
  - apply Rsum_nonneg, Forall_forall. intros x Hx.
    apply in_map_iff in Hx. destruct Hx as (c & <- & _).
    rewrite !proportion_count.
    pose proof (count_select_invert c mask y Hlen) as Hc. fold yl yr in Hc.
    unfold wl, wr. rewrite <- Hc, <- Hn.
    apply class_gain_nonneg; assumption.
  - rewrite (Rsum_map_lin wl wr
               (fun c => proportion yl c * log2 (proportion yl c))%R
               (fun c => proportion yr c * log2 (proportion yr c))%R
               (fun c => proportion y c * log2 (proportion y c))%R).
    ring.
Qed.

(** ** Split search *)

Lemma foldM_app {A B : Type} (step : A -> B -> result A) (l1 l2 : list B) (a : A) :
  foldM step (l1 ++ l2) a = (a' <- foldM step l1 a ;; foldM step l2 a').
Proof.
  revert a; induction l1 as [|b l1 IH]; intros a; simpl; [reflexivity|].
  destruct (step a b); simpl; auto.
Qed.

Lemma foldM_map {A B C : Type} (step : A -> C -> result A) (f : B -> C)
    (l : list B) (a : A) :
  foldM step (map f l) a = foldM (fun a b => step a (f b)) l a.
Proof.
  revert a; induction l as [|b l IH]; intros a; simpl; [reflexivity|].
  destruct (step a (f b)); simpl; auto.
Qed.

Lemma foldM_flat_map {A B C : Type} (step : A -> C -> result A)
    (f : B -> list C) (l : list B) (a : A) :
  foldM step (flat_map f l) a = foldM (fun a b => foldM step (f b) a) l a.
Proof.
  revert a; induction l as [|b l IH]; intros a; simpl; [reflexivity|].
  rewrite foldM_app. destruct (foldM step (f b) a); simpl; auto.
Qed.

Lemma foldM_ext {A B : Type} (f g : A -> B -> result A) (l : list B) (a : A) :
  (forall a b, In b l -> f a b = g a b) -> foldM f l a = foldM g l a.
Proof.
  revert a; induction l as [|b l IH]; intros a H; simpl; [reflexivity|].
  rewrite (H a b) by now left.
  destruct (g a b); simpl; auto. apply IH. intros; apply H; now right.
Qed.

Lemma foldM_pure {A B : Type} (f : A -> B -> result A) (g : A -> B -> A)
    (l : list B) (a : A) :
  (forall a b, In b l -> f a b = Ok (g a b)) ->
  foldM f l a = Ok (fold_left g l a).
Proof.
  revert a; induction l as [|b l IH]; intros a H; simpl; [reflexivity|].
  rewrite (H a b) by now left. simpl. apply IH. intros; apply H; now right.
Qed.

Lemma candidates_In (X : ndarray) (j : nat) (t : Q) :
  In (j, t) (candidates X) <-> j < ncols X /\ In t (np_uniqueQ (column X j)).
Proof.
  unfold candidates. rewrite in_flat_map. split.
  - intros (j' & Hj' & Hin). apply in_map_iff in Hin.
    destruct Hin as (t' & [= <- <-] & Ht). apply in_seq in Hj'. split; [lia|auto].
  - intros [Hj Ht]. exists j. split; [apply in_seq; lia|].
    apply in_map_iff. eauto.
Qed.

Lemma candidates_cover (X : ndarray) (j : nat) (v : Q) :
  j < ncols X -> In v (column X j) ->
  exists t, In (j, t) (candidates X) /\ (v == t)%Q.
Proof.
  intros Hj Hv. destruct (np_uniqueQ_covers v _ Hv) as (t & Ht & E).
  exists t. split; [|exact E]. apply candidates_In. auto.
Qed.

Lemma candidates_no_rows (X : ndarray) : rows X = [] -> candidates X = [].
Proof.
  intros H. unfold candidates, column. rewrite H. simpl.
  induction (seq 0 (ncols X)); simpl; auto.
Qed.

Lemma candidates_no_columns (X : ndarray) : ncols X = 0 -> candidates X = [].
Proof. intros H. unfold candidates. now rewrite H. Qed.

Lemma best_split_candidates {A : Arithmetic} (X : ndarray) (y : list Z) :
  best_split X y
  = (st <- foldM (try_candidate X y) (candidates X) (of_int (-1), None) ;;
     Ok (snd st)).
Proof.
  unfold best_split, shape, candidates. f_equal.
  rewrite foldM_flat_map. apply foldM_ext. intros st j _.
  unfold try_feature. now rewrite foldM_map.
Qed.

Lemma best_split_no_candidates {A : Arithmetic} (X : ndarray) (y : list Z) :
  candidates X = [] -> best_split X y = Ok None.
Proof. intros H. rewrite best_split_candidates, H. reflexivity. Qed.

(** With a label count that differs from the row count, the first
    [y[left_mask]] of the search raises. *)
Lemma best_split_mismatch {A : Arithmetic} (X : ndarray) (y : list Z) :
  length y <> length (rows X) -> candidates X <> [] ->
  best_split X y = Raise IndexError.
Proof.
  intros Hlen Hc. rewrite best_split_candidates.
  destruct (candidates X) as [|c cs]; [contradiction|]. simpl.
  unfold try_candidate at 1. unfold try_threshold, bool_index.
  rewrite le_mask_length, column_length.
  destruct (Nat.eqb_spec (length (rows X)) (length y)); [congruence|].
  reflexivity.
Qed.

Lemma try_candidate_step {A : Arithmetic} (X : ndarray) (y : list Z) st c :
  length y = length (rows X) ->
  try_candidate X y st c = Ok (step_candidate X y st c).
Proof.
  intros Hlen. unfold try_candidate, try_threshold, step_candidate.
  unfold candidate_gain, left_labels, right_labels.
  set (lm := le_mask (column X (fst c)) (snd c)).
  assert (length lm = length y) as Hlm
    by (unfold lm; rewrite le_mask_length, column_length; auto).
  rewrite (bool_index_ok y lm Hlm). simpl.
  destruct (select lm y) as [|vl yl] eqn:El; simpl; [reflexivity|].
  rewrite bool_index_ok by (rewrite invert_length; assumption). simpl.
  destruct (select (invert lm) y) as [|vr yr] eqn:Er; simpl; [reflexivity|].
  rewrite information_gain_ok; simpl.
  - destruct (fgt _ _); reflexivity.
  - intros ->. destruct lm; discriminate.
Qed.

Lemma best_split_fold {A : Arithmetic} (X : ndarray) (y : list Z) :
  length y = length (rows X) ->
  best_split X y
  = Ok (snd (fold_left (step_candidate X y) (candidates X)
              (of_int (-1), None))).
Proof.
  intros Hlen. rewrite best_split_candidates.
  rewrite (foldM_pure _ (step_candidate X y)); [reflexivity|].
  intros st c _. now apply try_candidate_step.
Qed.

(** Whatever the arithmetic, a split that an iteration leaves in the loop
    state was there before, or is the candidate of that iteration, which was
    evaluated, with the gain computed for it. *)
Lemma step_candidate_found {A : Arithmetic} (X : ndarray) (y : list Z) st c s :
  snd (step_candidate X y st c) = Some s ->
  snd st = Some s \/
  (viable X y c /\ (feature_index s, threshold s) = c /\
   info_gain s = candidate_gain X y c).
Proof.
  unfold step_candidate, viable.
  destruct (left_labels X y c) as [|vl yl]; [auto|].
  destruct (right_labels X y c) as [|vr yr]; [auto|].
  destruct (fgt _ _); [|auto].
  simpl. intros [= <-]. right. simpl.
  split; [split; discriminate|]. split; [now destruct c|reflexivity].
Qed.

Lemma fold_candidates_found {A : Arithmetic} (X : ndarray) (y : list Z) todo :
  forall st s,
    snd (fold_left (step_candidate X y) todo st) = Some s ->
    snd st = Some s \/
    exists c, In c todo /\ viable X y c /\
              (feature_index s, threshold s) = c /\
              info_gain s = candidate_gain X y c.
Proof.
  induction todo as [|c todo IH]; intros st s H; simpl in H; [auto|].
  destruct (IH _ _ H) as [H'|(c' & Hc' & Hrest)].
  - destruct (step_candidate_found X y st c s H') as [?|?]; [auto|].
    right. exists c. split; [now left|assumption].
  - right. exists c'. split; [now right|assumption].
Qed.

(** What a successful split search guarantees on data with as many labels
    as rows, whatever the arithmetic. *)
Lemma best_split_Some {A : Arithmetic} (X : ndarray) (y : list Z)
    (best : split) :
  length y = length (rows X) ->
  best_split X y = Ok (Some best) ->
  let c := (feature_index best, threshold best) in
  viable X y c /\ info_gain best = candidate_gain X y c /\
  exists before after, candidates X = before ++ c :: after.
Proof.
  intros Hlen E c. rewrite (best_split_fold X y Hlen) in E.
  injection E as E.
  destruct (fold_candidates_found X y _ _ _ E)
    as [H|(c' & Hc' & Hv & Ec & Hg)]; [discriminate|].
  fold c in Ec. subst c'.
  split; [exact Hv|]. split; [exact Hg|].
  now apply in_split.
Qed.

Lemma viable_gain_nonneg (X : ndarray) (y : list Z) (c : nat * Q) :
  length y = length (rows X) -> viable X y c ->
  (0 <= candidate_gain X y c)%R.
Proof.
  intros Hlen [Hl Hr]. apply gain_nonneg; auto.
  rewrite le_mask_length, column_length. auto.
Qed.

Lemma step_candidate_skip {A : Arithmetic} (X : ndarray) (y : list Z) st c :
  left_labels X y c = [] \/ right_labels X y c = [] ->
  step_candidate X y st c = st.
Proof.
  unfold step_candidate. intros [-> | ->]; [reflexivity|].
  destruct (left_labels X y c); reflexivity.
Qed.

Lemma step_candidate_take (X : ndarray) (y : list Z) st c :
  left_labels X y c <> [] -> right_labels X y c <> [] ->
  (candidate_gain X y c > fst st)%R ->
  step_candidate X y st c
  = (candidate_gain X y c,
     Some {| feature_index := fst c; threshold := snd c;
             info_gain := candidate_gain X y c |}).
Proof.
  unfold step_candidate. intros Hl Hr Hg.
  destruct (left_labels X y c); [contradiction|].
  destruct (right_labels X y c); [contradiction|].
  exact_arithmetic.
  destruct (Rgt_dec _ _); [reflexivity|contradiction].
Qed.

Lemma step_candidate_keep (X : ndarray) (y : list Z) st c :
  (candidate_gain X y c <= fst st)%R ->
  step_candidate X y st c = st.
Proof.
  unfold step_candidate. intros Hg.
  destruct (left_labels X y c); [reflexivity|].
  destruct (right_labels X y c); [reflexivity|].
  exact_arithmetic.
  destruct (Rgt_dec _ _); [lra|reflexivity].
Qed.

Lemma step_candidate_inv (X : ndarray) (y : list Z) seen st c :
  length y = length (rows X) ->
  search_inv X y seen st ->
  search_inv X y (seen ++ [c]) (step_candidate X y st c).
Proof.
  intros Hlen Hinv.
  assert (~ viable X y c -> step_candidate X y st c = st) as Hskip.
  { unfold viable, step_candidate. intros Hnv.
    destruct (left_labels X y c); [reflexivity|].
    destruct (right_labels X y c); [reflexivity|].
    exfalso. apply Hnv. split; discriminate. }
  assert (viable X y c ->
          step_candidate X y st c
          = if fgt (candidate_gain X y c) (fst st) then
              (candidate_gain X y c,
               Some {| feature_index := fst c; threshold := snd c;
                       info_gain := candidate_gain X y c |})
            else st) as Heval.
  { unfold viable, step_candidate. intros [Hl Hr].
    destruct (left_labels X y c); [contradiction|].
    destruct (right_labels X y c); [contradiction|reflexivity]. }
  destruct (Classical_Prop.classic (viable X y c)) as [Hv|Hnv].
  - rewrite (Heval Hv). exact_arithmetic.
    pose proof (viable_gain_nonneg X y c Hlen Hv) as Hpos.
    unfold search_inv in Hinv.
    destruct st as [bg [s|]]; simpl in *.
    + destruct Hinv as (-> & Eg & Hvs & before & after & -> & Hb & Ha).
      destruct (Rgt_dec (candidate_gain X y c) (info_gain s)) as [Hgt|Hle].
      * unfold search_inv; simpl. destruct c as [j t]; simpl.
        refine (conj eq_refl (conj eq_refl (conj Hv _))).
        exists (before ++ (feature_index s, threshold s) :: after), [].
        refine (conj eq_refl (conj _ _)); [|intros c' []].
        intros c' Hc' Hvc'. apply in_app_iff in Hc'.
        destruct Hc' as [Hc'|[<-|Hc']].
        -- specialize (Hb c' Hc' Hvc'). lra.
        -- rewrite <- Eg. lra.
        -- specialize (Ha c' Hc' Hvc'). lra.
      * unfold search_inv; simpl.
        refine (conj eq_refl (conj Eg (conj Hvs _))).
        exists before, (after ++ [c]).
        refine (conj _ (conj Hb _)).
        -- now rewrite <- app_assoc.
        -- intros c' Hc' Hvc'. apply in_app_iff in Hc'.
           destruct Hc' as [Hc'|[<-|[]]]; auto. lra.
    + destruct Hinv as (-> & Hnone).
      destruct (Rgt_dec (candidate_gain X y c) (-1)) as [_|Hle]; [|lra].
      unfold search_inv; simpl. destruct c as [j t]; simpl.
      refine (conj eq_refl (conj eq_refl (conj Hv _))).
      exists seen, [].
      refine (conj eq_refl (conj _ _)); [|intros c' []].
      intros c' Hc' Hvc'. destruct (Hnone c' Hc' Hvc').
  - rewrite (Hskip Hnv).
    unfold search_inv in *. destruct (snd st) as [s|].
    + destruct Hinv as (E1 & E2 & Hvs & before & after & -> & Hb & Ha).
      refine (conj E1 (conj E2 (conj Hvs _))).
      exists before, (after ++ [c]).
      refine (conj _ (conj Hb _)).
      * now rewrite <- app_assoc.
      * intros c' Hc' Hvc'. apply in_app_iff in Hc'.
        destruct Hc' as [Hc'|[<-|[]]]; auto. contradiction.
    + destruct Hinv as (E1 & Hnone). split; auto.
      intros c' Hc'. apply in_app_iff in Hc'.
      destruct Hc' as [Hc'|[<-|[]]]; auto.
Qed.

Lemma fold_candidates_inv (X : ndarray) (y : list Z) todo seen st :
  length y = length (rows X) ->
  search_inv X y seen st ->
  search_inv X y (seen ++ todo) (fold_left (step_candidate X y) todo st).
Proof.
  intros Hlen. revert seen st.
  induction todo as [|c todo IH]; intros seen st Hinv; simpl.
  - now rewrite app_nil_r.
  - replace (seen ++ c :: todo) with ((seen ++ [c]) ++ todo)
      by (rewrite <- app_assoc; reflexivity).
    apply IH. now apply step_candidate_inv.
Qed.

Lemma best_split_inv (X : ndarray) (y : list Z) :
  length y = length (rows X) ->
  exists st, best_split X y = Ok (snd st) /\ search_inv X y (candidates X) st.
Proof.
  intros Hlen. eexists; split; [now apply best_split_fold|].
  apply (fold_candidates_inv X y (candidates X) [] _ Hlen).
  split; simpl; [reflexivity|]. intros c [].
Qed.

Lemma best_split_None (X : ndarray) (y : list Z) :
  length y = length (rows X) ->
  (best_split X y = Ok None <-> forall c, In c (candidates X) -> ~ viable X y c).
Proof.
  intros Hlen.
  destruct (best_split_inv X y Hlen) as (st & E & Hinv).
  unfold search_inv in Hinv. rewrite E. split.
  - intros [= E']. rewrite E' in Hinv. apply Hinv.
  - intros Hnone. destruct (snd st) as [s|]; [|reflexivity].
    destruct Hinv as (_ & _ & Hv & before & after & Ec & _).
    exfalso. apply (Hnone (feature_index s, threshold s)); [|exact Hv].
    rewrite Ec. apply in_app_iff. right. now left.
Qed.

(** ** Comparison of binary64 floats

    [<] and [<=] on floats, from the specification of the comparison:
    transitivity, and totality away from NaN. *)

Ltac compare_cases :=
  repeat match goal with
    | H : context [Pos.compare_cont Eq ?a ?b] |- _ =>
        change (Pos.compare_cont Eq a b) with (Pos.compare a b) in H
    | |- context [Pos.compare_cont Eq ?a ?b] =>
        change (Pos.compare_cont Eq a b) with (Pos.compare a b)
    end;
  repeat match goal with
    | H : context [Z.compare ?a ?b] |- _ => destruct (Z.compare_spec a b)
    | H : context [Pos.compare ?a ?b] |- _ => destruct (Pos.compare_spec a b)
    | |- context [Z.compare ?a ?b] => destruct (Z.compare_spec a b)
    | |- context [Pos.compare ?a ?b] => destruct (Pos.compare_spec a b)
    end;
  simpl in *; try discriminate; try reflexivity; try congruence; try lia.

Lemma SFcompare_trans (c : comparison) (x y z : SpecFloat.spec_float) :
  SpecFloat.SFcompare x y = Some Lt -> SpecFloat.SFcompare y z = Some c ->
  c <> Gt -> SpecFloat.SFcompare x z = Some Lt.
Proof.
  destruct x as [sx|sx| |sx mx ex], y as [sy|sy| |sy my ey],
    z as [sz|sz| |sz mz ez]; simpl;
    try destruct sx; try destruct sy; try destruct sz; simpl;
    intros H1 H2 Hc; try discriminate; try reflexivity;
    try (injection H2 as <-; congruence);
    injection H1 as H1; injection H2 as H2; f_equal; subst c; compare_cases.
Qed.

Lemma SFcompare_antisym (x y : SpecFloat.spec_float) :
  SpecFloat.SFcompare y x = option_map CompOpp (SpecFloat.SFcompare x y).
Proof.
  destruct x as [sx|sx| |sx mx ex], y as [sy|sy| |sy my ey]; simpl;
    try destruct sx; try destruct sy; simpl; try reflexivity;
    f_equal; compare_cases.
Qed.

Lemma SFcompare_None (x y : SpecFloat.spec_float) :
  SpecFloat.SFcompare x y = None ->
  SpecFloat.SFcompare x x = None \/ SpecFloat.SFcompare y y = None.
Proof.
  destruct x as [sx|sx| |sx mx ex], y as [sy|sy| |sy my ey]; simpl;
    try discriminate; auto.
Qed.

Lemma float_ltb_trans (a b c : PrimFloat.float) :
  (a <? b)%float = true -> (b <? c)%float = true -> (a <? c)%float = true.
Proof.
  rewrite !ltb_spec. unfold SpecFloat.SFltb. intros H1 H2.
  destruct (SpecFloat.SFcompare (Prim2SF a) (Prim2SF b)) as [[| |]|] eqn:E1;
    try discriminate.
  destruct (SpecFloat.SFcompare (Prim2SF b) (Prim2SF c)) as [[| |]|] eqn:E2;
    try discriminate.
  now rewrite (SFcompare_trans Lt _ _ _ E1 E2).
Qed.

Lemma float_ltb_leb_trans (a b c : PrimFloat.float) :
  (a <? b)%float = true -> (b <=? c)%float = true -> (a <? c)%float = true.
Proof.
  rewrite !ltb_spec, leb_spec. unfold SpecFloat.SFltb, SpecFloat.SFleb.
  intros H1 H2.
  destruct (SpecFloat.SFcompare (Prim2SF a) (Prim2SF b)) as [[| |]|] eqn:E1;
    try discriminate.
  destruct (SpecFloat.SFcompare (Prim2SF b) (Prim2SF c)) as [[| |]|] eqn:E2;
    try discriminate.
  - now rewrite (SFcompare_trans Eq _ _ _ E1 E2).
  - now rewrite (SFcompare_trans Lt _ _ _ E1 E2).
Qed.

Lemma float_ltb_leb (a b : PrimFloat.float) :
  (a <? b)%float = true -> (a <=? b)%float = true.
Proof.
  rewrite ltb_spec, leb_spec. unfold SpecFloat.SFltb, SpecFloat.SFleb.
  now destruct (SpecFloat.SFcompare _ _) as [[| |]|].
Qed.

Lemma float_ltb_not_leb (a b : PrimFloat.float) :
  (a <? b)%float = true -> (b <=? a)%float = false.
Proof.
  rewrite ltb_spec, leb_spec. unfold SpecFloat.SFltb, SpecFloat.SFleb.
  rewrite (SFcompare_antisym (Prim2SF a) (Prim2SF b)).
  now destruct (SpecFloat.SFcompare _ _) as [[| |]|].
Qed.

Lemma is_nan_compare (a : PrimFloat.float) :
  PrimFloat.is_nan a = false ->
  SpecFloat.SFcompare (Prim2SF a) (Prim2SF a) <> None.
Proof.
  unfold PrimFloat.is_nan. rewrite eqb_spec. unfold SpecFloat.SFeqb.
  destruct (SpecFloat.SFcompare _ _); [discriminate|]. discriminate.
Qed.

(** Two floats that are not NaN are comparable. *)
Lemma float_leb_false_ltb (a b : PrimFloat.float) :
  PrimFloat.is_nan a = false -> PrimFloat.is_nan b = false ->
  (a <=? b)%float = false -> (b <? a)%float = true.
Proof.
  intros Ha Hb. apply is_nan_compare in Ha, Hb.
  rewrite ltb_spec, leb_spec. unfold SpecFloat.SFltb, SpecFloat.SFleb.
  rewrite (SFcompare_antisym (Prim2SF a) (Prim2SF b)).
  destruct (SpecFloat.SFcompare (Prim2SF a) (Prim2SF b)) as [[| |]|] eqn:E;
    simpl; try discriminate; try reflexivity.
  destruct (SFcompare_None _ _ E); contradiction.
Qed.

Lemma float_ltb_false_leb (a b : PrimFloat.float) :
  PrimFloat.is_nan a = false -> PrimFloat.is_nan b = false ->
  (a <? b)%float = false -> (b <=? a)%float = true.
Proof.
  intros Ha Hb. apply is_nan_compare in Ha, Hb.
  rewrite ltb_spec, leb_spec. unfold SpecFloat.SFltb, SpecFloat.SFleb.
  rewrite (SFcompare_antisym (Prim2SF a) (Prim2SF b)).
  destruct (SpecFloat.SFcompare (Prim2SF a) (Prim2SF b)) as [[| |]|] eqn:E;
    simpl; try discriminate; try reflexivity.
  destruct (SFcompare_None _ _ E); contradiction.
Qed.

Lemma float_ltb_is_nan (a b : PrimFloat.float) :
  (a <? b)%float = true -> PrimFloat.is_nan b = false.
Proof.
  unfold PrimFloat.is_nan. rewrite ltb_spec, eqb_spec.
  unfold SpecFloat.SFltb, SpecFloat.SFeqb.
  destruct (Prim2SF a) as [sx|sx| |sx mx ex], (Prim2SF b) as [sy|sy| |sy my ey];
    simpl; try discriminate; try reflexivity;
    try destruct sy; intros _; simpl; try reflexivity;
    rewrite Z.compare_refl; change (Pos.compare_cont Eq my my) with (Pos.compare my my);
    now rewrite Pos.compare_refl.
Qed.

(** ** The candidates in enumeration order *)

Lemma StronglySorted_app {T : Type} (R : T -> T -> Prop) (l1 l2 : list T) :
  StronglySorted R l1 -> StronglySorted R l2 ->
  (forall a b, In a l1 -> In b l2 -> R a b) ->
  StronglySorted R (l1 ++ l2).
Proof.
  induction 1 as [|a l1 S1 IH Ha]; intros S2 H; simpl; [assumption|].
  constructor.
  - apply IH; [assumption|]. intros; apply H; [now right|assumption].
  - apply Forall_app. split; [assumption|].
    apply Forall_forall. intros b Hb. apply H; [now left|assumption].
Qed.

Lemma StronglySorted_split {T : Type} (R : T -> T -> Prop) (l1 l2 : list T) (c : T) :
  StronglySorted R (l1 ++ c :: l2) ->
  (forall a, In a l1 -> R a c) /\ (forall b, In b l2 -> R c b).
Proof.
  induction l1 as [|a l1 IH]; simpl; intros S.
  - inversion S as [|? ? _ Hc]; subst. split; [intros a []|].
    now apply Forall_forall.
  - inversion S as [|? ? S' Ha]; subst. destruct (IH S') as [H1 H2].
    split; [|assumption]. intros a' [<-|Ha'].
    + rewrite Forall_forall in Ha. apply Ha. apply in_app_iff. right. now left.
    + now apply H1.
Qed.

Lemma candidates_sorted (X : ndarray) :
  StronglySorted enumerated_before (candidates X).
Proof.
  unfold candidates.
  assert (forall len start,
             StronglySorted enumerated_before
               (flat_map (fun j => map (pair j) (np_uniqueQ (column X j)))
                  (seq start len)) /\
             forall c, In c (flat_map
                               (fun j => map (pair j) (np_uniqueQ (column X j)))
                               (seq start len)) -> start <= fst c) as H.
  { induction len as [|len IH]; intros start; simpl.
    - split; [constructor|intros c []].
    - destruct (IH (S start)) as [S2 Hge]. split.
      + apply StronglySorted_app; [|assumption|].
        * pose proof (np_uniqueQ_sorted (column X start)) as Hs.
          apply Sorted_StronglySorted in Hs;
            [|intros a b c; apply Qlt_trans].
          induction Hs as [|t ts Hs IHs Ht]; simpl; constructor; [assumption|].
          apply Forall_forall. intros c Hc. apply in_map_iff in Hc.
          destruct Hc as (t' & <- & Ht'). right. simpl. split; [reflexivity|].
          rewrite Forall_forall in Ht. now apply Ht.
        * intros a b Ha Hb. apply in_map_iff in Ha.
          destruct Ha as (t & <- & _). left. simpl.
          specialize (Hge b Hb). lia.
      + intros c Hc. apply in_app_iff in Hc. destruct Hc as [Hc|Hc].
        * apply in_map_iff in Hc. destruct Hc as (t & <- & _). simpl. lia.
        * specialize (Hge c Hc). lia. }
  apply H.
Qed.

Lemma enumerated_before_asym (c c' : nat * Q) :
  enumerated_before c c' -> ~ enumerated_before c' c.
Proof.
  unfold enumerated_before. intros [H|[H1 H2]] [H'|[H1' H2']]; try lia.
  apply (Qlt_irrefl (snd c)). eapply Qlt_trans; eauto.
Qed.

(** The candidates enumerated before a candidate are those that precede
    it in the list. *)
Lemma candidates_before (X : ndarray) (before after : list (nat * Q)) c c' :
  candidates X = before ++ c :: after ->
  In c' (candidates X) -> enumerated_before c' c -> In c' before.
Proof.
  intros E Hin Hb. pose proof (candidates_sorted X) as S. rewrite E in S, Hin.
  destruct (StronglySorted_split _ _ _ _ S) as [_ Hafter].
  apply in_app_iff in Hin. destruct Hin as [?|[<-|Hin]]; [assumption| |].
  - exfalso. exact (enumerated_before_asym _ _ Hb Hb).
  - exfalso. exact (enumerated_before_asym _ _ Hb (Hafter _ Hin)).
Qed.

(** ** Split search in binary64 *)

Section Binary64Search.
Variable log2_impl : PrimFloat.float -> PrimFloat.float.
#[local] Abbreviation code := (binary64 log2_impl).

Lemma step_candidate_inv_binary64 (X : ndarray) (y : list Z) seen st c :
  search_inv_binary64 log2_impl X y seen st ->
  search_inv_binary64 log2_impl X y (seen ++ [c])
    (step_candidate (A := code) X y st c).
Proof.
  intros Hinv.
  assert (~ viable X y c -> step_candidate (A := code) X y st c = st) as Hskip.
  { unfold viable, step_candidate. intros Hnv.
    destruct (left_labels X y c); [reflexivity|].
    destruct (right_labels X y c); [reflexivity|].
    exfalso. apply Hnv. split; discriminate. }
  assert (viable X y c ->
          step_candidate (A := code) X y st c
          = if (fst st <? candidate_gain (A := code) X y c)%float then
              (candidate_gain (A := code) X y c,
               Some {| feature_index := fst c; threshold := snd c;
                       info_gain := candidate_gain (A := code) X y c |})
            else st) as Heval.
  { unfold viable, step_candidate. intros [Hl Hr].
    destruct (left_labels X y c); [contradiction|].
    destruct (right_labels X y c); [contradiction|reflexivity]. }
  destruct (Classical_Prop.classic (viable X y c)) as [Hv|Hnv].
  - rewrite (Heval Hv).
    set (h := candidate_gain (A := code) X y c) in *.
    unfold search_inv_binary64 in Hinv.
    destruct st as [bg [s|]]; simpl in Hinv; simpl fst.
    + destruct Hinv as (-> & Eg & Hvs & Hm1 & before & after & -> & Hb & Ha).
      destruct (info_gain s <? h)%float eqn:Hcmp.
      * unfold search_inv_binary64; simpl. destruct c as [j t]; simpl.
        refine (conj eq_refl (conj eq_refl (conj Hv (conj _ _)))).
        { exact (float_ltb_trans _ _ _ Hm1 Hcmp). }
        exists (before ++ (feature_index s, threshold s) :: after), [].
        refine (conj eq_refl (conj _ _)); [|intros c' []].
        intros c' Hc' Hvc'.
        destruct (h <=? candidate_gain (A := code) X y c')%float eqn:Hle;
          [exfalso|reflexivity].
        pose proof (float_ltb_leb_trans _ _ _ Hcmp Hle) as Hlt.
        apply in_app_iff in Hc'. destruct Hc' as [Hc'|[<-|Hc']].
        -- specialize (Hb c' Hc' Hvc').
           rewrite (float_ltb_leb _ _ Hlt) in Hb. discriminate.
        -- rewrite <- Eg in Hle. rewrite (float_ltb_not_leb _ _ Hcmp) in Hle.
           discriminate.
        -- specialize (Ha c' Hc' Hvc'). rewrite Hlt in Ha. discriminate.
      * unfold search_inv_binary64; simpl.
        refine (conj eq_refl (conj Eg (conj Hvs (conj Hm1 _)))).
        exists before, (after ++ [c]).
        refine (conj _ (conj Hb _)).
        -- now rewrite <- app_assoc.
        -- intros c' Hc' Hvc'. apply in_app_iff in Hc'.
           destruct Hc' as [Hc'|[<-|[]]]; auto.
    + destruct Hinv as (-> & Hnone).
      destruct (-1 <? h)%float eqn:Hcmp.
      * unfold search_inv_binary64; simpl. destruct c as [j t]; simpl.
        refine (conj eq_refl (conj eq_refl (conj Hv (conj Hcmp _)))).
        exists seen, [].
        refine (conj eq_refl (conj _ _)); [|intros c' []].
        intros c' Hc' Hvc'.
        destruct (h <=? candidate_gain (A := code) X y c')%float eqn:Hle;
          [exfalso|reflexivity].
        specialize (Hnone c' Hc' Hvc').
        rewrite (float_ltb_leb_trans _ _ _ Hcmp Hle) in Hnone. discriminate.
      * unfold search_inv_binary64; simpl. split; [reflexivity|].
        intros c' Hc' Hvc'. apply in_app_iff in Hc'.
        destruct Hc' as [Hc'|[<-|[]]]; auto.
  - rewrite (Hskip Hnv).
    unfold search_inv_binary64 in *. destruct (snd st) as [s|].
    + destruct Hinv as (E1 & E2 & Hvs & Hm1 & before & after & -> & Hb & Ha).
      refine (conj E1 (conj E2 (conj Hvs (conj Hm1 _)))).
      exists before, (after ++ [c]).
      refine (conj _ (conj Hb _)).
      * now rewrite <- app_assoc.
      * intros c' Hc' Hvc'. apply in_app_iff in Hc'.
        destruct Hc' as [Hc'|[<-|[]]]; auto. contradiction.
    + destruct Hinv as (E1 & Hnone). split; auto.
      intros c' Hc' Hvc'. apply in_app_iff in Hc'.
      destruct Hc' as [Hc'|[<-|[]]]; auto. contradiction.
Qed.

Lemma fold_candidates_inv_binary64 (X : ndarray) (y : list Z) todo seen st :
  search_inv_binary64 log2_impl X y seen st ->
  search_inv_binary64 log2_impl X y (seen ++ todo)
    (fold_left (step_candidate (A := code) X y) todo st).
Proof.
  revert seen st.
  induction todo as [|c todo IH]; intros seen st Hinv; simpl.
  - now rewrite app_nil_r.
  - replace (seen ++ c :: todo) with ((seen ++ [c]) ++ todo)
      by (rewrite <- app_assoc; reflexivity).
    apply IH. now apply step_candidate_inv_binary64.
Qed.

Lemma best_split_inv_binary64 (X : ndarray) (y : list Z) :
  length y = length (rows X) ->
  exists st, best_split (A := code) X y = Ok (snd st) /\
             search_inv_binary64 log2_impl X y (candidates X) st.
Proof.
  intros Hlen.
  exists (fold_left (step_candidate (A := code) X y) (candidates X)
            (of_int (-1), None)).
  split; [exact (best_split_fold (A := code) X y Hlen)|].
  apply (fold_candidates_inv_binary64 X y (candidates X) []).
  split; simpl; [reflexivity|]. intros c [].
Qed.
End Binary64Search.

(** Both sides of a chosen split are non-empty and strictly smaller than
    the subset that was split. *)
Lemma split_sizes {A : Arithmetic} (X : ndarray) (y : list Z) (best : split) :
  length y = length (rows X) ->
  best_split X y = Ok (Some best) ->
  let yl := select (split_mask X best) y in
  let yr := select (invert (split_mask X best)) y in
  0 < length yl < length y /\ 0 < length yr < length y.
Proof.
  intros Hlen E yl yr.
  destruct (best_split_Some X y best Hlen E) as ([Hl Hr] & _).
  unfold left_labels, right_labels in Hl, Hr. simpl in Hl, Hr.
  fold (split_mask X best) in Hl, Hr. fold yl in Hl. fold yr in Hr.
  pose proof (select_invert_length (split_mask X best) y) as Hsum.
  rewrite split_mask_length in Hsum. specialize (Hsum (eq_sym Hlen)).
  fold yl yr in Hsum.
  destruct yl; [contradiction|]. destruct yr; [contradiction|].
  simpl in *. lia.
Qed.

(** The children of a call have as many labels as rows, are non-empty and strictly smaller. *)
Lemma child_sizes {A : Arithmetic}
    (X : ndarray) (y : list Z) (best : split) X' y' (side : bool) :
  length y = length (rows X) ->
  best_split X y = Ok (Some best) ->
  subset X y (if side then invert (split_mask X best) else split_mask X best)
  = Ok (X', y') ->
  length y' = length (rows X') /\ 0 < length y' < length y.
Proof.
  intros Hlen Hbest E.
  destruct (subset_sizes _ _ _ _ _ Hlen E) as (Hl & _ & ->).
  split; [assumption|].
  pose proof (split_sizes X y best Hlen Hbest) as [H1 H2].
  destruct side; assumption.
Qed.

(** ** Leaves: np.argmax(np.bincount(y)) *)

Lemma argmax_from_spec (a pre : list nat) (i best_i best_v : nat) :
  i = length pre -> best_i < i -> nth best_i pre 0 = best_v ->
  (forall j, j < i -> nth j pre 0 <= best_v) ->
  (forall j, j < best_i -> nth j pre 0 < best_v) ->
  let r := argmax_from a i best_i best_v in
  r < length (pre ++ a) /\
  (forall j, j < length (pre ++ a) -> nth j (pre ++ a) 0 <= nth r (pre ++ a) 0) /\
  (forall j, j < r -> nth j (pre ++ a) 0 < nth r (pre ++ a) 0).
Proof.
  revert pre i best_i best_v.
  induction a as [|v a IH]; intros pre i bi bv Hi Hbi Hnth Hmax Hfirst; simpl.
  - rewrite app_nil_r. subst i. rewrite Hnth. repeat split; auto.
  - replace (pre ++ v :: a) with ((pre ++ [v]) ++ a)
      by (rewrite <- app_assoc; reflexivity).
    assert (length (pre ++ [v]) = S i) as Hlen
      by (rewrite length_app; simpl; lia).
    assert (forall j, j < i -> nth j (pre ++ [v]) 0 = nth j pre 0) as Hold
      by (intros j Hj; apply app_nth1; lia).
    assert (nth i (pre ++ [v]) 0 = v) as Hnew.
    { rewrite app_nth2 by lia. subst i. now rewrite Nat.sub_diag. }
    destruct (Nat.ltb_spec bv v) as [Hlt|Hge].
    + apply IH; auto.
      * intros j Hj. destruct (Nat.eq_dec j i) as [->|Hne]; [lia|].
        rewrite Hold by lia. specialize (Hmax j). lia.
      * intros j Hj. rewrite Hold by lia. specialize (Hmax j). lia.
    + apply IH; auto.
      * rewrite Hold by lia. assumption.
      * intros j Hj. destruct (Nat.eq_dec j i) as [->|Hne]; [lia|].
        rewrite Hold by lia. apply Hmax. lia.
      * intros j Hj. rewrite Hold by lia. now apply Hfirst.
Qed.

Lemma argmax_spec (a : list nat) :
  a <> [] ->
  exists r, argmax a = Ok r /\ r < length a /\
    (forall j, j < length a -> nth j a 0 <= nth r a 0) /\
    (forall j, j < r -> nth j a 0 < nth r a 0).
Proof.
  destruct a as [|v a]; [contradiction|]. intros _.
  eexists; split; [reflexivity|].
  apply (argmax_from_spec a [v] 1 0 v); simpl; auto.
  - intros j Hj. assert (j = 0) as -> by lia. auto.
  - intros j Hj. lia.
Qed.

Lemma amax_bound (y : list Z) (v : Z) : In v y -> (v <= amax y)%Z.
Proof.
  unfold amax. induction y as [|h y IH]; simpl; [tauto|].
  intros [->|H]; [lia|]. specialize (IH H). lia.
Qed.

Lemma existsb_negative (y : list Z) :
  existsb (fun v => (v <? 0)%Z) y = false <-> nonnegative y.
Proof.
  unfold nonnegative. induction y as [|v y IH]; simpl.
  - split; auto.
  - rewrite orb_false_iff, IH, Z.ltb_ge. split.
    + intros [? ?]; constructor; auto.
    + intros H; inversion H; auto.
Qed.

Lemma bincount_negative (y : list Z) :
  ~ nonnegative y -> bincount y = Raise ValueError.
Proof.
  intros H. unfold bincount.
  destruct (existsb _ y) eqn:E; [reflexivity|].
  apply existsb_negative in E. contradiction.
Qed.

Lemma make_leaf_negative {A : Arithmetic} (y : list Z) :
  ~ nonnegative y -> make_leaf y = Raise ValueError.
Proof.
  intros H. unfold make_leaf. now rewrite bincount_negative.
Qed.

Lemma make_leaf_raise {A : Arithmetic} (y : list Z) (e : exception) :
  make_leaf y = Raise e -> e = ValueError.
Proof.
  unfold make_leaf, bincount.
  destruct (existsb _ y); simpl; [congruence|].
  destruct y; simpl; congruence.
Qed.

Lemma make_leaf_is_leaf {A : Arithmetic} (y : list Z) (node : Node) :
  make_leaf y = Ok node -> exists v, node = Leaf v.
Proof.
  unfold make_leaf. destruct (bincount y) as [counts|]; simpl; [|discriminate].
  destruct (argmax counts); simpl; [|discriminate].
  intros [= <-]. eauto.
Qed.

Lemma make_leaf_majority {A : Arithmetic} (y : list Z) :
  y <> [] -> nonnegative y ->
  exists v, make_leaf y = Ok (Leaf v) /\ majority_label y v.
Proof.
  intros Hne Hnn. unfold make_leaf, bincount.
  rewrite (proj2 (existsb_negative y) Hnn).
  destruct y as [|h t] eqn:Ey; [contradiction|]. rewrite <- Ey in *.
  set (m := Z.to_nat (amax y)).
  set (counts := map (fun c => count (Z.of_nat c) y) (seq 0 (S m))).
  assert (length counts = S m) as Hlen
    by (unfold counts; now rewrite length_map, length_seq).
  assert (forall j, j < S m -> nth j counts 0 = count (Z.of_nat j) y) as Hnth.
  { intros j Hj. unfold counts.
    rewrite (nth_indep _ 0 (count (Z.of_nat 0) y))
      by (rewrite length_map, length_seq; lia).
    rewrite (map_nth (fun c => count (Z.of_nat c) y)), seq_nth by lia.
    reflexivity. }
  destruct (argmax_spec counts) as (r & Er & Hr & Hmax & Hfirst).
  { intros E. rewrite E in Hlen. discriminate. }
  fold m. fold counts. unfold bind at 1. rewrite Er. unfold bind.
  exists (Z.of_nat r). split; [reflexivity|].
  rewrite Hlen in *.
  assert (forall c, In c y -> (0 <= c)%Z /\ Z.to_nat c < S m) as Hin.
  { intros c Hc. unfold nonnegative in Hnn. rewrite Forall_forall in Hnn.
    pose proof (Hnn c Hc). pose proof (amax_bound y c Hc). unfold m. lia. }
  assert (forall c, count c y <= count (Z.of_nat r) y) as Hmaj.
  { intros c. destruct (Classical_Prop.classic (In c y)) as [Hc|Hc].
    - destruct (Hin c Hc) as [H0 Hm].
      specialize (Hmax (Z.to_nat c) Hm).
      rewrite !Hnth in Hmax by lia. rewrite Z2Nat.id in Hmax by lia. exact Hmax.
    - rewrite (count_absent c y Hc). lia. }
  assert (In (Z.of_nat r) y) as Hry.
  { apply count_pos_iff.
    assert (In h y) as Hh by (rewrite Ey; now left).
    apply count_pos_iff in Hh. specialize (Hmaj h). lia. }
  split; [exact Hry|]. split; [exact Hmaj|].
  intros c Hc. destruct (Z_lt_le_dec c (Z.of_nat r)) as [Hlt|]; [|assumption].
  exfalso.
  assert (In c y) as Hcy.
  { apply count_pos_iff. apply count_pos_iff in Hry. lia. }
  destruct (Hin c Hcy) as [H0 Hm].
  assert (Z.to_nat c < r) as Hj by lia.
  specialize (Hfirst (Z.to_nat c) Hj).
  rewrite !Hnth in Hfirst by lia. rewrite Z2Nat.id in Hfirst by lia. lia.
Qed.

(** ** The recursion of build_tree *)

Lemma stopping_iff {A : Arithmetic} (self : DecisionTreeClassifier) X y depth :
  length y = length (rows X) ->
  stopping self X y depth = true <->
  (exists md, max_depth self = Some md /\ md <= depth)
  \/ length y < min_samples_split self
  \/ single_class y.
Proof.
  intros Hlen. unfold stopping, shape. rewrite <- Hlen.
  rewrite !orb_true_iff, Nat.ltb_lt, Nat.eqb_eq, np_unique_single_class.
  destruct (max_depth self) as [md|].
  - rewrite Nat.leb_le. split.
    + intros [[H|H]|H]; eauto.
    + intros [(md' & [= <-] & H)|[H|H]]; auto.
  - split.
    + intros [[H|H]|H]; auto; discriminate.
    + intros [(md' & [=] & _)|[H|H]]; auto.
Qed.

Lemma stopping_false_depth {A : Arithmetic}
    (self : DecisionTreeClassifier) X y depth md :
  stopping self X y depth = false -> max_depth self = Some md -> depth < md.
Proof.
  unfold stopping, shape. intros H E. rewrite E in H.
  apply orb_false_iff in H. destruct H as [H _].
  apply orb_false_iff in H. destruct H as [H _].
  apply Nat.leb_gt in H. exact H.
Qed.

Lemma build_tree_fuel_Builds {A : Arithmetic}
    (self : DecisionTreeClassifier) (fuel : nat) :
  forall X y depth,
    length y = length (rows X) -> length (rows X) < fuel ->
    exists r, build_tree_fuel fuel self X y depth = Some r /\
              Builds self X y depth r.
Proof.
  induction fuel as [|fuel IH]; intros X y depth Hlen Hfuel; [lia|].
  simpl. destruct (stopping self X y depth) eqn:Hstop.
  { eexists; split; [reflexivity|]. now constructor. }
  destruct (best_split X y) as [[best|]|e] eqn:Hbest.
  - pose proof (split_sizes X y best Hlen Hbest) as [Hl Hr]. simpl in Hl, Hr.
    fold (split_mask X best).
    pose proof (split_mask_length X best) as Hm.
    pose proof (subset_ok X y (split_mask X best) Hlen Hm) as El.
    pose proof (subset_ok X y (invert (split_mask X best)) Hlen) as Er.
    rewrite invert_length in Er. specialize (Er Hm).
    rewrite El.
    destruct (IH {| ncols := ncols X; rows := select (split_mask X best) (rows X) |}
                (select (split_mask X best) y) (depth + 1))
      as (rl & Erl & Bl).
    { simpl. now apply select_length_same. }
    { simpl. rewrite (select_length_same _ (rows X) y) by auto. lia. }
    rewrite Erl. destruct rl as [left_node|e].
    + rewrite Er.
      destruct (IH {| ncols := ncols X;
                      rows := select (invert (split_mask X best)) (rows X) |}
                  (select (invert (split_mask X best)) y) (depth + 1))
        as (rr & Err & Br).
      { simpl. now apply select_length_same. }
      { simpl. rewrite (select_length_same _ (rows X) y) by auto. lia. }
      rewrite Err. destruct rr as [right_node|e].
      * eexists; split; [reflexivity|]. eapply Builds_node; eauto.
      * eexists; split; [reflexivity|]. eapply Builds_right_raise; eauto.
    + eexists; split; [reflexivity|]. eapply Builds_left_raise; eauto.
  - eexists; split; [reflexivity|]. now constructor.
  - exfalso. rewrite best_split_fold in Hbest by assumption. discriminate.
Qed.

(** [Builds] is the graph of a function. *)
Lemma Builds_deterministic {A : Arithmetic}
    (self : DecisionTreeClassifier) X y depth r1 r2 :
  Builds self X y depth r1 -> Builds self X y depth r2 -> r1 = r2.
Proof.
  intros B1; revert r2.
  induction B1; intros r2 B2; inversion B2; subst; try congruence;
    repeat match goal with
      | H1 : best_split ?X ?y = Ok (Some ?b1),
        H2 : best_split ?X ?y = Ok (Some ?b2) |- _ =>
          assert (b1 = b2) by congruence; subst b2; clear H2
      | H1 : subset ?X ?y ?m = Ok (?a1, ?b1),
        H2 : subset ?X ?y ?m = Ok (?a2, ?b2) |- _ =>
          assert (a1 = a2 /\ b1 = b2) as [? ?] by (split; congruence);
          subst a2 b2; clear H2
      end;
    repeat match goal with
      | IH : forall r, Builds _ ?X ?y ?d r -> _ = r,
        H : Builds _ ?X ?y ?d _ |- _ => apply IH in H; clear IH
      end;
    congruence.
Qed.

Lemma build_tree_Builds {A : Arithmetic}
    (self : DecisionTreeClassifier) X y depth :
  length y = length (rows X) ->
  exists r, build_tree self X y depth = Some r /\ Builds self X y depth r.
Proof.
  intros Hlen. apply build_tree_fuel_Builds; auto.
Qed.

(** More fuel than there are rows never changes the result. *)
Lemma build_tree_fuel_enough {A : Arithmetic}
    (self : DecisionTreeClassifier) fuel X y depth :
  length y = length (rows X) -> length (rows X) < fuel ->
  build_tree_fuel fuel self X y depth = build_tree self X y depth.
Proof.
  intros Hlen Hfuel.
  destruct (build_tree_fuel_Builds self fuel X y depth Hlen Hfuel)
    as (r1 & E1 & B1).
  destruct (build_tree_Builds self X y depth Hlen) as (r2 & E2 & B2).
  rewrite E1, E2. f_equal. eapply Builds_deterministic; eauto.
Qed.

Lemma Builds_build_tree {A : Arithmetic}
    (self : DecisionTreeClassifier) X y depth r :
  length y = length (rows X) ->
  Builds self X y depth r -> build_tree self X y depth = Some r.
Proof.
  intros Hlen B.
  destruct (build_tree_Builds self X y depth Hlen) as (r' & E & B').
  rewrite E. f_equal. eapply Builds_deterministic; eauto.
Qed.

(** Without any check of the sizes: a stopping criterion or an empty
    search gives the leaf of [y]. *)
Lemma build_tree_root_leaf {A : Arithmetic}
    (self : DecisionTreeClassifier) X y depth :
  stopping self X y depth = true \/ candidates X = [] ->
  build_tree self X y depth = Some (make_leaf y).
Proof.
  intros H. unfold build_tree. simpl.
  destruct (stopping self X y depth) eqn:Hstop; [reflexivity|].
  destruct H as [H|H]; [discriminate|].
  now rewrite (best_split_no_candidates X y H).
Qed.

Lemma build_tree_mismatch {A : Arithmetic}
    (self : DecisionTreeClassifier) X y depth :
  length y <> length (rows X) ->
  stopping self X y depth = false -> candidates X <> [] ->
  build_tree self X y depth = Some (Raise IndexError).
Proof.
  intros Hlen Hstop Hc. unfold build_tree. simpl.
  now rewrite Hstop, (best_split_mismatch X y Hlen Hc).
Qed.

(** The fuel that [build_tree] starts with is enough on every input. *)
Lemma build_tree_total {A : Arithmetic}
    (self : DecisionTreeClassifier) X y depth :
  exists r, build_tree self X y depth = Some r.
Proof.
  destruct (Nat.eq_dec (length y) (length (rows X))) as [Hlen|Hlen].
  - destruct (build_tree_Builds self X y depth Hlen) as (r & E & _). eauto.
  - destruct (stopping self X y depth) eqn:Hstop.
    + rewrite build_tree_root_leaf by auto. eauto.
    + destruct (candidates X) as [|c cs] eqn:Hc.
      * rewrite build_tree_root_leaf by auto. eauto.
      * rewrite build_tree_mismatch; eauto. rewrite Hc. discriminate.
Qed.

(** On data with as many labels as rows the only exception of the builder is the ValueError
    of a leaf. *)
Lemma Builds_raise {A : Arithmetic}
    (self : DecisionTreeClassifier) X y depth r :
  Builds self X y depth r -> length y = length (rows X) ->
  forall e, r = Raise e -> e = ValueError.
Proof.
  induction 1; intros Hlen e' Er;
    try (eapply make_leaf_raise; eassumption); try discriminate.
  - injection Er as <-.
    destruct (child_sizes X y best X_left y_left false Hlen) as [Hl _]; auto.
  - injection Er as <-.
    destruct (child_sizes X y best X_right y_right true Hlen) as [Hr _]; auto.
Qed.

(** With non-negative labels the builder returns a node. *)
Lemma Builds_nonnegative {A : Arithmetic}
    (self : DecisionTreeClassifier) X y depth r :
  Builds self X y depth r -> length y = length (rows X) ->
  y <> [] -> nonnegative y -> exists node, r = Ok node.
Proof.
  assert (forall l : list Z, 0 < length l -> l <> []) as Hne
    by (intros [|] ?; [simpl in *; lia|discriminate]).
  induction 1; intros Hlen Hy Hnn.
  - destruct (make_leaf_majority y Hy Hnn) as (v & -> & _). eauto.
  - destruct (make_leaf_majority y Hy Hnn) as (v & -> & _). eauto.
  - destruct (child_sizes X y best X_left y_left false Hlen) as [Hl Hs]; auto.
    destruct (subset_sizes _ _ _ _ _ Hlen H1) as (_ & _ & ->).
    assert (exists node, @Raise Node e = Ok node) as (node & ?);
      [|discriminate].
    apply IHBuilds; [assumption|apply Hne; lia|now apply select_nonnegative].
  - destruct (child_sizes X y best X_right y_right true Hlen) as [Hl Hs]; auto.
    destruct (subset_sizes _ _ _ _ _ Hlen H3) as (_ & _ & ->).
    assert (exists node, @Raise Node e = Ok node) as (node & ?);
      [|discriminate].
    apply IHBuilds2; [assumption|apply Hne; lia|now apply select_nonnegative].
  - eauto.
Qed.

(** With a negative label the builder raises. *)
Lemma Builds_negative {A : Arithmetic}
    (self : DecisionTreeClassifier) X y depth r :
  Builds self X y depth r -> length y = length (rows X) ->
  ~ nonnegative y -> r = Raise ValueError.
Proof.
  induction 1; intros Hlen Hneg.
  - now apply make_leaf_negative.
  - now apply make_leaf_negative.
  - f_equal. eapply Builds_raise; eauto.
    now destruct (child_sizes X y best X_left y_left false Hlen).
  - f_equal. eapply Builds_raise; eauto.
    now destruct (child_sizes X y best X_right y_right true Hlen).
  - exfalso.
    destruct (child_sizes X y best X_left y_left false Hlen) as [Hl _]; auto.
    destruct (child_sizes X y best X_right y_right true Hlen) as [Hr _]; auto.
    destruct (subset_sizes _ _ _ _ _ Hlen H1) as (_ & _ & El).
    destruct (subset_sizes _ _ _ _ _ Hlen H3) as (_ & _ & Er).
    destruct (select_negative (split_mask X best) y) as [Hn|Hn]; auto.
    + rewrite split_mask_length. auto.
    + rewrite <- El in Hn. specialize (IHBuilds1 Hl Hn). discriminate.
    + rewrite <- Er in Hn. specialize (IHBuilds2 Hr Hn). discriminate.
Qed.

Lemma Builds_height {A : Arithmetic}
    (self : DecisionTreeClassifier) X y depth r :
  Builds self X y depth r ->
  forall node md, r = Ok node -> max_depth self = Some md ->
                  depth + height node <= Nat.max depth md.
Proof.
  induction 1; intros node md Er Hmd; try discriminate.
  - apply make_leaf_is_leaf in Er. destruct Er as (v & ->). simpl. lia.
  - apply make_leaf_is_leaf in Er. destruct Er as (v & ->). simpl. lia.
  - injection Er as <-. simpl.
    pose proof (stopping_false_depth self X y depth md H Hmd) as Hd.
    specialize (IHBuilds1 left_node md eq_refl Hmd).
    specialize (IHBuilds2 right_node md eq_refl Hmd). lia.
Qed.

Lemma Builds_features_below {A : Arithmetic}
    (self : DecisionTreeClassifier) X y depth r :
  Builds self X y depth r -> length y = length (rows X) ->
  forall node, r = Ok node -> features_below (ncols X) node.
Proof.
  induction 1; intros Hlen node Er; try discriminate.
  - apply make_leaf_is_leaf in Er. destruct Er as (v & ->). exact I.
  - apply make_leaf_is_leaf in Er. destruct Er as (v & ->). exact I.
  - injection Er as <-. simpl.
    destruct (child_sizes X y best X_left y_left false Hlen) as [Hl _]; auto.
    destruct (child_sizes X y best X_right y_right true Hlen) as [Hr _]; auto.
    destruct (subset_sizes _ _ _ _ _ Hlen H1) as (_ & <- & _).
    split.
    + destruct (best_split_Some X y best Hlen H0)
        as (_ & _ & before & after & Ec).
      assert (In (feature_index best, threshold best) (candidates X)) as Hc
        by (rewrite Ec; apply in_app_iff; right; now left).
      apply candidates_In in Hc. destruct Hc as [Hc _].
      destruct (subset_sizes _ _ _ _ _ Hlen H1) as (_ & -> & _). exact Hc.
    + split; [now apply IHBuilds1|].
      destruct (subset_sizes _ _ _ _ _ Hlen H1) as (_ & -> & _).
      destruct (subset_sizes _ _ _ _ _ Hlen H3) as (_ & <- & _).
      now apply IHBuilds2.
Qed.

Lemma child_call_decreases {A : Arithmetic}
    (self : DecisionTreeClassifier) side X y depth X' y' depth' :
  child_call self side (X, y, depth) (X', y', depth') ->
  length y = length (rows X) ->
  depth' = depth + 1 /\ length y' = length (rows X') /\
  0 < length y' < length y /\ ncols X' = ncols X.
Proof.
  intros Hc Hlen. inversion Hc; subst.
  - match goal with
    | Hb : best_split X y = Ok (Some ?b),
      Hs : subset X y (split_mask X ?b) = Ok (X', y') |- _ =>
        destruct (child_sizes X y b X' y' false Hlen Hb Hs) as [Hl Hsz];
        destruct (subset_sizes _ _ _ _ _ Hlen Hs) as (_ & Hn & _)
    end. auto.
  - match goal with
    | Hb : best_split X y = Ok (Some ?b),
      Hs : subset X y (invert (split_mask X ?b)) = Ok (X', y') |- _ =>
        destruct (child_sizes X y b X' y' true Hlen Hb Hs) as [Hl Hsz];
        destruct (subset_sizes _ _ _ _ _ Hlen Hs) as (_ & Hn & _)
    end. auto.
Qed.

Lemma call_at_sizes {A : Arithmetic} (self : DecisionTreeClassifier) path c c' :
  call_at self path c c' ->
  forall X y depth X' y' depth',
    c = (X, y, depth) -> c' = (X', y', depth') ->
    length y = length (rows X) ->
    depth' = depth + length path /\ length y' = length (rows X') /\
    length y' <= length y /\ ncols X' = ncols X.
Proof.
  induction 1 as [c|side path c c1 c2 Hchild Hrest IH];
    intros X y depth X' y' depth' Ec Ec' Hlen.
  - rewrite Ec in Ec'. injection Ec' as <- <- <-. simpl. auto with arith.
  - subst c c2. destruct c1 as [[X1 y1] d1].
    destruct (child_call_decreases _ _ _ _ _ _ _ _ Hchild Hlen)
      as (-> & Hl1 & Hs1 & Hn1).
    destruct (IH X1 y1 (depth + 1) X' y' depth' eq_refl eq_refl Hl1)
      as (-> & Hl' & Hs' & Hn').
    simpl. repeat split; auto; try lia; congruence.
Qed.

(** Below a root call at depth 0, no call is deeper than [max_depth]. *)
Lemma call_at_depth_bound {A : Arithmetic}
    (self : DecisionTreeClassifier) path c c' :
  call_at self path c c' ->
  forall md, max_depth self = Some md -> snd c <= md -> snd c' <= md.
Proof.
  induction 1 as [c|side path c c1 c2 Hchild Hrest IH]; intros md Hmd Hc; auto.
  apply (IH md Hmd).
  inversion Hchild; subst; simpl;
    match goal with
    | Hs : stopping self _ _ _ = false |- _ =>
        pose proof (stopping_false_depth _ _ _ _ _ Hs Hmd)
    end; lia.
Qed.

(** The node at a path of the returned tree is the node returned by the
    call at that path. *)
Lemma node_at_call_at {A : Arithmetic}
    (self : DecisionTreeClassifier) (path : list bool) :
  forall X y depth node node',
    Builds self X y depth (Ok node) -> length y = length (rows X) ->
    node_at node path = Some node' ->
    exists X' y',
      call_at self path (X, y, depth) (X', y', depth + length path) /\
      length y' = length (rows X') /\
      Builds self X' y' (depth + length path) (Ok node').
Proof.
  induction path as [|side path IH]; intros X y depth node node' B Hlen Hat.
  - simpl in *. injection Hat as <-. exists X, y. rewrite Nat.add_0_r.
    split; [constructor|auto].
  - destruct node as [v|fi t g l r]; simpl in Hat; [discriminate|].
    inversion B; subst;
      try (match goal with
           | H : make_leaf _ = Ok (Decision _ _ _ _ _) |- _ =>
               apply make_leaf_is_leaf in H; destruct H; discriminate
           end).
    match goal with
    | Hb : best_split X y = Ok (Some ?b),
      Hl : subset X y (split_mask X ?b) = Ok (?Xl, ?yl),
      Hr : subset X y (invert (split_mask X ?b)) = Ok (?Xr, ?yr),
      Bl : Builds self ?Xl ?yl _ (Ok l),
      Br : Builds self ?Xr ?yr _ (Ok r),
      Hs : stopping self X y depth = false |- _ =>
        destruct (child_sizes X y b Xl yl false Hlen Hb Hl) as [Hll _];
        destruct (child_sizes X y b Xr yr true Hlen Hb Hr) as [Hlr _];
        replace (depth + length (side :: path))
          with ((depth + 1) + length path) by (simpl; lia);
        destruct side;
        [ destruct (IH Xr yr (depth + 1) r node' Br Hlr Hat)
            as (X' & y' & Hcall & Hl' & B');
          exists X', y'; split; [|auto];
          eapply call_below; [|exact Hcall];
          eapply child_right; eauto
        | destruct (IH Xl yl (depth + 1) l node' Bl Hll Hat)
            as (X' & y' & Hcall & Hl' & B');
          exists X', y'; split; [|auto];
          eapply call_below; [|exact Hcall];
          eapply child_left; eauto ]
    end.
Qed.

(** ** fit and prediction *)

Lemma build_tree_fuel_config {A : Arithmetic}
    (s1 s2 : DecisionTreeClassifier) (fuel : nat) :
  max_depth s1 = max_depth s2 ->
  min_samples_split s1 = min_samples_split s2 ->
  forall X y depth,
    build_tree_fuel fuel s1 X y depth = build_tree_fuel fuel s2 X y depth.
Proof.
  intros Hmd Hmss. induction fuel as [|fuel IH]; intros X y depth; simpl;
    [reflexivity|].
  assert (stopping s1 X y depth = stopping s2 X y depth) as ->
    by (unfold stopping; now rewrite Hmd, Hmss).
  destruct (stopping s2 X y depth); [reflexivity|].
  destruct (best_split X y) as [[best|]|e]; try reflexivity.
  destruct (subset X y _) as [[Xl yl]|e]; [|reflexivity].
  rewrite IH.
  destruct (build_tree_fuel fuel s2 Xl yl (depth + 1)) as [[ln|e]|];
    try reflexivity.
  destruct (subset X y _) as [[Xr yr]|e]; [|reflexivity].
  now rewrite IH.
Qed.

(** [fit] in terms of the call of [build_tree] that it makes. *)
Lemma fit_build_tree {A : Arithmetic} (self : DecisionTreeClassifier) X y :
  fit self X y
  = match build_tree self X y 0 with
    | None => None
    | Some (Raise e) => Some (Raise e, assign_sizes self X y)
    | Some (Ok node) => Some (Ok tt, fitted self X y node)
    end.
Proof.
  unfold fit. cbv zeta. unfold build_tree.
  rewrite (build_tree_fuel_config (assign_sizes self X y) self)
    by reflexivity.
  destruct (build_tree_fuel _ self X y 0) as [[node|e]|]; reflexivity.
Qed.

Lemma fit_inv {A : Arithmetic} (self : DecisionTreeClassifier) X y clf :
  fit self X y = Some (Ok tt, clf) ->
  exists node, build_tree self X y 0 = Some (Ok node) /\ root clf = Some node.
Proof.
  rewrite fit_build_tree.
  destruct (build_tree self X y 0) as [[node|e]|]; try discriminate.
  intros [= <-]. eauto.
Qed.

Lemma fit_Builds {A : Arithmetic} (self : DecisionTreeClassifier) X y clf node :
  length y = length (rows X) ->
  fit self X y = Some (Ok tt, clf) -> root clf = Some node ->
  Builds self X y 0 (Ok node).
Proof.
  intros Hlen Hfit Hroot.
  destruct (fit_inv _ _ _ _ Hfit) as (node' & E & Hroot').
  assert (node' = node) as -> by congruence.
  destruct (build_tree_Builds self X y 0 Hlen) as (r & E' & B).
  congruence.
Qed.

Lemma predict_single_wide {A : Arithmetic}
    (d : nat) (x : list Q) (node : Node) :
  features_below d node -> d <= length x ->
  exists v, predict_single x node = Ok v /\
            predict_single (firstn d x) node = Ok v.
Proof.
  intros Hb Hd. induction node as [v|fi t g l IHl r IHr]; simpl.
  - eauto.
  - destruct Hb as (Hfi & Hbl & Hbr).
    rewrite nth_error_firstn.
    destruct (Nat.ltb_spec fi d) as [_|]; [|lia].
    destruct (nth_error x fi) as [q|] eqn:E.
    + destruct (Qle_bool q t); auto.
    + apply nth_error_None in E. lia.
Qed.


(** ** The scenario of the specification *)

Lemma scenario_candidates :
  candidates X_scenario = [(0, 0%Q); (0, 1%Q); (0, 2%Q); (0, 3%Q)].
Proof. reflexivity. Qed.

Lemma scenario_gain_1 :
  candidate_gain X_scenario y_scenario (0, 1%Q) = entropy y_scenario.
Proof.
  unfold candidate_gain, gain. exact_arithmetic.
  change (left_labels X_scenario y_scenario (0, 1%Q)) with [0; 0]%Z.
  change (right_labels X_scenario y_scenario (0, 1%Q)) with [1; 1]%Z.
  rewrite (entropy_single_class 0%Z [0; 0]%Z) by (repeat constructor).
  rewrite (entropy_single_class 1%Z [1; 1]%Z) by (repeat constructor).
  ring.
Qed.

Lemma scenario_entropy_pos : (0 < entropy y_scenario)%R.
Proof.
  apply (entropy_pos y_scenario 0%Z 1%Z); unfold y_scenario; simpl; auto.
  discriminate.
Qed.

Lemma scenario_best_split :
  best_split X_scenario y_scenario
  = Ok (Some {| feature_index := 0; threshold := 1%Q;
                info_gain := candidate_gain X_scenario y_scenario (0%nat, 1%Q) |}).
Proof.
  rewrite best_split_fold by reflexivity.
  rewrite scenario_candidates. cbn [fold_left].
  assert (0 <= candidate_gain X_scenario y_scenario (0%nat, 0%Q))%R as G0.
  { apply viable_gain_nonneg; [reflexivity|]. split; discriminate. }
  assert (candidate_gain X_scenario y_scenario (0%nat, 0%Q)
          < candidate_gain X_scenario y_scenario (0%nat, 1%Q))%R as G1.
  { rewrite scenario_gain_1. unfold candidate_gain, gain. exact_arithmetic.
    change (left_labels X_scenario y_scenario (0%nat, 0%Q)) with [0]%Z.
    change (right_labels X_scenario y_scenario (0%nat, 0%Q)) with [0; 1; 1]%Z.
    rewrite (entropy_single_class 0%Z [0]%Z) by (repeat constructor).
    assert (0 < entropy [0; 1; 1]%Z)%R as Hp
      by (apply (entropy_pos _ 0%Z 1%Z); simpl; auto; discriminate).
    change (INR (length [0; 1; 1]%Z) / INR (length y_scenario))%R
      with (INR 3 / INR 4)%R.
    simpl INR. lra. }
  assert (candidate_gain X_scenario y_scenario (0%nat, 2%Q)
          <= candidate_gain X_scenario y_scenario (0%nat, 1%Q))%R as G2.
  { rewrite scenario_gain_1. unfold candidate_gain, gain. exact_arithmetic.
    change (left_labels X_scenario y_scenario (0%nat, 2%Q)) with [0; 0; 1]%Z.
    change (right_labels X_scenario y_scenario (0%nat, 2%Q)) with [1]%Z.
    rewrite (entropy_single_class 1%Z [1]%Z) by (repeat constructor).
    pose proof (entropy_nonneg [0; 0; 1]%Z) as Hp.
    change (INR (length [0; 0; 1]%Z) / INR (length y_scenario))%R
      with (INR 3 / INR 4)%R.
    simpl INR. lra. }
  rewrite (step_candidate_take X_scenario y_scenario _ (0%nat, 0%Q));
    [|discriminate|discriminate|simpl; lra].
  rewrite (step_candidate_take X_scenario y_scenario _ (0%nat, 1%Q));
    [|discriminate|discriminate|simpl; lra].
  rewrite (step_candidate_keep X_scenario y_scenario _ (0%nat, 2%Q))
    by (simpl; lra).
  rewrite (step_candidate_skip X_scenario y_scenario _ (0%nat, 3%Q))
    by (right; reflexivity).
  reflexivity.
Qed.

Lemma scenario_Builds :
  Builds (init None 2) X_scenario y_scenario 0
    (Ok (Decision 0 1%Q (candidate_gain X_scenario y_scenario (0, 1%Q))
           (Leaf 0) (Leaf 1))).
Proof.
  pose proof scenario_best_split as Hbest.
  eapply (Builds_node (init None 2) X_scenario y_scenario 0 _
            {| ncols := 1; rows := [[0%Q]; [1%Q]] |} [0; 0]%Z
            {| ncols := 1; rows := [[2%Q]; [3%Q]] |} [1; 1]%Z
            (Leaf 0) (Leaf 1) eq_refl Hbest).
  - reflexivity.
  - change (Ok (Leaf 0)) with (make_leaf [0; 0]%Z).
    apply Builds_stop. reflexivity.
  - reflexivity.
  - change (Ok (Leaf 1)) with (make_leaf [1; 1]%Z).
    apply Builds_stop. reflexivity.
Qed.

Lemma scenario_fit :
  fit (init None 2) X_scenario y_scenario
  = Some (Ok tt,
          {| max_depth := None; min_samples_split := 2;
             root := Some (Decision 0 1%Q
                             (candidate_gain X_scenario y_scenario (0, 1%Q))
                             (Leaf 0) (Leaf 1));
             n_classes := Some 2; n_features := Some 1 |}).
Proof.
  rewrite fit_build_tree.
  rewrite (Builds_build_tree (init None 2) X_scenario y_scenario 0 _ eq_refl
             scenario_Builds).
  reflexivity.
Qed.

(** ** The mixed subset: a split of zero gain is returned *)

Lemma mixed_gain_0 : candidate_gain X_mixed y_mixed (0, 0%Q) = 0%R.
Proof.
  unfold candidate_gain, gain. exact_arithmetic.
  change (left_labels X_mixed y_mixed (0, 0%Q)) with [0; 1]%Z.
  change (right_labels X_mixed y_mixed (0, 0%Q)) with [0; 1]%Z.
  assert (entropy y_mixed = entropy [0; 1]%Z) as ->.
  { rewrite !entropy_sum.
    change (np_unique y_mixed) with [0; 1]%Z.
    change (np_unique [0; 1]%Z) with [0; 1]%Z.
    cbn [map Rsum fold_right]. rewrite !proportion_count.
    change (count 0 y_mixed) with 2. change (count 1 y_mixed) with 2.
    change (count 0 [0; 1]%Z) with 1. change (count 1 [0; 1]%Z) with 1.
    change (length y_mixed) with 4. change (length [0; 1]%Z) with 2.
    replace (INR 2 / INR 4)%R with (INR 1 / INR 2)%R by (simpl; field).
    reflexivity. }
  change (length [0; 1]%Z) with 2. change (length y_mixed) with 4.
  simpl INR. field.
Qed.

Lemma mixed_best_split :
  best_split X_mixed y_mixed
  = Ok (Some {| feature_index := 0; threshold := 0%Q;
                info_gain := candidate_gain X_mixed y_mixed (0, 0%Q) |}).
Proof.
  rewrite best_split_fold by reflexivity.
  change (candidates X_mixed) with [(0, 0%Q); (0, 1%Q)].
  cbn [fold_left].
  rewrite (step_candidate_take X_mixed y_mixed _ (0, 0%Q));
    [|discriminate|discriminate|rewrite mixed_gain_0; simpl; lra].
  rewrite (step_candidate_skip X_mixed y_mixed _ (0, 1%Q))
    by (right; reflexivity).
  reflexivity.
Qed.

(** ** The rounding example: a split whose exact gain is zero *)

Lemma rounding_gain_exact :
  candidate_gain (A := exact) X_rounding y_rounding (0, 0%Q) = 0%R.
Proof.
  unfold candidate_gain, gain. exact_arithmetic.
  change (left_labels X_rounding y_rounding (0, 0%Q)) with [0; 0; 1; 2]%Z.
  set (yr := right_labels X_rounding y_rounding (0, 0%Q)).
  assert (entropy y_rounding = entropy [0; 0; 1; 2]%Z) as ->.
  { rewrite !entropy_sum.
    change (np_unique y_rounding) with [0; 1; 2]%Z.
    change (np_unique [0; 0; 1; 2]%Z) with [0; 1; 2]%Z.
    cbn [map Rsum fold_right]. rewrite !proportion_count.
    change (count 0 y_rounding) with 10. change (count 1 y_rounding) with 5.
    change (count 2 y_rounding) with 5. change (length y_rounding) with 20.
    change (count 0 [0; 0; 1; 2]%Z) with 2.
    change (count 1 [0; 0; 1; 2]%Z) with 1.
    change (count 2 [0; 0; 1; 2]%Z) with 1.
    change (length [0; 0; 1; 2]%Z) with 4.
    replace (INR 10 / INR 20)%R with (INR 2 / INR 4)%R by (simpl; field).
    replace (INR 5 / INR 20)%R with (INR 1 / INR 4)%R by (simpl; field).
    reflexivity. }
  assert (entropy yr = entropy [0; 0; 1; 2]%Z) as ->.
  { rewrite !entropy_sum.
    change (np_unique yr) with [0; 1; 2]%Z.
    change (np_unique [0; 0; 1; 2]%Z) with [0; 1; 2]%Z.
    cbn [map Rsum fold_right]. rewrite !proportion_count.
    change (count 0 yr) with 8. change (count 1 yr) with 4.
    change (count 2 yr) with 4. change (length yr) with 16.
    change (count 0 [0; 0; 1; 2]%Z) with 2.
    change (count 1 [0; 0; 1; 2]%Z) with 1.
    change (count 2 [0; 0; 1; 2]%Z) with 1.
    change (length [0; 0; 1; 2]%Z) with 4.
    replace (INR 8 / INR 16)%R with (INR 2 / INR 4)%R by (simpl; field).
    replace (INR 4 / INR 16)%R with (INR 1 / INR 4)%R by (simpl; field).
    reflexivity. }
  change (length [0; 0; 1; 2]%Z) with 4. change (length yr) with 16.
  change (length y_rounding) with 20.
  simpl INR. field.
Qed.

(** * The claims

    A theorem with a parameter [A : Arithmetic] holds in every arithmetic:
    for the floats of the code, whatever [np.log2] returns, as for the
    reals.  C2 is about the floats; C7, C8 and C9 are stated in exact
    arithmetic. *)

(** C1, as the code has it.  On a well-formed input whose labels are all
    non-negative, [build_tree] returns a node, which is a leaf exactly when
    [depth >= max_depth] (if set), or [len(y) < min_samples_split], or [y]
    holds exactly one distinct class, or the split search returns None; and
    the class of that leaf is the majority label of [y], ties going to the
    smallest label. *)
Theorem build_tree_leaf_rule {A : Arithmetic}
    (self : DecisionTreeClassifier) (X : ndarray)
    (y : list Z) (depth : nat) :
  well_formed X y -> nonnegative y ->
  exists node,
    build_tree self X y depth = Some (Ok node) /\
    ((exists v, node = Leaf v) <->
     ((exists md, max_depth self = Some md /\ md <= depth)
      \/ length y < min_samples_split self
      \/ single_class y
      \/ best_split X y = Ok None)) /\
    (forall v, node = Leaf v -> majority_label y v).
Proof.
  intros (Hrows & _ & Hlen) Hnn.
  assert (y <> []) as Hy by (intros ->; destruct (rows X); [auto|discriminate]).
  destruct (build_tree_Builds self X y depth Hlen) as (r & E & B).
  destruct (Builds_nonnegative self X y depth r B Hlen Hy Hnn) as (node & ->).
  exists node. split; [exact E|].
  destruct (make_leaf_majority y Hy Hnn) as (v0 & Eleaf & Hmaj).
  pose proof (stopping_iff self X y depth Hlen) as Hstop.
  inversion B; subst.
  - assert (node = Leaf v0) as -> by congruence. split.
    + split; [intros _|eauto].
      match goal with
      | Hs : stopping _ _ _ _ = true |- _ =>
          destruct (proj1 Hstop Hs) as [?|[?|?]]; auto
      end.
    + intros v [= <-]. exact Hmaj.
  - assert (node = Leaf v0) as -> by congruence. split.
    + split; [auto|eauto].
    + intros v [= <-]. exact Hmaj.
  - split; [|discriminate]. split.
    + intros (v & Hv). discriminate.
    + intros Hcond. exfalso.
      assert (stopping self X y depth = true \/ best_split X y = Ok None)
        as [Hs|Hs].
      { destruct Hcond as [?|[?|[?|?]]]; auto; left; apply Hstop; auto. }
      * congruence.
      * congruence.
Qed.

Lemma build_tree_leaf_rule_witness :
  exists node,
    build_tree (init None 2) X_scenario y_scenario 0 = Some (Ok node) /\
    ((exists v, node = Leaf v) <->
     ((exists md, max_depth (init None 2) = Some md /\ md <= 0)
      \/ length y_scenario < min_samples_split (init None 2)
      \/ single_class y_scenario
      \/ best_split X_scenario y_scenario = Ok None)) /\
    (forall v, node = Leaf v -> majority_label y_scenario v).
Proof.
  apply (build_tree_leaf_rule (init None 2) X_scenario y_scenario 0).
  - split; [discriminate|]. split; [|reflexivity].
    repeat constructor.
  - repeat constructor; discriminate.
Defined.

(** C1 as stated fails: [X_tied], [y_negative] is well formed and holds a
    single class, and [build_tree] raises instead of emitting a leaf. *)
Lemma build_tree_negative_label_no_leaf :
  well_formed X_tied y_negative /\
  single_class y_negative /\
  build_tree (init None 2) X_tied y_negative 0 = Some (Raise ValueError).
Proof.
  split; [|split].
  - split; [discriminate|]. split; [repeat constructor|reflexivity].
  - exists (-1)%Z. split; [discriminate|repeat constructor].
  - reflexivity.
Qed.

(** C2, as the code has it.  On a subset with as many labels as rows, when
    the split search returns a candidate, its gain is the binary64 value
    that [information_gain] computed for that candidate, and it compared
    greater than -1; no evaluated candidate has a greater gain, and no
    candidate evaluated earlier has a gain that reaches it: for gains that
    are not NaN, every evaluated gain is at most the returned one and every
    earlier one is strictly smaller.  The candidates are the distinct values
    of each feature's column in the subset, enumerated by feature index and
    then by increasing threshold, and those with an empty side are not
    evaluated.  This holds whatever [np.log2] returns. *)
Theorem best_split_maximal (log2_impl : PrimFloat.float -> PrimFloat.float)
    (X : ndarray) (y : list Z) (best : split (A := binary64 log2_impl)) :
  length y = length (rows X) ->
  best_split X y = Ok (Some best) ->
  let c := (feature_index best, threshold best) in
  let g := info_gain best in
  In c (candidates X) /\ viable X y c /\
  information_gain (A := binary64 log2_impl) y (left_labels X y c)
    (right_labels X y c) = Ok g /\
  (-1 <? g)%float = true /\
  (forall c', In c' (candidates X) -> viable X y c' ->
     let g' := candidate_gain (A := binary64 log2_impl) X y c' in
     (g <? g')%float = false /\
     (enumerated_before c' c -> (g <=? g')%float = false) /\
     (PrimFloat.is_nan g' = false ->
      (g' <=? g)%float = true /\
      (enumerated_before c' c -> (g' <? g)%float = true))) /\
  StronglySorted enumerated_before (candidates X) /\
  (forall j t, In (j, t) (candidates X) -> j < ncols X /\ In t (column X j)) /\
  (forall j v, j < ncols X -> In v (column X j) ->
               exists t, In (j, t) (candidates X) /\ (v == t)%Q).
Proof.
  intros Hlen Hbest c g.
  destruct (best_split_inv_binary64 log2_impl X y Hlen) as (st & E & Hinv).
  rewrite Hbest in E. injection E as E.
  unfold search_inv_binary64 in Hinv. rewrite <- E in Hinv.
  destruct Hinv as (_ & Eg & Hv & Hm1 & before & after & Ec & Hb & Ha).
  fold c in Eg, Hv, Ec. fold g in Eg, Hm1, Hb, Ha.
  assert (In c (candidates X)) as Hc
    by (rewrite Ec; apply in_app_iff; right; now left).
  split; [exact Hc|]. split; [exact Hv|]. split.
  { fold g. rewrite Eg. apply information_gain_ok.
    destruct Hv as [Hl _]. intros ->. apply Hl.
    unfold left_labels. destruct (le_mask _ _); reflexivity. }
  split; [exact Hm1|]. split.
  { intros c' Hc' Hv' g'.
    assert (enumerated_before c' c -> (g <=? g')%float = false) as Hbefore.
    { intros Hlt. apply Hb; [|exact Hv'].
      exact (candidates_before X before after c c' Ec Hc' Hlt). }
    assert ((g <? g')%float = false) as Hmax.
    { rewrite Ec in Hc'. apply in_app_iff in Hc'.
      destruct Hc' as [Hc'|[<-|Hc']].
      - destruct (g <? g')%float eqn:Hlt; [|reflexivity].
        specialize (Hb c' Hc' Hv'). fold g' in Hb.
        rewrite (float_ltb_leb _ _ Hlt) in Hb. discriminate.
      - unfold g'. rewrite <- Eg.
        destruct (g <? g)%float eqn:Hlt; [|reflexivity].
        pose proof (float_ltb_not_leb _ _ Hlt) as H1.
        rewrite (float_ltb_leb _ _ Hlt) in H1. discriminate.
      - exact (Ha c' Hc' Hv'). }
    split; [exact Hmax|]. split; [exact Hbefore|].
    intros Hnan. pose proof (float_ltb_is_nan _ _ Hm1) as Hg. split.
    - now apply float_ltb_false_leb.
    - intros Hlt. apply float_leb_false_ltb; auto. }
  split; [apply candidates_sorted|]. split.
  - intros j t Hjt. apply candidates_In in Hjt. destruct Hjt as [Hj Ht].
    split; [exact Hj|]. now apply np_uniqueQ_In.
  - apply candidates_cover.
Qed.

Lemma best_split_maximal_witness :
  In (0, 0%Q) (candidates X_rounding) /\
  viable X_rounding y_rounding (0, 0%Q) /\
  information_gain (A := binary64 log2_dyadic) y_rounding
    (left_labels X_rounding y_rounding (0, 0%Q))
    (right_labels X_rounding y_rounding (0, 0%Q))
  = Ok (-0x1p-52)%float /\
  (-1 <? -0x1p-52)%float = true.
Proof.
  pose proof (best_split_maximal log2_dyadic X_rounding y_rounding
                (@Build_split (binary64 log2_dyadic) 0 0%Q (-0x1p-52)%float)
                eq_refl ltac:(vm_compute; reflexivity)) as H.
  cbv zeta in H. simpl feature_index in H. simpl threshold in H.
  simpl info_gain in H.
  split; [apply H|]. split; [apply H|]. split; [apply H|apply H].
Defined.

(** C2 as stated fails: the returned gain can be negative.  On
    [X_rounding], [y_rounding] the only split with two non-empty sides
    leaves the class proportions unchanged, so that its exact gain is 0;
    every entropy is the float 1.5, and [0.2 * 1.5 + 0.8 * 1.5] is rounded
    above 1.5: the search returns that split with the gain [-2^-52]. *)
Lemma best_split_negative_gain :
  rows X_rounding <> [] /\
  length y_rounding = length (rows X_rounding) /\
  best_split (A := binary64 log2_dyadic) X_rounding y_rounding
  = Ok (Some (@Build_split (binary64 log2_dyadic) 0 0%Q (-0x1p-52)%float)) /\
  (-0x1p-52 <? 0)%float = true /\
  entropy (A := binary64 log2_dyadic) y_rounding = 1.5%float /\
  candidate_gain (A := exact) X_rounding y_rounding (0, 0%Q) = 0%R.
Proof.
  split; [discriminate|]. split; [reflexivity|].
  split; [vm_compute; reflexivity|]. split; [reflexivity|].
  split; [vm_compute; reflexivity|]. apply rounding_gain_exact.
Qed.

(** C3.  On a well-formed input [fit] terminates: the fuel never runs out,
    every recursive call is one level deeper and on a strictly smaller,
    non-empty subset, and when [max_depth] is set no leaf of the returned
    tree is deeper than [max_depth]. *)
Theorem fit_terminates {A : Arithmetic}
    (self : DecisionTreeClassifier) (X : ndarray)
    (y : list Z) :
  well_formed X y ->
  (exists r, fit self X y = Some r) /\
  (forall fuel, length (rows X) < fuel ->
                build_tree_fuel fuel self X y 0 = build_tree self X y 0) /\
  (forall path side X1 y1 d1 X2 y2 d2,
      call_at self path (X, y, 0) (X1, y1, d1) ->
      child_call self side (X1, y1, d1) (X2, y2, d2) ->
      d2 = d1 + 1 /\
      0 < length (rows X2) < length (rows X1) /\
      length y2 = length (rows X2)) /\
  (forall clf node md,
      fit self X y = Some (Ok tt, clf) -> root clf = Some node ->
      max_depth self = Some md -> height node <= md).
Proof.
  intros (_ & _ & Hlen). split; [|split; [|split]].
  - destruct (build_tree_Builds self X y 0 Hlen) as (r & E & _).
    rewrite fit_build_tree, E. destruct r; eauto.
  - intros fuel Hfuel. now apply build_tree_fuel_enough.
  - intros path side X1 y1 d1 X2 y2 d2 Hcall Hchild.
    destruct (call_at_sizes _ _ _ _ Hcall X y 0 X1 y1 d1 eq_refl eq_refl Hlen)
      as (_ & Hl1 & _ & _).
    destruct (child_call_decreases _ _ _ _ _ _ _ _ Hchild Hl1)
      as (-> & Hl2 & Hs & _).
    split; [reflexivity|]. split; [lia|assumption].
  - intros clf node md Hfit Hroot Hmd.
    pose proof (fit_Builds self X y clf node Hlen Hfit Hroot) as B.
    pose proof (Builds_height self X y 0 _ B node md eq_refl Hmd). lia.
Qed.

Lemma fit_terminates_witness :
  exists r, fit (init (Some 1) 2) X_scenario y_scenario = Some r.
Proof.
  apply (fit_terminates (init (Some 1) 2) X_scenario y_scenario).
  split; [discriminate|]. split; [repeat constructor|reflexivity].
Defined.

(** C4, as the code has it.  Every leaf of the tree returned by [fit] on a
    well-formed input is the leaf of a call [build_tree(X', y', depth)]
    where [y'] holds a single distinct label, or has fewer than
    [min_samples_split] samples, or [depth] is the configured maximum depth,
    or the split search on [(X', y')] returned None. *)
Theorem leaf_reasons {A : Arithmetic}
    (self : DecisionTreeClassifier) (X : ndarray)
    (y : list Z) (clf : DecisionTreeClassifier) (node : Node) :
  well_formed X y ->
  fit self X y = Some (Ok tt, clf) -> root clf = Some node ->
  forall path v,
    node_at node path = Some (Leaf v) ->
    exists X' y',
      call_at self path (X, y, 0) (X', y', length path) /\
      make_leaf y' = Ok (Leaf v) /\
      (single_class y'
       \/ length y' < min_samples_split self
       \/ max_depth self = Some (length path)
       \/ best_split X' y' = Ok None).
Proof.
  intros (_ & _ & Hlen) Hfit Hroot path v Hat.
  pose proof (fit_Builds self X y clf node Hlen Hfit Hroot) as B.
  destruct (node_at_call_at self path X y 0 node (Leaf v) B Hlen Hat)
    as (X' & y' & Hcall & Hlen' & B').
  simpl in Hcall, B'. exists X', y'. split; [exact Hcall|].
  inversion B'; subst.
  - split; [congruence|].
    match goal with
    | Hs : stopping _ _ _ _ = true |- _ =>
        apply (stopping_iff self X' y' (length path) Hlen') in Hs;
        destruct Hs as [(md & Hmd & Hle)|[?|?]]; auto
    end.
    right. right. left. rewrite Hmd. f_equal.
    pose proof (call_at_depth_bound self path _ _ Hcall md Hmd) as Hb.
    simpl in Hb. lia.
  - split; [congruence|auto].
Qed.

Lemma leaf_reasons_witness :
  exists X' y',
    call_at (init None 2) [true] (X_scenario, y_scenario, 0) (X', y', 1) /\
    make_leaf y' = Ok (Leaf 1) /\
    (single_class y'
     \/ length y' < min_samples_split (init None 2)
     \/ max_depth (init None 2) = Some 1
     \/ best_split X' y' = Ok None).
Proof.
  refine (leaf_reasons (init None 2) X_scenario y_scenario _ _ _
            scenario_fit eq_refl [true] 1%Z eq_refl).
  split; [discriminate|]. split; [repeat constructor|reflexivity].
Defined.

(** C4 as stated fails: the tree fitted on [X_tied], [y_tied] is a single
    leaf whose subset has two distinct labels and [min_samples_split]
    samples, and no maximum depth is configured. *)
Lemma leaf_without_listed_reason :
  exists clf,
    fit (init None 2) X_tied y_tied = Some (Ok tt, clf) /\
    root clf = Some (Leaf 0) /\
    ~ single_class y_tied /\
    ~ length y_tied < min_samples_split (init None 2) /\
    max_depth (init None 2) = None.
Proof.
  eexists. split; [reflexivity|]. split; [reflexivity|].
  split; [|split; [simpl; lia|reflexivity]].
  intros (c & _ & Hall). unfold y_tied in Hall.
  inversion Hall as [|? ? <- Hall']; subst.
  inversion Hall' as [|? ? E _]; subst. discriminate.
Qed.

(** C5, as the code has it.  [fit] validates nothing and knows no
    InvalidDatasetError.  With mismatched lengths it returns the leaf of
    [y] when a stopping criterion holds at the root or the search has no
    candidate, and otherwise fails with the IndexError of [y[left_mask]]
    inside [best_split]; with zero rows and no label it fails with the
    ValueError that [np.argmax] raises inside [build_tree]; with zero
    columns it returns the leaf of [y].  The leaf of [y] holds
    [np.argmax(np.bincount(y))] and is itself an error when that is. *)
Theorem fit_unvalidated {A : Arithmetic}
    (self : DecisionTreeClassifier) (X : ndarray)
    (y : list Z) :
  (length y <> length (rows X) ->
   (stopping self X y 0 = true \/ candidates X = [] ->
    fit self X y
    = Some match make_leaf y with
           | Ok node => (Ok tt, fitted self X y node)
           | Raise e => (Raise e, assign_sizes self X y)
           end) /\
   (stopping self X y 0 = false -> candidates X <> [] ->
    fit self X y = Some (Raise IndexError, assign_sizes self X y))) /\
  (rows X = [] -> y = [] ->
   fit self X y = Some (Raise ValueError, assign_sizes self X y)) /\
  (ncols X = 0 ->
   fit self X y
   = Some match make_leaf y with
          | Ok node => (Ok tt, fitted self X y node)
          | Raise e => (Raise e, assign_sizes self X y)
          end).
Proof.
  split; [|split].
  - intros Hlen. split.
    + intros H. rewrite fit_build_tree, build_tree_root_leaf by assumption.
      now destruct (make_leaf y).
    + intros Hstop Hc. rewrite fit_build_tree.
      now rewrite build_tree_mismatch.
  - intros Hrows ->. rewrite fit_build_tree.
    rewrite build_tree_root_leaf by (right; now apply candidates_no_rows).
    reflexivity.
  - intros Hcols. rewrite fit_build_tree.
    rewrite build_tree_root_leaf by (right; now apply candidates_no_columns).
    now destruct (make_leaf y).
Qed.

Lemma fit_unvalidated_witness :
  fit (init None 2) {| ncols := 1; rows := [[0%Q]] |} [1; 1]%Z
  = Some (Ok tt,
          fitted (init None 2) {| ncols := 1; rows := [[0%Q]] |}
            [1; 1]%Z (Leaf 1)) /\
  fit (init None 2) {| ncols := 1; rows := [[0%Q]; [1%Q]] |} [0; 1; 1]%Z
  = Some (Raise IndexError,
          assign_sizes (init None 2) {| ncols := 1; rows := [[0%Q]; [1%Q]] |}
            [0; 1; 1]%Z) /\
  fit (init None 2) {| ncols := 1; rows := [] |} []
  = Some (Raise ValueError,
          assign_sizes (init None 2) {| ncols := 1; rows := [] |} []) /\
  fit (init None 2) {| ncols := 0; rows := [[]; []] |} y_tied
  = Some (Ok tt,
          fitted (init None 2) {| ncols := 0; rows := [[]; []] |}
            y_tied (Leaf 0)).
Proof.
  split; [|split; [|split]].
  - apply (proj1 (proj1 (fit_unvalidated (init None 2)
                           {| ncols := 1; rows := [[0%Q]] |} [1; 1]%Z)
                    ltac:(discriminate))).
    left. reflexivity.
  - apply (proj2 (proj1 (fit_unvalidated (init None 2)
                           {| ncols := 1; rows := [[0%Q]; [1%Q]] |}
                           [0; 1; 1]%Z)
                    ltac:(discriminate)));
      [reflexivity|discriminate].
  - apply (proj1 (proj2 (fit_unvalidated (init None 2)
                           {| ncols := 1; rows := [] |} []))); reflexivity.
  - apply (proj2 (proj2 (fit_unvalidated (init None 2)
                           {| ncols := 0; rows := [[]; []] |} y_tied))).
    reflexivity.
Defined.

(** C5 as stated fails: [fit] returns a fitted tree, and raises nothing, on
    an input without columns and on an input with more labels than rows. *)
Lemma fit_accepts_malformed :
  (exists clf,
      fit (init None 2) {| ncols := 0; rows := [[]; []] |} y_tied
      = Some (Ok tt, clf)) /\
  (exists clf,
      fit (init None 2) {| ncols := 1; rows := [[0%Q]] |} [1; 1]%Z
      = Some (Ok tt, clf)).
Proof. split; eexists; reflexivity. Qed.







(** C8, as the code has it.  On a subset with as many labels as rows, the
    split search returns None exactly when every candidate leaves one side
    empty, which is the case when [X] has no row or no feature; a candidate
    with two non-empty sides is returned even when its gain is zero.
    Stated in exact arithmetic. *)
Theorem best_split_None_iff (X : ndarray) (y : list Z) :
  (length y = length (rows X) ->
   (best_split X y = Ok None <->
    forall c, In c (candidates X) -> ~ viable X y c)) /\
  (rows X = [] -> best_split X y = Ok None) /\
  (ncols X = 0 -> best_split X y = Ok None).
Proof.
  split; [apply best_split_None|]. split.
  - intros Hrows. now apply best_split_no_candidates, candidates_no_rows.
  - intros Hcols. now apply best_split_no_candidates, candidates_no_columns.
Qed.

Lemma best_split_None_iff_witness :
  (best_split X_tied y_tied = Ok None <->
   forall c, In c (candidates X_tied) -> ~ viable X_tied y_tied c) /\
  best_split {| ncols := 1; rows := [] |} [] = Ok None /\
  best_split {| ncols := 0; rows := [[]; []] |} y_tied = Ok None.
Proof.
  split; [|split].
  - exact (proj1 (best_split_None_iff X_tied y_tied) eq_refl).
  - exact (proj1 (proj2 (best_split_None_iff {| ncols := 1; rows := [] |} []))
             eq_refl).
  - exact (proj2 (proj2 (best_split_None_iff
                           {| ncols := 0; rows := [[]; []] |} y_tied))
             eq_refl).
Defined.

(** C8 as stated fails: on [X_mixed], [y_mixed] every candidate has zero
    gain or an empty side, and the split search returns a candidate. *)
Lemma best_split_zero_gain_returned :
  (forall c, In c (candidates X_mixed) ->
             candidate_gain X_mixed y_mixed c = 0%R
             \/ left_labels X_mixed y_mixed c = []
             \/ right_labels X_mixed y_mixed c = []) /\
  best_split X_mixed y_mixed <> Ok None /\
  exists best, best_split X_mixed y_mixed = Ok (Some best)
               /\ info_gain best = 0%R.
Proof.
  split; [|split].
  - intros c Hc. change (candidates X_mixed) with [(0%nat, 0%Q); (0%nat, 1%Q)] in Hc.
    destruct Hc as [<-|[<-|[]]].
    + left. apply mixed_gain_0.
    + right. right. reflexivity.
  - rewrite mixed_best_split. discriminate.
  - eexists. split; [apply mixed_best_split|]. apply mixed_gain_0.
Qed.

(** C9.  On [X = [[0],[1],[2],[3]]], [y = [0,0,1,1]] with
    [min_samples_split = 2] and no depth bound, [fit] builds a root decision
    node on feature 0 with a threshold in [1, 2) and a positive gain, and
    the fitted tree predicts 0 for [0.5] and 1 for [2.5].  Stated in exact
    arithmetic. *)
Theorem scenario_fit_predict :
  exists clf t g left_node right_node,
    fit (init None 2) X_scenario y_scenario = Some (Ok tt, clf) /\
    root clf = Some (Decision 0 t g left_node right_node) /\
    (1 <= t)%Q /\ (t < 2)%Q /\ (0 < g)%R /\
    predict_single [1 # 2]%Q (Decision 0 t g left_node right_node) = Ok 0%Z /\
    predict_single [5 # 2]%Q (Decision 0 t g left_node right_node) = Ok 1%Z /\
    predict clf {| ncols := 1; rows := [[1 # 2]; [5 # 2]]%Q |} = Ok [0; 1]%Z.
Proof.
  eexists. exists 1%Q. eexists. exists (Leaf 0), (Leaf 1).
  split; [apply scenario_fit|]. split; [reflexivity|].
  split; [discriminate|]. split; [reflexivity|]. split.
  - rewrite scenario_gain_1. apply scenario_entropy_pos.
  - repeat split.
Qed.

(** C10.  A label below zero makes [np.bincount] fail in the leaf that
    receives it: on every well-formed input with a negative label, [fit]
    raises ValueError instead of returning a fitted tree. *)
Theorem fit_negative_label {A : Arithmetic}
    (self : DecisionTreeClassifier) (X : ndarray)
    (y : list Z) :
  well_formed X y ->
  Exists (fun v => (v < 0)%Z) y ->
  fit self X y = Some (Raise ValueError, assign_sizes self X y).
Proof.
  intros (_ & _ & Hlen) Hneg.
  assert (~ nonnegative y) as Hnn.
  { unfold nonnegative. intros Hall. apply Exists_exists in Hneg.
    destruct Hneg as (v & Hv & Hlt). rewrite Forall_forall in Hall.
    specialize (Hall v Hv). lia. }
  destruct (build_tree_Builds self X y 0 Hlen) as (r & E & B).
  rewrite (Builds_negative self X y 0 r B Hlen Hnn) in E.
  rewrite fit_build_tree. now rewrite E.
Qed.

Lemma fit_negative_label_witness :
  fit (init None 2) {| ncols := 1; rows := [[0%Q]] |} [(-1)%Z]
  = Some (Raise ValueError,
          assign_sizes (init None 2) {| ncols := 1; rows := [[0%Q]] |}
            [(-1)%Z]).
Proof.
  apply (fit_negative_label (init None 2) {| ncols := 1; rows := [[0%Q]] |}
           [(-1)%Z]).
  - split; [discriminate|]. split; [repeat constructor|reflexivity].
  - constructor. reflexivity.
Defined.

(** * Further properties of the code

    X1 and X7 are stated in exact arithmetic; the others hold in every
    arithmetic. *)

(** ** Boolean masks on paired arrays *)

Lemma combine_select_In {A B : Type} (mask : list bool) (a : list A) (b : list B) p :
  In p (combine (select mask a) (select mask b)) -> In p (combine a b).
Proof.
  revert a b; induction mask as [|m mask IH]; intros [|x a] [|z b]; simpl;
    try tauto.
  - destruct m; simpl; [tauto|]. now rewrite combine_nil.
  - destruct m; simpl; intros H.
    + destruct H as [H|H]; auto.
    + auto.
Qed.

Lemma select_map_In_true {A B : Type} (f : A -> bool) (a : list A) (b : list B) x l :
  In (x, l) (combine a b) -> f x = true -> In l (select (map f a) b).
Proof.
  revert b; induction a as [|x0 a IH]; intros [|l0 b]; simpl; try tauto.
  intros [[= -> ->]|H] Hf.
  - rewrite Hf. now left.
  - destruct (f x0); [right|]; auto.
Qed.

Lemma select_map_In_false {A B : Type} (f : A -> bool) (a : list A) (b : list B) x l :
  In (x, l) (combine a b) -> f x = false ->
  In l (select (invert (map f a)) b).
Proof.
  revert b; induction a as [|x0 a IH]; intros [|l0 b]; simpl; try tauto.
  intros [[= -> ->]|H] Hf.
  - rewrite Hf. now left.
  - destruct (f x0); simpl; [|right]; auto.
Qed.

(** A property of the two parts of a masked pair of arrays holds of the
    whole. *)
Lemma Forall2_select_merge {A B : Type} (f : A -> bool) (P : A -> B -> Prop)
    (a : list A) (b : list B) :
  length a = length b ->
  Forall2 (fun x l => f x = true -> P x l) (select (map f a) a)
    (select (map f a) b) ->
  Forall2 (fun x l => f x = false -> P x l) (select (invert (map f a)) a)
    (select (invert (map f a)) b) ->
  Forall2 P a b.
Proof.
  revert b; induction a as [|x a IH]; intros [|l b] Hlen Ht Hf;
    simpl in *; try discriminate; [constructor|].
  injection Hlen as Hlen.
  destruct (f x) eqn:E; simpl in *.
  - inversion Ht; subst. constructor; auto.
  - inversion Hf; subst. constructor; auto.
Qed.

Lemma Forall2_impl_In {A B : Type} (P Q : A -> B -> Prop) (a : list A) (b : list B) :
  (forall x l, In x a -> P x l -> Q x l) -> Forall2 P a b -> Forall2 Q a b.
Proof.
  intros H F. induction F as [|x l a b HP F IH]; constructor.
  - apply H; [now left|assumption].
  - apply IH. intros x' l' Hin. apply H. now right.
Qed.

Lemma mapM_Forall2 {A B : Type} (f : A -> result B) (a : list A) (b : list B) :
  Forall2 (fun x l => f x = Ok l) a b -> mapM f a = Ok b.
Proof.
  induction 1 as [|x l a b Hx _ IH]; simpl; [reflexivity|].
  now rewrite Hx, IH.
Qed.

Lemma mapM_inv {A B : Type} (f : A -> result B) (a : list A) (b : list B) :
  mapM f a = Ok b -> Forall2 (fun x l => f x = Ok l) a b.
Proof.
  revert b; induction a as [|x a IH]; simpl; intros b H.
  - injection H as <-. constructor.
  - destruct (f x) as [l|] eqn:E; simpl in H; [|discriminate].
    destruct (mapM f a) as [ls|]; simpl in H; [|discriminate].
    injection H as <-. constructor; auto.
Qed.

Lemma split_mask_map {A : Arithmetic} (X : ndarray) (best : split) :
  split_mask X best
  = map (fun r => Qle_bool (nth (feature_index best) r 0%Q) (threshold best))
      (rows X).
Proof. unfold split_mask, le_mask, column. now rewrite map_map. Qed.

Lemma subset_rectangular (X : ndarray) (y : list Z) mask X' y' :
  subset X y mask = Ok (X', y') -> rectangular X -> rectangular X'.
Proof.
  intros E Hr. apply subset_inv in E. destruct E as (-> & _ & _ & _).
  unfold rectangular in *. simpl. rewrite Forall_forall in *.
  intros r Hin. apply Hr. now apply select_In in Hin.
Qed.

Lemma subset_consistent (X : ndarray) (y : list Z) mask X' y' :
  subset X y mask = Ok (X', y') -> consistent X y -> consistent X' y'.
Proof.
  intros E Hc. apply subset_inv in E. destruct E as (-> & -> & _ & _).
  intros x l x' l' H1 H2 Hs. simpl in *.
  apply combine_select_In in H1, H2. eapply Hc; eauto.
Qed.

(** ** Fitting to purity *)

Lemma in_combine_exists {A B : Type} (a : list A) (b : list B) (l : B) :
  length a = length b -> In l b -> exists x, In (x, l) (combine a b).
Proof.
  revert b; induction a as [|x a IH]; intros [|l0 b] Hlen; simpl in *;
    try discriminate; try tauto.
  injection Hlen as Hlen. intros [->|H].
  - exists x. now left.
  - destruct (IH b Hlen H) as (x' & Hx'). exists x'. now right.
Qed.

(** When no threshold separates the subset, any two rows are ordered the
    same way on every feature. *)
Lemma no_split_le (X : ndarray) (y : list Z) x l x' l' j :
  length y = length (rows X) -> best_split X y = Ok None ->
  In (x, l) (combine (rows X) y) -> In (x', l') (combine (rows X) y) ->
  j < ncols X -> (nth j x' 0 <= nth j x 0)%Q.
Proof.
  intros Hlen Hnone Hx Hx' Hj.
  pose proof (proj1 (best_split_None X y Hlen) Hnone) as Hnv.
  assert (In (nth j x 0%Q) (column X j)) as Hv.
  { unfold column. apply (in_map (fun r => nth j r 0%Q)).
    eapply in_combine_l; eauto. }
  destruct (candidates_cover X j _ Hj Hv) as (t & Hc & Et).
  specialize (Hnv (j, t) Hc).
  assert (le_mask (column X j) t
          = map (fun r => Qle_bool (nth j r 0%Q) t) (rows X)) as Em
    by (unfold le_mask, column; now rewrite map_map).
  assert (In l (left_labels X y (j, t))) as Hl.
  { unfold left_labels. simpl. rewrite Em.
    apply (select_map_In_true (fun r => Qle_bool (nth j r 0%Q) t) _ _ x l Hx).
    apply Qle_bool_iff. rewrite Et. apply Qle_refl. }
  destruct (Qle_bool (nth j x' 0%Q) t) eqn:E.
  - apply Qle_bool_iff in E. now rewrite Et.
  - exfalso. apply Hnv. split.
    + intros E0. rewrite E0 in Hl. destruct Hl.
    + unfold right_labels. simpl. rewrite Em.
      pose proof (select_map_In_false
                    (fun r => Qle_bool (nth j r 0%Q) t) _ _ x' l' Hx' E) as Hr.
      intros E0. rewrite E0 in Hr. destruct Hr.
Qed.

Lemma no_split_single_class (X : ndarray) (y : list Z) :
  length y = length (rows X) -> y <> [] -> consistent X y ->
  best_split X y = Ok None -> single_class y.
Proof.
  intros Hlen Hy Hc Hnone.
  destruct y as [|l0 y'] eqn:Ey; [contradiction|]. rewrite <- Ey in *.
  exists l0. split; [assumption|].
  apply Forall_forall. intros l Hl.
  assert (In l0 y) as Hl0 by (rewrite Ey; now left).
  destruct (in_combine_exists (rows X) y l0 (eq_sym Hlen) Hl0) as (x0 & Hx0).
  destruct (in_combine_exists (rows X) y l (eq_sym Hlen) Hl) as (x & Hx).
  apply (Hc x0 l0 x l Hx0 Hx).
  intros j Hj. apply Qle_antisym.
  - eapply (no_split_le X y x l x0 l0); eauto.
  - eapply (no_split_le X y x0 l0 x l); eauto.
Qed.

Lemma stopping_single_class {A : Arithmetic}
    (self : DecisionTreeClassifier) X y depth :
  length y = length (rows X) -> y <> [] ->
  max_depth self = None -> min_samples_split self <= 2 ->
  stopping self X y depth = true -> single_class y.
Proof.
  intros Hlen Hy Hmd Hmss Hstop.
  apply (stopping_iff self X y depth Hlen) in Hstop.
  destruct Hstop as [(md & E & _)|[Hn|Hs]]; [congruence| |assumption].
  destruct y as [|c [|c' y']]; [contradiction| |simpl in Hn; lia].
  exists c. split; [discriminate|repeat constructor].
Qed.

Lemma single_class_leaf {A : Arithmetic} (y : list Z) :
  single_class y -> nonnegative y ->
  exists c, make_leaf y = Ok (Leaf c) /\ Forall (eq c) y.
Proof.
  intros (c & Hy & Hall) Hnn.
  destruct (make_leaf_majority y Hy Hnn) as (v & E & Hv & _).
  rewrite Forall_forall in Hall. rewrite <- (Hall v Hv) in E.
  exists c. split; [exact E|now apply Forall_forall].
Qed.

Lemma predict_single_decision {A : Arithmetic} (x : list Q) fi t g l r :
  fi < length x ->
  predict_single x (Decision fi t g l r)
  = if Qle_bool (nth fi x 0%Q) t then predict_single x l
    else predict_single x r.
Proof.
  intros Hfi. simpl. now rewrite (nth_error_nth' x 0%Q Hfi).
Qed.

(** Grown without a depth bound and down to single samples, the tree
    returns for every training row its own label. *)
Lemma Builds_fits_training (self : DecisionTreeClassifier) X y depth r :
  Builds self X y depth r ->
  length y = length (rows X) -> rectangular X -> y <> [] ->
  nonnegative y -> consistent X y ->
  max_depth self = None -> min_samples_split self <= 2 ->
  exists node, r = Ok node /\
    Forall2 (fun x l => predict_single x node = Ok l) (rows X) y.
Proof.
  assert (forall l : list Z, 0 < length l -> l <> []) as Hne
    by (intros [|] ?; [simpl in *; lia|discriminate]).
  assert (forall (c : Z) (a : list (list Q)) (b : list Z),
             length b = length a -> Forall (eq c) b ->
             Forall2 (fun (x : list Q) l => Ok c = Ok l) a b) as Hconst.
  { intros c a. induction a as [|x a IH]; intros [|l b] Hl Hall;
      simpl in *; try discriminate; constructor.
    - inversion Hall; subst. reflexivity.
    - inversion Hall; subst. apply IH; auto. }
  induction 1 as
    [X y depth Hstop
    |X y depth Hstop Hbest
    |X y depth best Xl yl e Hstop Hbest El Bl IHl
    |X y depth best Xl yl Xr yr ln e Hstop Hbest El Bl IHl Er Br IHr
    |X y depth best Xl yl Xr yr ln rn Hstop Hbest El Bl IHl Er Br IHr];
    intros Hlen Hrect Hy Hnn Hcons Hmd Hmss.
  - pose proof (stopping_single_class self X y depth Hlen Hy Hmd Hmss Hstop) as Hs.
    destruct (single_class_leaf y Hs Hnn) as (c & -> & Hall).
    exists (Leaf c). split; [reflexivity|]. simpl. now apply Hconst.
  - pose proof (no_split_single_class X y Hlen Hy Hcons Hbest) as Hs.
    destruct (single_class_leaf y Hs Hnn) as (c & -> & Hall).
    exists (Leaf c). split; [reflexivity|]. simpl. now apply Hconst.
  - exfalso.
    destruct (child_sizes X y best Xl yl false Hlen Hbest El) as [Hll Hsl].
    destruct (subset_sizes _ _ _ _ _ Hlen El) as (_ & _ & Eyl).
    destruct IHl as (node & [=] & _); auto.
    + eapply subset_rectangular; eauto.
    + apply Hne; lia.
    + rewrite Eyl. now apply select_nonnegative.
    + eapply subset_consistent; eauto.
  - exfalso.
    destruct (child_sizes X y best Xr yr true Hlen Hbest Er) as [Hlr Hsr].
    destruct (subset_sizes _ _ _ _ _ Hlen Er) as (_ & _ & Eyr).
    destruct IHr as (node & [=] & _); auto.
    + eapply subset_rectangular; eauto.
    + apply Hne; lia.
    + rewrite Eyr. now apply select_nonnegative.
    + eapply subset_consistent; eauto.
  - destruct (child_sizes X y best Xl yl false Hlen Hbest El) as [Hll Hsl].
    destruct (child_sizes X y best Xr yr true Hlen Hbest Er) as [Hlr Hsr].
    destruct (subset_sizes _ _ _ _ _ Hlen El) as (_ & _ & Eyl).
    destruct (subset_sizes _ _ _ _ _ Hlen Er) as (_ & _ & Eyr).
    destruct IHl as (nl & [= <-] & Fl); auto.
    { eapply subset_rectangular; eauto. }
    { apply Hne; lia. }
    { rewrite Eyl. now apply select_nonnegative. }
    { eapply subset_consistent; eauto. }
    destruct IHr as (nr & [= <-] & Fr); auto.
    { eapply subset_rectangular; eauto. }
    { apply Hne; lia. }
    { rewrite Eyr. now apply select_nonnegative. }
    { eapply subset_consistent; eauto. }
    eexists. split; [reflexivity|].
    assert (feature_index best < ncols X) as Hfi.
    { destruct (best_split_Some X y best Hlen Hbest)
        as (_ & _ & before & after & Ec).
      assert (In (feature_index best, threshold best) (candidates X)) as Hc
        by (rewrite Ec; apply in_app_iff; right; now left).
      now apply candidates_In in Hc. }
    apply subset_inv in El, Er.
    destruct El as (-> & -> & _ & _). destruct Er as (-> & -> & _ & _).
    simpl in Fl, Fr. rewrite split_mask_map in Fl, Fr.
    set (f := fun r : list Q =>
                Qle_bool (nth (feature_index best) r 0%Q) (threshold best))
      in *.
    apply Forall2_impl_In
      with (P := fun x l =>
                   (if f x then predict_single x ln else predict_single x rn)
                   = Ok l).
    + intros x l Hin Hp. rewrite predict_single_decision; [exact Hp|].
      unfold rectangular in Hrect. rewrite Forall_forall in Hrect.
      rewrite (Hrect x Hin). exact Hfi.
    + apply (Forall2_select_merge f); [now symmetry| |].
      * eapply Forall2_impl_In; [|exact Fl].
        intros x l _ Hp Hf. now rewrite Hf.
      * eapply Forall2_impl_In; [|exact Fr].
        intros x l _ Hp Hf. now rewrite Hf.
Qed.

(** ** Leaves, sizes and decision nodes of a fitted tree *)

Lemma make_leaf_In {A : Arithmetic}
    (y : list Z) (v : Z) : make_leaf y = Ok (Leaf v) -> In v y.
Proof.
  intros E.
  destruct y as [|h t] eqn:Ey; [discriminate|]. rewrite <- Ey in *.
  destruct (existsb (fun v => (v <? 0)%Z) y) eqn:Hneg.
  - unfold make_leaf, bincount in E. rewrite Hneg in E. discriminate.
  - apply existsb_negative in Hneg.
    destruct (make_leaf_majority y) as (v' & E' & Hin & _); auto.
    + rewrite Ey. discriminate.
    + congruence.
Qed.

Lemma Builds_leaf_values {A : Arithmetic}
    (self : DecisionTreeClassifier) X y depth r :
  Builds self X y depth r -> length y = length (rows X) ->
  forall node, r = Ok node -> incl (leaf_values node) y.
Proof.
  induction 1 as
    [X y depth Hstop
    |X y depth Hstop Hbest
    |X y depth best Xl yl e Hstop Hbest El Bl IHl
    |X y depth best Xl yl Xr yr ln e Hstop Hbest El Bl IHl Er Br IHr
    |X y depth best Xl yl Xr yr ln rn Hstop Hbest El Bl IHl Er Br IHr];
    intros Hlen node Er'; try discriminate.
  - destruct (make_leaf_is_leaf y node Er') as (v & ->).
    intros v' [<-|[]]. now apply make_leaf_In.
  - destruct (make_leaf_is_leaf y node Er') as (v & ->).
    intros v' [<-|[]]. now apply make_leaf_In.
  - injection Er' as <-. simpl.
    destruct (child_sizes X y best Xl yl false Hlen Hbest El) as [Hll _].
    destruct (child_sizes X y best Xr yr true Hlen Hbest Er) as [Hlr _].
    destruct (subset_sizes _ _ _ _ _ Hlen El) as (_ & _ & Eyl).
    destruct (subset_sizes _ _ _ _ _ Hlen Er) as (_ & _ & Eyr).
    intros v Hv. apply in_app_iff in Hv. destruct Hv as [Hv|Hv].
    + apply (IHl Hll ln eq_refl) in Hv. rewrite Eyl in Hv.
      now apply select_In in Hv.
    + apply (IHr Hlr rn eq_refl) in Hv. rewrite Eyr in Hv.
      now apply select_In in Hv.
Qed.

Lemma predict_single_leaf_value {A : Arithmetic}
    (x : list Q) (node : Node) (v : Z) :
  predict_single x node = Ok v -> In v (leaf_values node).
Proof.
  induction node as [v0|fi t g l IHl r IHr]; simpl.
  - intros [= ->]. now left.
  - destruct (nth_error x fi) as [q|]; [|discriminate].
    destruct (Qle_bool q t); intros H; apply in_app_iff; auto.
Qed.

Lemma Builds_n_leaves {A : Arithmetic}
    (self : DecisionTreeClassifier) X y depth r :
  Builds self X y depth r -> length y = length (rows X) -> y <> [] ->
  forall node, r = Ok node -> n_leaves node <= length y.
Proof.
  assert (forall l : list Z, 0 < length l -> l <> []) as Hne
    by (intros [|] ?; [simpl in *; lia|discriminate]).
  assert (forall l : list Z, l <> [] -> 1 <= length l) as Hpos
    by (intros [|] ?; [contradiction|simpl; lia]).
  induction 1 as
    [X y depth Hstop
    |X y depth Hstop Hbest
    |X y depth best Xl yl e Hstop Hbest El Bl IHl
    |X y depth best Xl yl Xr yr ln e Hstop Hbest El Bl IHl Er Br IHr
    |X y depth best Xl yl Xr yr ln rn Hstop Hbest El Bl IHl Er Br IHr];
    intros Hlen Hy node Er'; try discriminate.
  - destruct (make_leaf_is_leaf y node Er') as (v & ->). simpl. auto.
  - destruct (make_leaf_is_leaf y node Er') as (v & ->). simpl. auto.
  - injection Er' as <-. simpl.
    destruct (child_sizes X y best Xl yl false Hlen Hbest El) as [Hll Hsl].
    destruct (child_sizes X y best Xr yr true Hlen Hbest Er) as [Hlr Hsr].
    destruct (subset_sizes _ _ _ _ _ Hlen El) as (_ & _ & Eyl).
    destruct (subset_sizes _ _ _ _ _ Hlen Er) as (_ & _ & Eyr).
    pose proof (select_invert_length (split_mask X best) y) as Hsum.
    rewrite split_mask_length in Hsum. specialize (Hsum (eq_sym Hlen)).
    rewrite <- Eyl, <- Eyr in Hsum.
    specialize (IHl Hll (Hne _ (proj1 Hsl)) ln eq_refl).
    specialize (IHr Hlr (Hne _ (proj1 Hsr)) rn eq_refl). lia.
Qed.

Lemma n_leaves_decisions {A : Arithmetic}
    (node : Node) : n_leaves node = S (n_decisions node).
Proof. induction node; simpl; lia. Qed.

Lemma height_le_decisions {A : Arithmetic}
    (node : Node) : height node <= n_decisions node.
Proof. induction node; simpl; lia. Qed.

Lemma call_at_incl {A : Arithmetic} (self : DecisionTreeClassifier) path c c' :
  call_at self path c c' -> incl (rows (fst (fst c'))) (rows (fst (fst c))).
Proof.
  induction 1 as [c|side path c c1 c2 Hchild Hrest IH].
  - apply incl_refl.
  - eapply incl_tran; [exact IH|].
    inversion Hchild; subst; simpl;
      match goal with
      | Hs : subset ?X _ ?m = Ok (?X', _) |- incl (rows ?X') (rows ?X) =>
          apply subset_inv in Hs; destruct Hs as (-> & _ & _ & _); simpl;
          intros r Hr; now apply select_In in Hr
      end.
Qed.

Lemma select_invert_exists {A B : Type} (f : A -> bool) (a : list A) (b : list B) :
  select (invert (map f a)) b <> [] -> exists x, In x a /\ f x = false.
Proof.
  revert b; induction a as [|x a IH]; intros [|l b]; simpl; try tauto.
  destruct (f x) eqn:E; simpl.
  - intros H. destruct (IH b H) as (x' & Hin & Hf). eauto.
  - intros _. eauto.
Qed.

Lemma gain_le_entropy (parent left_child right_child : list Z) :
  (gain parent left_child right_child <= entropy parent)%R.
Proof.
  unfold gain. exact_arithmetic.
  pose proof (entropy_nonneg left_child) as Hl.
  pose proof (entropy_nonneg right_child) as Hr.
  assert (forall a b : nat, 0 <= INR a / INR b)%R as Hw.
  { intros a b. destruct b as [|b].
    - simpl. unfold Rdiv. rewrite Rinv_0. lra.
    - apply Rmult_le_pos; [apply pos_INR|].
      left. apply Rinv_0_lt_compat, lt_0_INR. lia. }
  pose proof (Hw (length left_child) (length parent)).
  pose proof (Hw (length right_child) (length parent)).
  nra.
Qed.

Lemma scenario_consistent : consistent X_scenario y_scenario.
Proof.
  intros x l x' l' H1 H2 Hs.
  specialize (Hs 0 (Nat.lt_0_succ 0)).
  simpl in H1, H2.
  destruct H1 as [[= <- <-]|[[= <- <-]|[[= <- <-]|[[= <- <-]|[]]]]];
    destruct H2 as [[= <- <-]|[[= <- <-]|[[= <- <-]|[[= <- <-]|[]]]]];
    try reflexivity; exfalso; revert Hs; unfold Qeq; simpl; discriminate.
Qed.

Lemma scenario_well_formed : well_formed X_scenario y_scenario.
Proof. split; [discriminate|]. split; [repeat constructor|reflexivity]. Qed.

Lemma scenario_nonnegative : nonnegative y_scenario.
Proof. repeat constructor; discriminate. Qed.

(** X1.  Training round trip.  When no two samples have the same features
    and different labels, the labels are non-negative, no depth bound is set
    and [min_samples_split <= 2], [fit] returns a tree and [predict] on the
    training array returns exactly the training labels.  Stated in exact
    arithmetic. *)
Theorem fit_predict_training (self : DecisionTreeClassifier) (X : ndarray)
    (y : list Z) :
  well_formed X y -> nonnegative y -> consistent X y ->
  max_depth self = None -> min_samples_split self <= 2 ->
  exists clf, fit self X y = Some (Ok tt, clf) /\ predict clf X = Ok y.
Proof.
  intros (Hrows & Hrect & Hlen) Hnn Hcons Hmd Hmss.
  assert (y <> []) as Hy by (intros ->; destruct (rows X); [auto|discriminate]).
  destruct (build_tree_Builds self X y 0 Hlen) as (r & E & B).
  destruct (Builds_fits_training self X y 0 r B Hlen Hrect Hy Hnn Hcons Hmd Hmss)
    as (node & -> & F).
  exists (fitted self X y node). split.
  - rewrite fit_build_tree. now rewrite E.
  - unfold predict. simpl. now apply mapM_Forall2.
Qed.

Lemma fit_predict_training_witness :
  exists clf,
    fit (init None 2) X_scenario y_scenario = Some (Ok tt, clf) /\
    predict clf X_scenario = Ok y_scenario.
Proof.
  apply (fit_predict_training (init None 2) X_scenario y_scenario
           scenario_well_formed scenario_nonnegative scenario_consistent
           eq_refl (le_n 2)).
Defined.

(** X2.  Every class that a fitted tree predicts, for any query, is one of
    the training labels. *)
Theorem predictions_are_training_labels {A : Arithmetic}
    (self : DecisionTreeClassifier)
    (X : ndarray) (y : list Z) (clf : DecisionTreeClassifier) :
  length y = length (rows X) ->
  fit self X y = Some (Ok tt, clf) ->
  forall X' out, predict clf X' = Ok out -> Forall (fun v => In v y) out.
Proof.
  intros Hlen Hfit X' out Hp.
  destruct (fit_inv _ _ _ _ Hfit) as (node & _ & Hroot).
  pose proof (fit_Builds self X y clf node Hlen Hfit Hroot) as B.
  pose proof (Builds_leaf_values self X y 0 _ B Hlen node eq_refl) as Hincl.
  unfold predict in Hp. rewrite Hroot in Hp. apply mapM_inv in Hp.
  induction Hp as [|x v xs vs Hx _ IH]; constructor; auto.
  apply Hincl. eapply predict_single_leaf_value; eauto.
Qed.

Lemma predictions_are_training_labels_witness :
  predict (fitted (init None 2) X_scenario y_scenario
             (Decision 0 1%Q (candidate_gain X_scenario y_scenario
                                (0%nat, 1%Q))
                (Leaf 0) (Leaf 1)))
    {| ncols := 1; rows := [[5 # 2]%Q; [1 # 2]%Q; [7]%Q] |}
  = Ok [1; 0; 1]%Z /\
  Forall (fun v => In v y_scenario) [1; 0; 1]%Z.
Proof.
  assert (Hp : predict (fitted (init None 2) X_scenario y_scenario
                          (Decision 0 1%Q
                             (candidate_gain X_scenario y_scenario
                                (0%nat, 1%Q))
                             (Leaf 0) (Leaf 1)))
                 {| ncols := 1; rows := [[5 # 2]%Q; [1 # 2]%Q; [7]%Q] |}
               = Ok [1; 0; 1]%Z) by reflexivity.
  split; [exact Hp|].
  exact (predictions_are_training_labels (init None 2) X_scenario y_scenario
           _ eq_refl scenario_fit _ _ Hp).
Defined.

(** X3.  A fitted tree has at most as many leaves as there are training
    samples, one decision node fewer than leaves, and a height below the
    number of samples. *)
Theorem fitted_tree_size {A : Arithmetic}
    (self : DecisionTreeClassifier) (X : ndarray)
    (y : list Z) (clf : DecisionTreeClassifier) (node : Node) :
  well_formed X y ->
  fit self X y = Some (Ok tt, clf) -> root clf = Some node ->
  n_leaves node <= length y /\
  n_decisions node = n_leaves node - 1 /\
  height node <= length y - 1.
Proof.
  intros (Hrows & _ & Hlen) Hfit Hroot.
  assert (y <> []) as Hy by (intros ->; destruct (rows X); [auto|discriminate]).
  pose proof (fit_Builds self X y clf node Hlen Hfit Hroot) as B.
  pose proof (Builds_n_leaves self X y 0 _ B Hlen Hy node eq_refl) as Hl.
  pose proof (n_leaves_decisions node). pose proof (height_le_decisions node).
  lia.
Qed.

Lemma fitted_tree_size_witness :
  n_leaves (Decision 0 1%Q (candidate_gain X_scenario y_scenario (0%nat, 1%Q))
              (Leaf 0) (Leaf 1)) <= length y_scenario.
Proof.
  apply (fitted_tree_size (init None 2) X_scenario y_scenario _ _
           scenario_well_formed scenario_fit eq_refl).
Defined.

(** X4.  What [build_tree] never splits.  Every decision node of a fitted
    tree was built from a subset of the training rows that has at least
    [min_samples_split] samples and more than one class, at a depth below
    [max_depth] when that is set; its feature index is below the number of
    columns, its threshold is a value of that feature in the subset and is
    exceeded by another such value, and the gain it records is the value
    that [information_gain] returned for the two sides of its split.  This
    holds whatever the arithmetic. *)
Theorem decision_node_invariants {A : Arithmetic}
    (self : DecisionTreeClassifier) (X : ndarray) (y : list Z)
    (clf : DecisionTreeClassifier) (node : Node) :
  well_formed X y ->
  fit self X y = Some (Ok tt, clf) -> root clf = Some node ->
  forall path fi t g l r,
    node_at node path = Some (Decision fi t g l r) ->
    exists X' y',
      call_at self path (X, y, 0) (X', y', length path) /\
      incl (rows X') (rows X) /\
      (forall md, max_depth self = Some md -> length path < md) /\
      min_samples_split self <= length y' /\
      ~ single_class y' /\
      fi < ncols X /\
      In t (column X' fi) /\
      (exists v, In v (column X' fi) /\ (t < v)%Q) /\
      information_gain y' (left_labels X' y' (fi, t))
        (right_labels X' y' (fi, t)) = Ok g.
Proof.
  intros (_ & _ & Hlen) Hfit Hroot path fi t g l r Hat.
  pose proof (fit_Builds self X y clf node Hlen Hfit Hroot) as B.
  destruct (node_at_call_at self path X y 0 node _ B Hlen Hat)
    as (X' & y' & Hcall & Hlen' & B').
  simpl in Hcall, B'. exists X', y'. split; [exact Hcall|].
  split; [exact (call_at_incl self path _ _ Hcall)|].
  destruct (call_at_sizes _ _ _ _ Hcall X y 0 X' y' (length path)
              eq_refl eq_refl Hlen) as (_ & _ & _ & Hcols).
  inversion B'; subst;
    try (match goal with
         | H : make_leaf _ = Ok (Decision _ _ _ _ _) |- _ =>
             apply make_leaf_is_leaf in H; destruct H; discriminate
         end).
  match goal with
  | Hs : stopping self X' y' _ = false,
    Hb : best_split X' y' = Ok (Some _) |- _ =>
      rename Hs into Hstop; rename Hb into Hbest
  end.
  assert (~ ((exists md, max_depth self = Some md /\ md <= length path)
             \/ length y' < min_samples_split self \/ single_class y'))
    as Hnot.
  { intros H. apply (stopping_iff self X' y' (length path) Hlen') in H.
    congruence. }
  destruct (best_split_Some X' y' best Hlen' Hbest)
    as ([Hl Hr] & Hg & before & after & Ec).
  assert (In (feature_index best, threshold best) (candidates X')) as Hc
    by (rewrite Ec; apply in_app_iff; right; now left).
  apply candidates_In in Hc. destruct Hc as [Hfi Ht].
  split; [intros md Hmd; eapply stopping_false_depth; eauto|].
  split; [apply Nat.nlt_ge; tauto|]. split; [tauto|].
  split; [rewrite <- Hcols; exact Hfi|].
  split; [now apply np_uniqueQ_In|]. split.
  - unfold right_labels, le_mask, column in Hr. simpl in Hr.
    rewrite map_map in Hr.
    destruct (select_invert_exists _ _ _ Hr) as (x & Hx & Hf).
    exists (nth (feature_index best) x 0%Q). split.
    + unfold column. now apply (in_map (fun r => nth (feature_index best) r 0%Q)).
    + apply Qnot_le_lt. intros Hle. apply Qle_bool_iff in Hle. congruence.
  - rewrite Hg. apply information_gain_ok.
    intros ->. apply Hl. unfold left_labels.
    destruct (le_mask _ _); reflexivity.
Qed.

Lemma decision_node_invariants_witness :
  exists X' y',
    call_at (init None 2) [] (X_scenario, y_scenario, 0) (X', y', 0) /\
    incl (rows X') (rows X_scenario) /\
    (forall md, max_depth (init None 2) = Some md -> 0 < md) /\
    min_samples_split (init None 2) <= length y' /\
    ~ single_class y' /\
    0 < ncols X_scenario /\
    In 1%Q (column X' 0) /\
    (exists v, In v (column X' 0) /\ (1 < v)%Q) /\
    information_gain y' (left_labels X' y' (0%nat, 1%Q))
      (right_labels X' y' (0%nat, 1%Q))
    = Ok (candidate_gain X_scenario y_scenario (0%nat, 1%Q)).
Proof.
  exact (decision_node_invariants (init None 2) X_scenario y_scenario _ _
           scenario_well_formed scenario_fit eq_refl [] 0 1%Q _ _ _ eq_refl).
Defined.

(** ** More on entropy and information gain *)

Lemma count_perm (c : Z) (y y' : list Z) :
  Permutation y y' -> count c y = count c y'.
Proof.
  intros H. rewrite !count_count_occ.
  now apply Permutation_count_occ.
Qed.

Lemma entropy_zero_iff (y : list Z) :
  y <> [] -> (entropy y = 0%R <-> single_class y).
Proof.
  intros Hy. split.
  - intros E. destruct y as [|a y'] eqn:Ey; [contradiction|].
    rewrite <- Ey in *. exists a. split; [assumption|].
    apply Forall_forall. intros b Hb.
    destruct (Z.eq_dec a b) as [|Hab]; [assumption|].
    assert (In a y) as Ha by (rewrite Ey; now left).
    pose proof (entropy_pos y a b Ha Hb Hab). lra.
  - intros (c & _ & Hall). now apply (entropy_single_class c).
Qed.

(** Two strictly increasing lists with the same elements are equal. *)
Lemma sorted_lt_unique (l1 l2 : list Z) :
  Sorted Z.lt l1 -> Sorted Z.lt l2 ->
  (forall x, In x l1 <-> In x l2) -> l1 = l2.
Proof.
  intros S1 S2.
  apply Sorted_StronglySorted in S1; [|intros a b c; apply Z.lt_trans].
  apply Sorted_StronglySorted in S2; [|intros a b c; apply Z.lt_trans].
  revert l2 S2. induction S1 as [|a l1 S1 IH Ha]; intros l2 S2 H.
  - destruct l2 as [|b l2]; [reflexivity|].
    destruct (proj2 (H b) (or_introl eq_refl)).
  - inversion S2 as [|b l2' S2' Hb]; subst.
    + destruct (proj1 (H a) (or_introl eq_refl)).
    + rewrite Forall_forall in Ha, Hb.
      assert (a = b) as ->.
      { destruct (proj1 (H a) (or_introl eq_refl)) as [E|Ea]; [auto|].
        destruct (proj2 (H b) (or_introl eq_refl)) as [E|Eb]; [auto|].
        specialize (Ha b Eb). specialize (Hb a Ea). lia. }
      f_equal. apply IH; [assumption|].
      intros x. split; intros Hx.
      * destruct (proj1 (H x) (or_intror Hx)) as [<-|]; [|assumption].
        specialize (Ha b Hx). lia.
      * destruct (proj2 (H x) (or_intror Hx)) as [<-|]; [|assumption].
        specialize (Hb b Hx). lia.
Qed.

Lemma np_unique_perm (y y' : list Z) :
  Permutation y y' -> np_unique y = np_unique y'.
Proof.
  intros Hp. apply sorted_lt_unique; try apply np_unique_sorted.
  intros c. rewrite !np_unique_In. split; intros H.
  - eapply Permutation_in; eauto.
  - eapply Permutation_in; [apply Permutation_sym|]; eauto.
Qed.

Lemma fold_left_ext_In {B C : Type} (f g : B -> C -> B) (l : list C) (b : B) :
  (forall b c, In c l -> f b c = g b c) -> fold_left f l b = fold_left g l b.
Proof.
  revert b; induction l as [|c l IH]; intros b H; simpl; [reflexivity|].
  rewrite (H b c) by now left. apply IH. intros; apply H; now right.
Qed.

(** X6.  Entropy does not depend on the order of the labels, whatever the
    arithmetic: [np.unique] sorts the classes, so that the same operations
    are made in the same order. *)
Theorem entropy_permutation {A : Arithmetic} (y y' : list Z) :
  Permutation y y' -> entropy y = entropy y'.
Proof.
  intros Hp. unfold entropy. cbv zeta.
  rewrite (np_unique_perm y y' Hp).
  apply fold_left_ext_In. intros e c _.
  unfold proportion. rewrite !select_map_filter.
  change (length (filter (fun v => (v =? c)%Z) y)) with (count c y).
  change (length (filter (fun v => (v =? c)%Z) y')) with (count c y').
  now rewrite (count_perm c y y' Hp), (Permutation_length Hp).
Qed.

Lemma entropy_permutation_witness :
  entropy y_scenario = entropy y_mixed.
Proof.
  apply (entropy_permutation y_scenario y_mixed).
  unfold y_scenario, y_mixed.
  apply perm_skip. eapply perm_trans; [apply perm_swap|].
  apply perm_skip. apply Permutation_refl.
Defined.

(** X7.  [information_gain] raises ZeroDivisionError on an empty parent.
    On a non-empty parent it returns a gain that is at most the entropy of
    the parent, and that equals it exactly when both children, if non-empty,
    hold a single class each: a perfect split.  Stated in exact
    arithmetic. *)
Theorem information_gain_contract (parent left_child right_child : list Z) :
  (parent = [] ->
   information_gain parent left_child right_child = Raise ZeroDivisionError) /\
  (parent <> [] ->
   exists g,
     information_gain parent left_child right_child = Ok g /\
     (g <= entropy parent)%R /\
     (left_child <> [] -> right_child <> [] ->
      (g = entropy parent <->
       single_class left_child /\ single_class right_child))).
Proof.
  split; [intros ->; reflexivity|].
  intros Hp. exists (gain parent left_child right_child).
  split; [now apply information_gain_ok|].
  split; [apply gain_le_entropy|].
  intros Hl Hr.
  rewrite <- (entropy_zero_iff left_child Hl).
  rewrite <- (entropy_zero_iff right_child Hr).
  assert (forall l : list Z, l <> [] -> 0 < INR (length l))%R as Hpos.
  { intros l Hne. apply lt_0_INR. destruct l; [contradiction|simpl; lia]. }
  pose proof (Hpos _ Hp) as Hn. pose proof (Hpos _ Hl) as Hnl.
  pose proof (Hpos _ Hr) as Hnr.
  pose proof (entropy_nonneg left_child) as Hel.
  pose proof (entropy_nonneg right_child) as Her.
  assert (0 < INR (length left_child) / INR (length parent))%R as Hwl
    by now apply Rdiv_lt_0_compat.
  assert (0 < INR (length right_child) / INR (length parent))%R as Hwr
    by now apply Rdiv_lt_0_compat.
  unfold gain. exact_arithmetic. split.
  - intros E. split; nra.
  - intros [-> ->]. lra.
Qed.

Lemma information_gain_contract_witness :
  information_gain [] [0%Z] [1%Z] = Raise ZeroDivisionError /\
  exists g,
    information_gain y_scenario [0; 0]%Z [1; 1]%Z = Ok g /\
    (g <= entropy y_scenario)%R /\
    ([0; 0]%Z <> [] -> [1; 1]%Z <> [] ->
     (g = entropy y_scenario <->
      single_class [0; 0]%Z /\ single_class [1; 1]%Z)).
Proof.
  split.
  - exact (proj1 (information_gain_contract [] [0%Z] [1%Z]) eq_refl).
  - apply (proj2 (information_gain_contract y_scenario [0; 0]%Z [1; 1]%Z)).
    discriminate.
Defined.

Lemma mapM_const {A B : Type} (v : B) (l : list A) :
  mapM (fun _ => Ok v) l = Ok (repeat v (length l)).
Proof. induction l as [|a l IH]; simpl; [reflexivity|]. now rewrite IH. Qed.

(** X8.  The majority-class baseline.  When a stopping criterion holds at
    the root ([max_depth = 0], fewer samples than [min_samples_split], or a
    single class), [fit] on non-negative labels returns a single leaf holding
    the majority label, and [predict] returns that label for every row of
    any array, whatever its width. *)
Theorem root_leaf_baseline {A : Arithmetic}
    (self : DecisionTreeClassifier) (X : ndarray)
    (y : list Z) :
  well_formed X y -> nonnegative y ->
  max_depth self = Some 0
  \/ length y < min_samples_split self
  \/ single_class y ->
  exists clf v,
    fit self X y = Some (Ok tt, clf) /\
    root clf = Some (Leaf v) /\
    majority_label y v /\
    forall X', predict clf X' = Ok (repeat v (length (rows X'))).
Proof.
  intros (Hrows & _ & Hlen) Hnn Hcrit.
  assert (y <> []) as Hy by (intros ->; destruct (rows X); [auto|discriminate]).
  assert (stopping self X y 0 = true) as Hstop.
  { apply (stopping_iff self X y 0 Hlen).
    destruct Hcrit as [H|[H|H]]; eauto. }
  destruct (make_leaf_majority y Hy Hnn) as (v & Eleaf & Hmaj).
  exists (fitted self X y (Leaf v)), v.
  split; [|split; [reflexivity|split; [exact Hmaj|]]].
  - rewrite fit_build_tree, build_tree_root_leaf by auto. now rewrite Eleaf.
  - intros X'. unfold predict. simpl. apply mapM_const.
Qed.

Lemma root_leaf_baseline_witness :
  exists clf v,
    fit (init (Some 0) 2) X_scenario y_scenario = Some (Ok tt, clf) /\
    root clf = Some (Leaf v) /\
    majority_label y_scenario v /\
    forall X', predict clf X' = Ok (repeat v (length (rows X'))).
Proof.
  apply (root_leaf_baseline (init (Some 0) 2) X_scenario y_scenario
           scenario_well_formed scenario_nonnegative).
  left. reflexivity.
Defined.

(** X9.  Fitting a classifier again.  When the second [fit] returns, it
    leaves the object that a fit of the original classifier leaves: nothing
    of the first fit remains.  When it raises, the object keeps the tree of
    the first fit under the [n_classes] and [n_features] of the new data,
    and [predict] goes on answering from that tree. *)
Theorem refit_outcome {A : Arithmetic}
    (self : DecisionTreeClassifier) (X0 : ndarray)
    (y0 : list Z) (clf : DecisionTreeClassifier) (X : ndarray) (y : list Z) :
  fit self X0 y0 = Some (Ok tt, clf) ->
  (forall clf', fit clf X y = Some (Ok tt, clf')
                <-> fit self X y = Some (Ok tt, clf')) /\
  (forall e clf', fit clf X y = Some (Raise e, clf')
                  <-> fit self X y = Some (Raise e, assign_sizes self X y)
                      /\ clf' = assign_sizes clf X y) /\
  (forall e clf', fit clf X y = Some (Raise e, clf') ->
                  root clf' = root clf /\
                  n_classes clf' = Some (length (np_unique y)) /\
                  n_features clf' = Some (ncols X) /\
                  forall X', predict clf' X' = predict clf X').
Proof.
  rewrite (fit_build_tree self X0 y0).
  destruct (build_tree self X0 y0 0) as [[node0|e0]|]; try discriminate.
  intros [= <-].
  assert (fit (fitted self X0 y0 node0) X y
          = match build_tree self X y 0 with
            | None => None
            | Some (Raise e) =>
                Some (Raise e, assign_sizes (fitted self X0 y0 node0) X y)
            | Some (Ok node) => Some (Ok tt, fitted self X y node)
            end) as E.
  { rewrite fit_build_tree. unfold build_tree.
    rewrite (build_tree_fuel_config (fitted self X0 y0 node0) self _
               eq_refl eq_refl).
    reflexivity. }
  rewrite E, (fit_build_tree self X y).
  destruct (build_tree self X y 0) as [[node|e]|].
  - split; [tauto|]. split; [|discriminate].
    intros e clf'. split; [discriminate|]. intros [H _]. discriminate.
  - split; [|split].
    + intros clf'. split; discriminate.
    + intros e' clf'. split.
      * intros [= <- <-]. auto.
      * intros [[= <-] ->]. reflexivity.
    + intros e' clf' [= <- <-]. repeat split.
  - split; [tauto|]. split; [|discriminate].
    intros e clf'. split; [discriminate|]. intros [H _]. discriminate.
Qed.

Lemma refit_outcome_witness :
  fit (fitted (init None 2) X_scenario y_scenario
         (Decision 0 1%Q (candidate_gain X_scenario y_scenario (0%nat, 1%Q))
            (Leaf 0) (Leaf 1)))
    X_tied y_negative
  = Some (Raise ValueError,
          assign_sizes
            (fitted (init None 2) X_scenario y_scenario
               (Decision 0 1%Q
                  (candidate_gain X_scenario y_scenario (0%nat, 1%Q))
                  (Leaf 0) (Leaf 1)))
            X_tied y_negative) /\
  root (assign_sizes
          (fitted (init None 2) X_scenario y_scenario
             (Decision 0 1%Q
                (candidate_gain X_scenario y_scenario (0%nat, 1%Q))
                (Leaf 0) (Leaf 1)))
          X_tied y_negative)
  = Some (Decision 0 1%Q (candidate_gain X_scenario y_scenario (0%nat, 1%Q))
            (Leaf 0) (Leaf 1)) /\
  n_classes (assign_sizes
               (fitted (init None 2) X_scenario y_scenario
                  (Decision 0 1%Q
                     (candidate_gain X_scenario y_scenario (0%nat, 1%Q))
                     (Leaf 0) (Leaf 1)))
               X_tied y_negative)
  = Some (length (np_unique y_negative)).
Proof.
  pose proof (proj2 (proj2 (refit_outcome (init None 2) X_scenario y_scenario
                              _ X_tied y_negative scenario_fit))
                ValueError _ eq_refl) as H.
  split; [reflexivity|]. split; [apply H|apply H].
Defined.

(** ** Split search in binary64: when nothing is returned *)

(** X15.  In binary64, on a subset with as many labels as rows, the split
    search raises nothing, and it returns None exactly when no evaluated
    candidate has a gain that compares greater than -1, the initial
    [best_gain]: in particular when every candidate leaves one side empty.
    This holds whatever [np.log2] returns. *)
Theorem best_split_None_binary64
    (log2_impl : PrimFloat.float -> PrimFloat.float) (X : ndarray)
    (y : list Z) :
  length y = length (rows X) ->
  (exists r, best_split (A := binary64 log2_impl) X y = Ok r) /\
  (best_split (A := binary64 log2_impl) X y = Ok None <->
   forall c, In c (candidates X) -> viable X y c ->
             (-1 <? candidate_gain (A := binary64 log2_impl) X y c)%float
             = false) /\
  ((forall c, In c (candidates X) -> ~ viable X y c) ->
   best_split (A := binary64 log2_impl) X y = Ok None).
Proof.
  intros Hlen.
  destruct (best_split_inv_binary64 log2_impl X y Hlen) as (st & E & Hinv).
  unfold search_inv_binary64 in Hinv.
  assert (best_split (A := binary64 log2_impl) X y = Ok None <->
          forall c, In c (candidates X) -> viable X y c ->
                    (-1 <? candidate_gain (A := binary64 log2_impl) X y c)%float
                    = false) as Hiff.
  { rewrite E. split.
    - intros [= E']. rewrite E' in Hinv. apply Hinv.
    - intros Hnone. destruct (snd st) as [s|]; [|reflexivity].
      destruct Hinv as (_ & Eg & Hv & Hm1 & before & after & Ec & _).
      rewrite Eg in Hm1. rewrite Hnone in Hm1; [discriminate| |exact Hv].
      rewrite Ec. apply in_app_iff. right. now left. }
  split; [rewrite E; eauto|]. split; [exact Hiff|].
  intros Hnv. apply Hiff. intros c Hc Hv. destruct (Hnv c Hc Hv).
Qed.

Lemma best_split_None_binary64_witness :
  best_split (A := binary64 log2_dyadic) X_tied y_tied = Ok None.
Proof.
  apply (best_split_None_binary64 log2_dyadic X_tied y_tied eq_refl).
  intros c [<-|[]] [_ Hr]. apply Hr. reflexivity.
Defined.

(** ** The statements of visualize_tree *)

Lemma append_nil_r (s : String.string) : String.append s String.EmptyString = s.
Proof. induction s as [|c s IH]; simpl; [reflexivity|]. now rewrite IH. Qed.

Lemma append_assoc (a b c : String.string) :
  String.append (String.append a b) c = String.append a (String.append b c).
Proof. induction a as [|x a IH]; simpl; [reflexivity|]. now rewrite IH. Qed.

Lemma append_inj_r (a b c : String.string) :
  String.append a b = String.append a c -> b = c.
Proof.
  induction a as [|x a IH]; simpl; [auto|]. intros [= H]. auto.
Qed.

Lemma path_id_inj (p q : list bool) : path_id p = path_id q -> p = q.
Proof.
  revert q; induction p as [|s p IH]; intros [|t q]; simpl; try discriminate;
    [reflexivity|].
  intros [= Hc Hr]. f_equal; [|now apply IH].
  destruct s, t; try reflexivity; discriminate.
Qed.

Lemma path_id_app (p q : list bool) :
  path_id (p ++ q) = String.append (path_id p) (path_id q).
Proof. induction p as [|s p IH]; simpl; [reflexivity|]. now rewrite IH. Qed.

Lemma node_names_app (a b : list statement) :
  node_names (a ++ b) = node_names a ++ node_names b.
Proof.
  induction a as [|[n l|t h l] a IH]; simpl; [reflexivity| |assumption].
  now rewrite IH.
Qed.

Lemma edges_app (a b : list statement) :
  edges (a ++ b) = edges a ++ edges b.
Proof.
  induction a as [|[n l|t h l] a IH]; simpl; [reflexivity|assumption|].
  now rewrite IH.
Qed.

Lemma node_names_In (dot : list statement) (name : String.string) :
  In name (node_names dot) <-> exists label, In (node_stmt name label) dot.
Proof.
  induction dot as [|[n l|t h l] dot IH]; simpl.
  - split; [tauto|intros (l & [])].
  - rewrite IH. split.
    + intros [->|(l' & H)]; eauto.
    + intros (l' & [[= -> _]|H]); eauto.
  - rewrite IH. split.
    + intros (l' & H); eauto.
    + intros (l' & [[=]|H]); eauto.
Qed.

Lemma edges_In (dot : list statement) a b lab :
  In (a, b, lab) (edges dot) <-> In (edge_stmt a b lab) dot.
Proof.
  induction dot as [|[n l|t h l] dot IH]; simpl; [tauto| |].
  - rewrite IH. split; [auto|intros [[=]|H]; auto].
  - rewrite IH. split.
    + intros [[= -> -> ->]|H]; auto.
    + intros [[= -> -> ->]|H]; auto.
Qed.

Section VisualizeTreeFacts.
Context {A : Arithmetic}.
Variable format_2f : Q -> String.string.
Variable format_4f : num -> String.string.

(** [add_nodes] only appends to the graph. *)
Lemma add_nodes_app (node : Node) (node_id : String.string)
    (dot : list statement) :
  add_nodes format_2f format_4f node node_id dot = dot ++ add_nodes format_2f format_4f node node_id [].
Proof.
  revert node_id dot.
  induction node as [v|fi t g l IHl r IHr]; intros node_id dot;
    [reflexivity|].
  cbn [add_nodes].
  rewrite (IHr _ (_ ++ _)), (IHl _ (_ ++ _)).
  rewrite (IHr _ (add_nodes format_2f format_4f l _ _ ++ _)), (IHl _ ([] ++ _)).
  rewrite <- !app_assoc. reflexivity.
Qed.

Lemma add_nodes_unfold fi t g l r (node_id : String.string) :
  add_nodes format_2f format_4f (Decision fi t g l r) node_id []
  = node_stmt node_id (node_label format_2f format_4f (Decision fi t g l r))
      :: add_nodes format_2f format_4f l (String.append node_id "0"%string) []
      ++ edge_stmt node_id (String.append node_id "0"%string) "True"%string
      :: add_nodes format_2f format_4f r (String.append node_id "1"%string) []
      ++ [edge_stmt node_id (String.append node_id "1"%string) "False"%string].
Proof.
  cbn [add_nodes].
  rewrite (add_nodes_app r), (add_nodes_app l).
  simpl. rewrite <- !app_assoc. reflexivity.
Qed.

Lemma add_nodes_node_stmt (node : Node) (node_id name label : String.string) :
  In (node_stmt name label) (add_nodes format_2f format_4f node node_id []) <->
  exists path n,
    node_at node path = Some n /\
    name = String.append node_id (path_id path) /\
    label = node_label format_2f format_4f n.
Proof.
  revert node_id.
  induction node as [v|fi t g l IHl r IHr]; intros node_id.
  - simpl. split.
    + intros [[= <- <-]|[]]. exists [], (Leaf v).
      now rewrite append_nil_r.
    + intros (path & n & Hat & -> & ->).
      destruct path; [|discriminate]. injection Hat as <-.
      left. now rewrite append_nil_r.
  - rewrite add_nodes_unfold. simpl. rewrite !in_app_iff. simpl.
    rewrite !in_app_iff. simpl. rewrite IHl, IHr. split.
    + intros [[= <- <-]|[(p & n & Hat & -> & ->)
                        |[[=]|[(p & n & Hat & -> & ->)|[[=]|[]]]]]].
      * exists [], (Decision fi t g l r). now rewrite append_nil_r.
      * exists (false :: p), n. simpl. now rewrite append_assoc.
      * exists (true :: p), n. simpl. now rewrite append_assoc.
    + intros (path & n & Hat & -> & ->).
      destruct path as [|[|] p]; simpl in Hat.
      * injection Hat as <-. left. now rewrite append_nil_r.
      * right. right. right. left. exists p, n. simpl.
        now rewrite append_assoc.
      * right. left. exists p, n. simpl. now rewrite append_assoc.
Qed.

Lemma add_nodes_edge_stmt (node : Node) (node_id a b lab : String.string) :
  In (edge_stmt a b lab) (add_nodes format_2f format_4f node node_id []) <->
  exists path side n,
    node_at node (path ++ [side]) = Some n /\
    a = String.append node_id (path_id path) /\
    b = String.append node_id (path_id (path ++ [side])) /\
    lab = (if side then "False" else "True")%string.
Proof.
  revert node_id.
  induction node as [v|fi t g l IHl r IHr]; intros node_id.
  - simpl. split.
    + intros [[=]|[]].
    + intros (path & side & n & Hat & _). destruct path; discriminate.
  - rewrite add_nodes_unfold. simpl. rewrite !in_app_iff. simpl.
    rewrite !in_app_iff. simpl. rewrite IHl, IHr. split.
    + intros [[=]|[(p & s & n & Hat & -> & -> & ->)
                  |[[= <- <- <-]|[(p & s & n & Hat & -> & -> & ->)
                                 |[[= <- <- <-]|[]]]]]].
      * exists (false :: p), s, n. simpl. now rewrite !append_assoc.
      * exists [], false, l. simpl. now rewrite append_nil_r.
      * exists (true :: p), s, n. simpl. now rewrite !append_assoc.
      * exists [], true, r. simpl. now rewrite append_nil_r.
    + intros (path & side & n & Hat & -> & -> & ->).
      destruct path as [|[|] p]; simpl in Hat.
      * destruct side; simpl; rewrite append_nil_r; tauto.
      * right. right. right. left. exists p, side, n. simpl.
        now rewrite !append_assoc.
      * right. left. exists p, side, n. simpl. now rewrite !append_assoc.
Qed.

Lemma add_nodes_counts (node : Node) (node_id : String.string) :
  length (node_names (add_nodes format_2f format_4f node node_id []))
  = n_leaves node + n_decisions node /\
  length (edges (add_nodes format_2f format_4f node node_id [])) = 2 * n_decisions node.
Proof.
  revert node_id.
  induction node as [v|fi t g l IHl r IHr]; intros node_id; [split; reflexivity|].
  rewrite add_nodes_unfold.
  destruct (IHl (String.append node_id "0"%string)) as [Hl1 Hl2].
  destruct (IHr (String.append node_id "1"%string)) as [Hr1 Hr2].
  cbn [node_names edges]. rewrite node_names_app, edges_app.
  cbn [node_names edges]. rewrite node_names_app, edges_app.
  cbn [node_names edges length]. rewrite !length_app.
  cbn [length n_leaves n_decisions]. rewrite ?length_app. cbn [length].
  rewrite Hl1, Hl2, Hr1, Hr2. lia.
Qed.

Lemma add_nodes_names_form (node : Node) (node_id name : String.string) :
  In name (node_names (add_nodes format_2f format_4f node node_id [])) ->
  exists path, name = String.append node_id (path_id path).
Proof.
  intros H. apply node_names_In in H. destruct H as (label & H).
  apply add_nodes_node_stmt in H. destruct H as (p & n & _ & -> & _). eauto.
Qed.

Lemma add_nodes_names_NoDup (node : Node) (node_id : String.string) :
  NoDup (node_names (add_nodes format_2f format_4f node node_id [])).
Proof.
  revert node_id.
  induction node as [v|fi t g l IHl r IHr]; intros node_id.
  - simpl. constructor; [tauto|constructor].
  - rewrite add_nodes_unfold.
    cbn [node_names]. rewrite node_names_app. cbn [node_names].
    rewrite node_names_app. cbn [node_names]. rewrite app_nil_r.
    constructor.
    + intros H. apply in_app_iff in H.
      destruct H as [H|H]; apply add_nodes_names_form in H;
        destruct H as (p & E); rewrite append_assoc in E;
        rewrite <- (append_nil_r node_id) in E at 1;
        apply append_inj_r in E; discriminate.
    + apply NoDup_app; [apply IHl|apply IHr|].
      intros name Hl Hr.
      apply add_nodes_names_form in Hl, Hr.
      destruct Hl as (p & ->), Hr as (q & E).
      rewrite !append_assoc in E. apply append_inj_r in E. discriminate.
Qed.
End VisualizeTreeFacts.

Lemma node_at_app {A : Arithmetic} (node : Node) (p q : list bool) (n : Node) :
  node_at node (p ++ q) = Some n ->
  exists m, node_at node p = Some m /\ node_at m q = Some n.
Proof.
  revert node; induction p as [|s p IH]; intros node H; simpl in *.
  - eauto.
  - destruct node as [v|fi t g l r]; [discriminate|]. now apply IH.
Qed.

Lemma predict_path_leaf {A : Arithmetic} (x : list Q) (node : Node) (v : Z) :
  predict_single x node = Ok v ->
  node_at node (predict_path x node) = Some (Leaf v).
Proof.
  induction node as [v0|fi t g l IHl r IHr]; simpl.
  - intros [= ->]. reflexivity.
  - destruct (nth_error x fi) as [q|]; [|discriminate].
    destruct (Qle_bool q t); simpl; auto.
Qed.

Lemma predict_path_step {A : Arithmetic} (x : list Q) (p : list bool) :
  forall node side rest,
    predict_path x node = p ++ side :: rest ->
    exists fi t g l r q,
      node_at node p = Some (Decision fi t g l r) /\
      nth_error x fi = Some q /\
      side = negb (Qle_bool q t) /\
      node_at node (p ++ [side]) = Some (if side then r else l).
Proof.
  induction p as [|s p IH]; intros node side rest H;
    destruct node as [v|fi t g l r]; simpl in H; try discriminate.
  - destruct (nth_error x fi) as [q|] eqn:E; [|discriminate].
    exists fi, t, g, l, r, q. simpl.
    destruct (Qle_bool q t); injection H as <- _; auto.
  - destruct (nth_error x fi) as [q|] eqn:E; [|discriminate].
    destruct (Qle_bool q t); injection H as <- H; simpl;
      exact (IH _ side rest H).
Qed.

(** ** The generated data and the training cell *)

Lemma generate_labels_length (X : ndarray) :
  length (generate_labels X) = length (rows X).
Proof.
  unfold generate_labels, add_arrays.
  rewrite !length_map, length_combine, !column_length. lia.
Qed.

Lemma generate_labels_binary (X : ndarray) (v : Z) :
  In v (generate_labels X) -> v = 0%Z \/ v = 1%Z.
Proof.
  unfold generate_labels. intros H. apply in_map_iff in H.
  destruct H as (s & <- & _). destruct (Qle_bool s 0); auto.
Qed.

Lemma firstn_nonnegative (k : nat) (y : list Z) :
  nonnegative y -> nonnegative (firstn k y).
Proof.
  unfold nonnegative. rewrite !Forall_forall. intros H v Hv.
  apply H. rewrite <- (firstn_skipn k y). apply in_app_iff. now left.
Qed.

Lemma mapM_total {A B : Type} (f : A -> result B) (l : list A) :
  (forall x, In x l -> exists v, f x = Ok v) ->
  exists out, mapM f l = Ok out.
Proof.
  induction l as [|x l IH]; simpl; intros H; [eauto|].
  destruct (H x (or_introl eq_refl)) as (v & ->).
  destruct IH as (out & ->); [intros; apply H; now right|]. simpl. eauto.
Qed.

(** A fitted tree answers every array that is at least as wide as the
    training data, row by row, with training labels. *)
Lemma predict_fitted_total {A : Arithmetic}
    (self : DecisionTreeClassifier) X y node X' :
  Builds self X y 0 (Ok node) -> length y = length (rows X) ->
  rectangular X' -> ncols X <= ncols X' ->
  exists out,
    predict (fitted self X y node) X' = Ok out /\
    length out = length (rows X') /\
    Forall (fun v => In v y) out.
Proof.
  intros B Hlen Hrect Hw.
  pose proof (Builds_features_below self X y 0 _ B Hlen node eq_refl) as Hb.
  pose proof (Builds_leaf_values self X y 0 _ B Hlen node eq_refl) as Hincl.
  unfold predict. simpl.
  destruct (mapM_total (fun x => predict_single x node) (rows X')) as (out & E).
  { intros x Hx. unfold rectangular in Hrect. rewrite Forall_forall in Hrect.
    destruct (predict_single_wide (ncols X) x node Hb) as (v & Hv & _);
      [rewrite (Hrect x Hx); exact Hw|eauto]. }
  exists out. split; [exact E|].
  apply mapM_inv in E. split.
  - symmetry. eapply Forall2_length; eauto.
  - induction E as [|x v xs vs Hx _ IH]; constructor; auto.
    apply Hincl. eapply predict_single_leaf_value; eauto.
Qed.

Lemma rectangular_firstn (X : ndarray) (k : nat) :
  rectangular X -> rectangular (rows_before X k).
Proof.
  unfold rectangular. simpl. rewrite !Forall_forall. intros H r Hr.
  apply H. rewrite <- (firstn_skipn k (rows X)). apply in_app_iff. now left.
Qed.

Lemma rectangular_skipn (X : ndarray) (k : nat) :
  rectangular X -> rectangular (rows_from X k).
Proof.
  unfold rectangular. simpl. rewrite !Forall_forall. intros H r Hr.
  apply H. rewrite <- (firstn_skipn k (rows X)). apply in_app_iff. now right.
Qed.

(** X10.  The nodes that [visualize_tree] draws.  On a classifier that was
    never fitted it raises AttributeError.  Otherwise it declares exactly
    one graph node for each node of the tree: the names are pairwise
    distinct, the node reached from the root by a path of sides is named
    "0" followed by one character 0 (left) or 1 (right) per side, and it
    carries the label of that tree node. *)
Theorem visualize_tree_nodes {A : Arithmetic} (format_2f : Q -> String.string)
    (format_4f : num -> String.string) (tree : DecisionTreeClassifier) :
  match visualize_tree format_2f format_4f tree with
  | Raise e => e = AttributeError /\ root tree = None
  | Ok dot =>
      exists node,
        root tree = Some node /\
        NoDup (node_names dot) /\
        length (node_names dot) = n_leaves node + n_decisions node /\
        forall name label,
          In (node_stmt name label) dot <->
          exists path n,
            node_at node path = Some n /\
            name = String.append "0"%string (path_id path) /\
            label = node_label format_2f format_4f n
  end.
Proof.
  unfold visualize_tree. destruct (root tree) as [node|]; [|auto].
  exists node. split; [reflexivity|].
  split; [apply add_nodes_names_NoDup|].
  split; [apply add_nodes_counts|].
  intros name label. apply add_nodes_node_stmt.
Qed.

(** X11.  The edges that [visualize_tree] draws.  There is one edge fewer
    than there are nodes; the edges are exactly those from each decision
    node to its two children, labelled True to the left child and False to
    the right child; and every edge joins two declared nodes. *)
Theorem visualize_tree_edges {A : Arithmetic} (format_2f : Q -> String.string)
    (format_4f : num -> String.string) (tree : DecisionTreeClassifier) :
  match visualize_tree format_2f format_4f tree with
  | Raise e => e = AttributeError
  | Ok dot =>
      exists node,
        root tree = Some node /\
        length (edges dot) = length (node_names dot) - 1 /\
        (forall a b lab,
            In (edge_stmt a b lab) dot <->
            exists path side n,
              node_at node (path ++ [side]) = Some n /\
              a = String.append "0"%string (path_id path) /\
              b = String.append "0"%string (path_id (path ++ [side])) /\
              lab = (if side then "False" else "True")%string) /\
        (forall a b lab,
            In (edge_stmt a b lab) dot ->
            In a (node_names dot) /\ In b (node_names dot))
  end.
Proof.
  unfold visualize_tree. destruct (root tree) as [node|]; [|auto].
  exists node. split; [reflexivity|].
  destruct (add_nodes_counts format_2f format_4f node "0"%string) as [Hn He].
  split; [rewrite Hn, He, (n_leaves_decisions node); lia|].
  split; [intros a b lab; apply add_nodes_edge_stmt|].
  intros a b lab H. apply add_nodes_edge_stmt in H.
  destruct H as (path & side & n & Hat & -> & -> & _).
  destruct (node_at_app node path [side] n Hat) as (m & Hm & _).
  split; apply node_names_In; eexists; apply add_nodes_node_stmt; eauto.
Qed.

(** X12.  The drawing agrees with prediction.  When [predict_single]
    returns a class for a query, the sides it takes lead to a drawn node
    labelled with that class, and each step of the way leaves a decision
    node by the drawn edge labelled True when
    [x[feature_index] <= threshold] and by the one labelled False
    otherwise. *)
Theorem prediction_follows_drawn_edges {A : Arithmetic}
    (format_2f : Q -> String.string)
    (format_4f : num -> String.string) (x : list Q) (node : Node) (v : Z) :
  predict_single x node = Ok v ->
  let dot := add_nodes format_2f format_4f node "0"%string [] in
  let path := predict_path x node in
  In (node_stmt (String.append "0"%string (path_id path))
        (String.append "Class: "%string (str_int v))) dot /\
  forall p side rest,
    path = p ++ side :: rest ->
    exists fi t g l r q,
      node_at node p = Some (Decision fi t g l r) /\
      nth_error x fi = Some q /\
      In (edge_stmt (String.append "0"%string (path_id p))
            (String.append "0"%string (path_id (p ++ [side])))
            (if Qle_bool q t then "True" else "False")%string) dot.
Proof.
  intros Hp dot path. split.
  - apply add_nodes_node_stmt. exists path, (Leaf v).
    split; [now apply predict_path_leaf|auto].
  - intros p side rest E.
    destruct (predict_path_step x p node side rest E)
      as (fi & t & g & l & r & q & Hat & Hq & Hs & Hat').
    exists fi, t, g, l, r, q. split; [exact Hat|]. split; [exact Hq|].
    apply add_nodes_edge_stmt. exists p, side, (if side then r else l).
    split; [exact Hat'|]. split; [reflexivity|]. split; [reflexivity|].
    rewrite Hs. now destruct (Qle_bool q t).
Qed.

Lemma prediction_follows_drawn_edges_witness :
  In (node_stmt "01"%string "Class: 1"%string)
    (add_nodes (fun _ => "1.00"%string) (fun _ => "1.0000"%string)
       stump "0"%string []).
Proof.
  exact (proj1 (prediction_follows_drawn_edges
                  (fun _ => "1.00"%string) (fun _ => "1.0000"%string)
                  [5 # 2]%Q stump 1%Z eq_refl)).
Defined.

(** X13.  The notebook's own data.  The labels that [generate_data]
    derives from a drawn sample of two columns are 0 or 1, one per row.
    With at least two rows, training on the first half never raises: the
    tree has height at most 3 and [predict] answers the training and the
    test part row by row with 0 or 1.  With fewer than two rows the
    training part is empty and [fit] raises ValueError. *)
Theorem generated_data_trains {A : Arithmetic}
    (sample X X_train X_test : ndarray)
    (y y_train y_test : list Z) :
  ncols sample = 2 -> rectangular sample ->
  generate_data sample = (X, y) ->
  train_test_split X y = ((X_train, X_test), (y_train, y_test)) ->
  length y = length (rows X) /\
  Forall (fun v => v = 0%Z \/ v = 1%Z) y /\
  (2 <= length (rows sample) ->
   exists dt node y_pred_train y_pred_test,
     train_and_predict X_train X_test y_train
     = Some (Ok (dt, y_pred_train, y_pred_test)) /\
     root dt = Some node /\ height node <= 3 /\
     length y_pred_train = length (rows X_train) /\
     length y_pred_test = length (rows X_test) /\
     Forall (fun v => v = 0%Z \/ v = 1%Z) (y_pred_train ++ y_pred_test)) /\
  (length (rows sample) < 2 ->
   train_and_predict X_train X_test y_train = Some (Raise ValueError)).
Proof.
  intros Hcols Hrect [= <- <-] [= <- <- <- <-].
  change (fst (Nat.divmod (length (rows sample)) 1 0 1))
    with (length (rows sample) / 2) in *.
  pose proof (generate_labels_length sample) as Hlen.
  assert (Forall (fun v => v = 0%Z \/ v = 1%Z) (generate_labels sample))
    as Hbin by (apply Forall_forall; apply generate_labels_binary).
  split; [exact Hlen|]. split; [exact Hbin|].
  set (k := length (rows sample) / 2).
  set (Xtr := rows_before sample k). set (Xte := rows_from sample k).
  set (ytr := firstn k (generate_labels sample)).
  assert (length ytr = length (rows Xtr)) as Hltr.
  { unfold ytr, Xtr. simpl. rewrite !length_firstn. lia. }
  split.
  - intros Hn.
    assert (1 <= k) as Hk.
    { unfold k. change 1 with (2 / 2).
      apply Nat.Div0.div_le_mono. exact Hn. }
    assert (k <= length (rows sample)) as Hk'
      by (unfold k; apply Nat.Div0.div_le_upper_bound; lia).
    assert (ytr <> []) as Hy.
    { intros E. apply (f_equal (@length Z)) in E. unfold ytr in E.
      rewrite length_firstn in E. simpl in E. lia. }
    assert (nonnegative ytr) as Hnn.
    { apply firstn_nonnegative. unfold nonnegative.
      eapply Forall_impl; [|exact Hbin]. intros v [-> | ->]; lia. }
    destruct (build_tree_Builds (init (Some 3) 2) Xtr ytr 0 Hltr)
      as (r & E & B).
    destruct (Builds_nonnegative _ _ _ _ _ B Hltr Hy Hnn) as (node & ->).
    destruct (predict_fitted_total _ Xtr ytr node Xtr B Hltr)
      as (ptr & Eptr & Hlptr & Hintr);
      [now apply rectangular_firstn|apply le_n|].
    destruct (predict_fitted_total _ Xtr ytr node Xte B Hltr)
      as (pte & Epte & Hlpte & Hinte);
      [now apply rectangular_skipn|apply le_n|].
    exists (fitted (init (Some 3) 2) Xtr ytr node), node, ptr, pte.
    split; [|split; [reflexivity|split; [|split; [exact Hlptr|split]]]].
    + unfold train_and_predict. cbv zeta. rewrite fit_build_tree, E.
      rewrite Eptr. cbn [bind]. rewrite Epte. reflexivity.
    + pose proof (Builds_height _ _ _ _ _ B node 3 eq_refl eq_refl). lia.
    + exact Hlpte.
    + assert (forall v, In v ytr -> v = 0%Z \/ v = 1%Z) as Hsub.
      { intros v Hv. rewrite Forall_forall in Hbin. apply Hbin.
        rewrite <- (firstn_skipn k (generate_labels sample)).
        apply in_app_iff. now left. }
      apply Forall_app. split.
      * eapply Forall_impl; [|exact Hintr]. exact Hsub.
      * eapply Forall_impl; [|exact Hinte]. exact Hsub.
  - intros Hn.
    assert (k = 0) as Hk by (unfold k; apply Nat.div_small; exact Hn).
    unfold train_and_predict. cbv zeta. rewrite fit_build_tree.
    rewrite build_tree_root_leaf.
    + unfold ytr. rewrite Hk. reflexivity.
    + right. apply candidates_no_rows. unfold Xtr. rewrite Hk. reflexivity.
Qed.

Lemma generated_data_trains_witness :
  exists dt node y_pred_train y_pred_test,
    train_and_predict (rows_before sample_two 1) (rows_from sample_two 1) [1%Z]
    = Some (Ok (dt, y_pred_train, y_pred_test)) /\
    root dt = Some node /\ height node <= 3 /\
    length y_pred_train = length (rows (rows_before sample_two 1)) /\
    length y_pred_test = length (rows (rows_from sample_two 1)) /\
    Forall (fun v => v = 0%Z \/ v = 1%Z) (y_pred_train ++ y_pred_test).
Proof.
  refine (proj1 (proj2 (proj2
            (generated_data_trains sample_two sample_two
               (rows_before sample_two 1) (rows_from sample_two 1)
               [1; 0]%Z [1%Z] [0%Z] eq_refl _ eq_refl eq_refl))) _).
  - repeat constructor.
  - simpl. lia.
Defined.

(** ** Training rows and their leaves *)

Lemma combine_select_true {A B : Type} (f : A -> bool) (a : list A) (b : list B) x l :
  In (x, l) (combine a b) -> f x = true ->
  In (x, l) (combine (select (map f a) a) (select (map f a) b)).
Proof.
  revert b; induction a as [|x0 a IH]; intros [|l0 b]; simpl; try tauto.
  intros [[= -> ->]|H] Hf.
  - rewrite Hf. now left.
  - destruct (f x0); [right|]; auto.
Qed.

Lemma combine_select_false {A B : Type} (f : A -> bool) (a : list A) (b : list B) x l :
  In (x, l) (combine a b) -> f x = false ->
  In (x, l) (combine (select (invert (map f a)) a)
               (select (invert (map f a)) b)).
Proof.
  revert b; induction a as [|x0 a IH]; intros [|l0 b]; simpl; try tauto.
  intros [[= -> ->]|H] Hf.
  - rewrite Hf. now left.
  - destruct (f x0); simpl; [|right]; auto.
Qed.

Lemma make_leaf_Ok_majority {A : Arithmetic} (y : list Z) (v : Z) :
  make_leaf y = Ok (Leaf v) -> majority_label y v.
Proof.
  intros E.
  destruct y as [|h t] eqn:Ey; [discriminate|]. rewrite <- Ey in *.
  destruct (existsb (fun v => (v <? 0)%Z) y) eqn:Hneg.
  - unfold make_leaf, bincount in E. rewrite Hneg in E. discriminate.
  - apply existsb_negative in Hneg.
    destruct (make_leaf_majority y) as (v' & E' & Hmaj); auto.
    + rewrite Ey. discriminate.
    + congruence.
Qed.

Lemma predict_path_decision {A : Arithmetic} (x : list Q) fi t g l r :
  fi < length x ->
  predict_path x (Decision fi t g l r)
  = if Qle_bool (nth fi x 0%Q) t then false :: predict_path x l
    else true :: predict_path x r.
Proof.
  intros Hfi. simpl. now rewrite (nth_error_nth' x 0%Q Hfi).
Qed.

(** A training row is sent, in prediction, down the sides along which the
    builder sent it, to the leaf built from the subset that holds it. *)
Lemma Builds_routes {A : Arithmetic}
    (self : DecisionTreeClassifier) X y depth r :
  Builds self X y depth r ->
  forall node, r = Ok node ->
  length y = length (rows X) -> rectangular X ->
  forall x l, In (x, l) (combine (rows X) y) ->
  exists X' y' v,
    call_at self (predict_path x node) (X, y, depth)
      (X', y', depth + length (predict_path x node)) /\
    In (x, l) (combine (rows X') y') /\
    node_at node (predict_path x node) = Some (Leaf v) /\
    predict_single x node = Ok v /\
    make_leaf y' = Ok (Leaf v).
Proof.
  induction 1 as
    [X y depth Hstop
    |X y depth Hstop Hbest
    |X y depth best Xl yl e Hstop Hbest El Bl IHl
    |X y depth best Xl yl Xr yr ln e Hstop Hbest El Bl IHl Er Br IHr
    |X y depth best Xl yl Xr yr ln rn Hstop Hbest El Bl IHl Er Br IHr];
    intros node Enode Hlen Hrect x l Hin; try discriminate.
  - destruct (make_leaf_is_leaf y node Enode) as (v & ->).
    exists X, y, v. simpl. rewrite Nat.add_0_r.
    split; [constructor|auto].
  - destruct (make_leaf_is_leaf y node Enode) as (v & ->).
    exists X, y, v. simpl. rewrite Nat.add_0_r.
    split; [constructor|auto].
  - injection Enode as <-.
    destruct (child_sizes X y best Xl yl false Hlen Hbest El) as [Hll _].
    destruct (child_sizes X y best Xr yr true Hlen Hbest Er) as [Hlr _].
    pose proof (subset_rectangular _ _ _ _ _ El Hrect) as Hrl.
    pose proof (subset_rectangular _ _ _ _ _ Er Hrect) as Hrr.
    assert (feature_index best < length x) as Hfi.
    { destruct (best_split_Some X y best Hlen Hbest)
        as (_ & _ & before & after & Ec).
      assert (In (feature_index best, threshold best) (candidates X)) as Hc
        by (rewrite Ec; apply in_app_iff; right; now left).
      apply candidates_In in Hc. destruct Hc as [Hc _].
      unfold rectangular in Hrect. rewrite Forall_forall in Hrect.
      rewrite (Hrect x (in_combine_l _ _ _ _ Hin)). exact Hc. }
    rewrite predict_path_decision, predict_single_decision by exact Hfi.
    pose proof El as El'. pose proof Er as Er'.
    apply subset_inv in El', Er'.
    destruct El' as (EXl & Eyl & _ & _). destruct Er' as (EXr & Eyr & _ & _).
    rewrite split_mask_map in EXl, Eyl, EXr, Eyr.
    destruct (Qle_bool (nth (feature_index best) x 0%Q) (threshold best))
      eqn:Ef.
    + assert (In (x, l) (combine (rows Xl) yl)) as Hinl.
      { rewrite EXl, Eyl. simpl.
        apply (combine_select_true
                 (fun r => Qle_bool (nth (feature_index best) r 0%Q)
                             (threshold best))); assumption. }
      destruct (IHl ln eq_refl Hll Hrl x l Hinl)
        as (X' & y' & v & Hcall & Hin' & Hat & Hp & Hleaf).
      exists X', y', v. simpl.
      replace (depth + S (length (predict_path x ln)))
        with (depth + 1 + length (predict_path x ln)) by lia.
      split; [|auto].
      eapply call_below; [|exact Hcall]. eapply child_left; eauto.
    + assert (In (x, l) (combine (rows Xr) yr)) as Hinr.
      { rewrite EXr, Eyr. simpl.
        apply (combine_select_false
                 (fun r => Qle_bool (nth (feature_index best) r 0%Q)
                             (threshold best))); assumption. }
      destruct (IHr rn eq_refl Hlr Hrr x l Hinr)
        as (X' & y' & v & Hcall & Hin' & Hat & Hp & Hleaf).
      exists X', y', v. simpl.
      replace (depth + S (length (predict_path x rn)))
        with (depth + 1 + length (predict_path x rn)) by lia.
      split; [|auto].
      eapply call_below; [|exact Hcall]. eapply child_right; eauto.
Qed.

(** X14.  Prediction on a training row.  For every training sample, the
    sides that [predict_single] takes are the sides along which
    [build_tree] sent the sample, and the class returned is the majority
    label of the training subset of the leaf that holds the sample. *)
Theorem training_row_reaches_its_leaf {A : Arithmetic}
    (self : DecisionTreeClassifier)
    (X : ndarray) (y : list Z) (clf : DecisionTreeClassifier) (node : Node) :
  well_formed X y ->
  fit self X y = Some (Ok tt, clf) -> root clf = Some node ->
  forall x l,
    In (x, l) (combine (rows X) y) ->
    exists X' y' v,
      call_at self (predict_path x node) (X, y, 0)
        (X', y', length (predict_path x node)) /\
      In (x, l) (combine (rows X') y') /\
      node_at node (predict_path x node) = Some (Leaf v) /\
      predict_single x node = Ok v /\
      majority_label y' v.
Proof.
  intros (_ & Hrect & Hlen) Hfit Hroot x l Hin.
  pose proof (fit_Builds self X y clf node Hlen Hfit Hroot) as B.
  destruct (Builds_routes self X y 0 _ B node eq_refl Hlen Hrect x l Hin)
    as (X' & y' & v & Hcall & Hin' & Hat & Hp & Hleaf).
  exists X', y', v. simpl in Hcall.
  repeat (split; [assumption|]). now apply make_leaf_Ok_majority.
Qed.

Lemma training_row_reaches_its_leaf_witness :
  exists X' y' v,
    call_at (init None 2)
      (predict_path [3%Q]
         (Decision 0 1%Q (candidate_gain X_scenario y_scenario (0%nat, 1%Q))
            (Leaf 0) (Leaf 1)))
      (X_scenario, y_scenario, 0)
      (X', y',
       length (predict_path [3%Q]
                 (Decision 0 1%Q
                    (candidate_gain X_scenario y_scenario (0%nat, 1%Q))
                    (Leaf 0) (Leaf 1)))) /\
    In ([3%Q], 1%Z) (combine (rows X') y') /\
    node_at (Decision 0 1%Q (candidate_gain X_scenario y_scenario (0%nat, 1%Q))
               (Leaf 0) (Leaf 1))
      (predict_path [3%Q]
         (Decision 0 1%Q (candidate_gain X_scenario y_scenario (0%nat, 1%Q))
            (Leaf 0) (Leaf 1))) = Some (Leaf v) /\
    predict_single [3%Q]
      (Decision 0 1%Q (candidate_gain X_scenario y_scenario (0%nat, 1%Q))
         (Leaf 0) (Leaf 1)) = Ok v /\
    majority_label y' v.
Proof.
  apply (training_row_reaches_its_leaf (init None 2) X_scenario y_scenario
           _ _ scenario_well_formed scenario_fit eq_refl [3%Q] 1%Z).
  simpl. auto.
Defined.
